(** * Incoming slot migration: the receiving flows and their coordinator

    A shallow embedding of [ClusterShardMigration] and
    [IncomingSlotMigration], the receiving side of a slot migration
    (src/server/journal/journal.cc, from [namespace dfly::cluster] on).

    The C++ objects are shared between fibers: every flow holds a pointer to
    its coordinator, all flows and the coordinator share one execution
    context and one [BlockingCounter].  The embedding therefore keeps one
    [World] value with all of them, and every member function is a
    transformer of that world.  What the code does to its collaborators
    (latch operations, error reports, executor calls, LOG lines) is appended
    to a trace held in the world, so that statements about "what was
    reported" or "how long was waited" are statements about that trace.

    A fiber gives up control at its blocking calls.  [Start] is cut at those
    points into the steps of a small machine ([ClusterShardMigration.step]);
    [Join] and [Stop] block in [BlockingCounter::WaitFor], and the model of
    that call is handed the steps other fibers take while it blocks. *)

From Stdlib Require Import ZArith Lia Bool.
From stdpp Require Import base list strings pretty.

Set Default Proof Using "Type".

(** ** Plain data *)

(** [MigrationState] (cluster_defs.h). *)
Inductive MigrationState := C_CONNECTING | C_SYNC | C_FINISHED | C_FATAL.

#[global] Instance MigrationState_eq_dec : EqDecision MigrationState.
Proof. solve_decision. Defined.

Module journal.
(** [journal::Op]: the opcodes of a journal entry. *)
Inductive Op := NOOP | SELECT | COMMAND | MULTI_COMMAND | EXEC | PING | LSN | FIN.

#[global] Instance Op_eq_dec : EqDecision Op.
Proof. solve_decision. Defined.
End journal.

(** [std::error_code], by its numeric value; [{}] is [0]. *)
Definition error_code := Z.

(** [std::errc::not_enough_memory] is [ENOMEM]. *)
Definition not_enough_memory : error_code := 12%Z.

(** [GenericError], by its text. *)
Definition GenericError := string.

(** [journal::ParsedEntry::CmdData]: the argv of one command. *)
Record CmdData := { cmd_args : list string }.

Definition DbIndex := nat.

(** [TransactionData] (tx_executor.h): the fields the flow reads. *)
Record TransactionData := {
  txid : Z;
  opcode : journal.Op;
  dbid : DbIndex;
  lsn : Z;                       (* LSN, uint64_t *)
  command : CmdData;
}.

(** What [TransactionReader::NextTxData] hands back when it is asked for the
    next transaction of a stream: a transaction, or nothing, in which case
    the reader may have put the read error on the context. *)
Inductive ReadResult :=
| RdTx (tx : TransactionData)
| RdNone (err : option GenericError).

(** [util::FiberSocketBase], as far as the flow touches it: whether it is
    open, whether [Shutdown] was called on it, what [Shutdown] answers, what
    [GetSocketInfo] prints for it, and the transactions still to be read
    from it. *)
Record FiberSocket := {
  sock_open : bool;
  sock_shut : bool;
  shutdown_result : error_code;
  sock_info : string;
  incoming : list ReadResult;
}.

Definition Shutdown (s : FiberSocket) : FiberSocket :=
  {| sock_open := sock_open s; sock_shut := true;
     shutdown_result := shutdown_result s; sock_info := sock_info s;
     incoming := incoming s |}.

Definition pop_incoming (s : FiberSocket) : FiberSocket :=
  {| sock_open := sock_open s; sock_shut := sock_shut s;
     shutdown_result := shutdown_result s; sock_info := sock_info s;
     incoming := tail (incoming s) |}.

(** Storing a [uint64_t] LSN into [atomic_long last_attempt_] keeps the low
    64 bits and reads them as a signed number. *)
Definition to_long (z : Z) : Z := ((z + 2 ^ 63) mod 2 ^ 64 - 2 ^ 63)%Z.

(** [absl::Duration] and [absl::Time] are counted in nanoseconds. *)
Definition Duration := Z.

Definition Milliseconds (ms : Z) : Duration := (ms * 1000000)%Z.

(** [absl::ToInt64Milliseconds] truncates toward zero. *)
Definition ToInt64Milliseconds (d : Duration) : Z := (d ÷ 1000000)%Z.

(** ** Collaborators known by their interface only *)

Module ExecutionState.
(** [ExecutionState]: the cancellation and error context shared by the
    coordinator and its flows.  Its implementation is outside this
    translation unit; the code here only calls these members. *)
Class Ops := {
  t : Type;
  IsRunning : t → bool;
  ReportError : GenericError → t → t;
  GetError : t → option GenericError;
  Cancel : t → t;
  Reset : t → t;
}.
End ExecutionState.

Module JournalExecutor.
(** [JournalExecutor::Execute(dbid, cmd)] applies a command to the service
    and answers with an error code. *)
Class Ops := {
  Service : Type;
  Execute : DbIndex → CmdData → Service → error_code * Service;
}.
End JournalExecutor.

Module cluster.
(** cluster_utility.h, tx_executor.h and error.h: the slot ranges of a
    migration, the key count of those slots, [TransactionData::IsGlobalCmd]
    and the text of the out-of-memory error. *)
Class Ops `{!JournalExecutor.Ops} := {
  SlotRanges : Type;
  ToString : SlotRanges → string;
  GetKeyCount : SlotRanges → JournalExecutor.Service → nat;
  IsGlobalCmd : TransactionData → bool;
  kIncomingMigrationOOM : string;
}.
End cluster.

(** ** The trace *)

Inductive Severity := INFO | WARNING | ERROR.

Inductive Event :=
| EvLatchDec (shard : nat)                     (* bc_->Dec() of a flow *)
| EvLatchAdd (shard : nat)                     (* bc_->Add() of a flow *)
| EvLatchWait (ms : Z) (res : bool)            (* bc_->WaitFor(ms * 1ms) = res *)
| EvCntxReportError (e : GenericError)         (* cntx->ReportError(e) *)
| EvCntxCancel                                 (* cntx_.Cancel() *)
| EvReportError (e : GenericError)             (* IncomingSlotMigration::ReportError *)
| EvReportFatalError (e : GenericError)        (* IncomingSlotMigration::ReportFatalError *)
| EvExecute (shard : nat) (db : DbIndex) (cmd : CmdData) (ec : error_code)
                                             (* executor_.Execute(db, cmd) = ec *)
| EvShutdown (shard : nat) (ec : error_code)   (* s->Shutdown(SHUT_RDWR) = ec *)
| EvSleep (shard : nat) (ms : Z)               (* ThisFiber::SleepFor *)
| EvLog (sev : Severity) (msg : string).       (* LOG(sev) << msg *)

(** ** The objects *)

(** Where the fiber that runs [Start] on a flow stands. *)
Inductive FlowPc :=
| PcIdle       (* no fiber is inside Start *)
| PcLoop       (* at the head of the outer while loop *)
| PcRead       (* blocked in NextTxData at the top of the loop body *)
| PcAttempt.   (* blocked in NextTxData inside the LSN loop, latch decremented *)

#[global] Instance FlowPc_eq_dec : EqDecision FlowPc.
Proof. solve_decision. Defined.

(** The data members of [ClusterShardMigration], and the control point of
    its fiber.  [executor_], [in_migration_] and [bc_] point into the
    world. *)
Record Flow := {
  source_shard_id_ : nat;
  is_finished_ : bool;
  socket_ : option FiberSocket;
  last_attempt_ : Z;
  pause_ : bool;
  pc : FlowPc;
}.

Section World.
Context `{!ExecutionState.Ops, !JournalExecutor.Ops, !cluster.Ops}.

(** The data members of [IncomingSlotMigration], with what it reaches
    through them: the service, the flag, the wall clock and the trace. *)
Record World := {
  source_id_ : string;
  slots_ : cluster.SlotRanges;
  cntx_ : ExecutionState.t;
  state_ : MigrationState;
  keys_number_ : nat;
  bc_ : Z;
  shard_flows_ : list Flow;
  service_ : JournalExecutor.Service;
  FLAGS_migration_finalization_timeout_ms : Z;
  Now : Z;
  trace : list Event;
}.

Definition set_cntx (c : ExecutionState.t) (w : World) : World :=
  {| source_id_ := source_id_ w; slots_ := slots_ w; cntx_ := c;
     state_ := state_ w; keys_number_ := keys_number_ w; bc_ := bc_ w;
     shard_flows_ := shard_flows_ w; service_ := service_ w;
     FLAGS_migration_finalization_timeout_ms :=
       FLAGS_migration_finalization_timeout_ms w;
     Now := Now w; trace := trace w |}.

Definition set_state (s : MigrationState) (w : World) : World :=
  {| source_id_ := source_id_ w; slots_ := slots_ w; cntx_ := cntx_ w;
     state_ := s; keys_number_ := keys_number_ w; bc_ := bc_ w;
     shard_flows_ := shard_flows_ w; service_ := service_ w;
     FLAGS_migration_finalization_timeout_ms :=
       FLAGS_migration_finalization_timeout_ms w;
     Now := Now w; trace := trace w |}.

Definition set_keys (k : nat) (w : World) : World :=
  {| source_id_ := source_id_ w; slots_ := slots_ w; cntx_ := cntx_ w;
     state_ := state_ w; keys_number_ := k; bc_ := bc_ w;
     shard_flows_ := shard_flows_ w; service_ := service_ w;
     FLAGS_migration_finalization_timeout_ms :=
       FLAGS_migration_finalization_timeout_ms w;
     Now := Now w; trace := trace w |}.

Definition set_bc (n : Z) (w : World) : World :=
  {| source_id_ := source_id_ w; slots_ := slots_ w; cntx_ := cntx_ w;
     state_ := state_ w; keys_number_ := keys_number_ w; bc_ := n;
     shard_flows_ := shard_flows_ w; service_ := service_ w;
     FLAGS_migration_finalization_timeout_ms :=
       FLAGS_migration_finalization_timeout_ms w;
     Now := Now w; trace := trace w |}.

Definition set_flows (fs : list Flow) (w : World) : World :=
  {| source_id_ := source_id_ w; slots_ := slots_ w; cntx_ := cntx_ w;
     state_ := state_ w; keys_number_ := keys_number_ w; bc_ := bc_ w;
     shard_flows_ := fs; service_ := service_ w;
     FLAGS_migration_finalization_timeout_ms :=
       FLAGS_migration_finalization_timeout_ms w;
     Now := Now w; trace := trace w |}.

Definition set_service (s : JournalExecutor.Service) (w : World) : World :=
  {| source_id_ := source_id_ w; slots_ := slots_ w; cntx_ := cntx_ w;
     state_ := state_ w; keys_number_ := keys_number_ w; bc_ := bc_ w;
     shard_flows_ := shard_flows_ w; service_ := s;
     FLAGS_migration_finalization_timeout_ms :=
       FLAGS_migration_finalization_timeout_ms w;
     Now := Now w; trace := trace w |}.

Definition set_Now (n : Z) (w : World) : World :=
  {| source_id_ := source_id_ w; slots_ := slots_ w; cntx_ := cntx_ w;
     state_ := state_ w; keys_number_ := keys_number_ w; bc_ := bc_ w;
     shard_flows_ := shard_flows_ w; service_ := service_ w;
     FLAGS_migration_finalization_timeout_ms :=
       FLAGS_migration_finalization_timeout_ms w;
     Now := n; trace := trace w |}.

Definition set_trace (tr : list Event) (w : World) : World :=
  {| source_id_ := source_id_ w; slots_ := slots_ w; cntx_ := cntx_ w;
     state_ := state_ w; keys_number_ := keys_number_ w; bc_ := bc_ w;
     shard_flows_ := shard_flows_ w; service_ := service_ w;
     FLAGS_migration_finalization_timeout_ms :=
       FLAGS_migration_finalization_timeout_ms w;
     Now := Now w; trace := tr |}.

(** Appending to the trace. *)
Definition emit (e : Event) (w : World) : World :=
  set_trace (trace w ++ [e]) w.

Definition LOG (sev : Severity) (msg : string) (w : World) : World :=
  emit (EvLog sev msg) w.

(** Updating the flow of one shard in place. *)
Definition upd_flow (i : nat) (g : Flow → Flow) (w : World) : World :=
  set_flows (alter g i (shard_flows_ w)) w.

End World.

(** Updates of one flow. *)
Definition begin_flow (source : FiberSocket) (f : Flow) : Flow :=
  {| source_shard_id_ := source_shard_id_ f; is_finished_ := true;
     socket_ := Some source; last_attempt_ := last_attempt_ f;
     pause_ := pause_ f; pc := PcLoop |}.

Definition leave_flow (f : Flow) : Flow :=
  {| source_shard_id_ := source_shard_id_ f; is_finished_ := is_finished_ f;
     socket_ := None; last_attempt_ := last_attempt_ f;
     pause_ := pause_ f; pc := PcIdle |}.

Definition finish_flow (f : Flow) : Flow :=
  {| source_shard_id_ := source_shard_id_ f; is_finished_ := true;
     socket_ := socket_ f; last_attempt_ := last_attempt_ f;
     pause_ := pause_ f; pc := pc f |}.

Definition set_pc (p : FlowPc) (f : Flow) : Flow :=
  {| source_shard_id_ := source_shard_id_ f; is_finished_ := is_finished_ f;
     socket_ := socket_ f; last_attempt_ := last_attempt_ f;
     pause_ := pause_ f; pc := p |}.

Definition set_socket (s : option FiberSocket) (f : Flow) : Flow :=
  {| source_shard_id_ := source_shard_id_ f; is_finished_ := is_finished_ f;
     socket_ := s; last_attempt_ := last_attempt_ f;
     pause_ := pause_ f; pc := pc f |}.

Definition store_attempt (a : Z) (f : Flow) : Flow :=
  {| source_shard_id_ := source_shard_id_ f; is_finished_ := is_finished_ f;
     socket_ := socket_ f; last_attempt_ := a;
     pause_ := pause_ f; pc := pc f |}.

Definition set_pause (b : bool) (f : Flow) : Flow :=
  {| source_shard_id_ := source_shard_id_ f; is_finished_ := is_finished_ f;
     socket_ := socket_ f; last_attempt_ := last_attempt_ f;
     pause_ := b; pc := pc f |}.

(** ** Members of [IncomingSlotMigration] that its flows call

    They are defined inline in incoming_slot_migration.h. *)
Section Header.
Context `{!ExecutionState.Ops, !JournalExecutor.Ops, !cluster.Ops}.

(** Modelled from the spec: [GetState] reads the migration state, which the
    header defines next to [state_]. *)
Definition GetState (w : World) : MigrationState := state_ w.

(** Modelled from the spec: [IncomingSlotMigration::ReportError] (header)
    records an error on the coordinator; it is "reported as a generic error
    on the coordinator" and the migration stays in the state it is in. *)
Definition ReportError (err : GenericError) (w : World) : World :=
  emit (EvReportError err) w.

(** Modelled from the spec: [IncomingSlotMigration::ReportFatalError]
    (header) records the error on the coordinator, "forcing C_FATAL". *)
Definition ReportFatalError (err : GenericError) (w : World) : World :=
  emit (EvReportFatalError err) (set_state C_FATAL w).

(** [cntx->ReportError(err)] on the shared context. *)
Definition cntx_ReportError (err : GenericError) (w : World) : World :=
  emit (EvCntxReportError err)
       (set_cntx (ExecutionState.ReportError err (cntx_ w)) w).

End Header.

(** ** ClusterShardMigration *)

Module ClusterShardMigration.
Section Members.
Context `{!ExecutionState.Ops, !JournalExecutor.Ops, !cluster.Ops}.

(** [bc_->Dec()] and [bc_->Add()], called by the flow of [shard]. *)
Definition Dec (shard : nat) (w : World) : World :=
  emit (EvLatchDec shard) (set_bc (bc_ w - 1) w).

Definition Add (shard : nat) (w : World) : World :=
  emit (EvLatchAdd shard) (set_bc (bc_ w + 1) w).

Definition Pause (shard : nat) (pause : bool) (w : World) : World :=
  upd_flow shard (set_pause pause) w.

Definition GetLastAttempt (f : Flow) : Z := last_attempt_ f.

(** Modelled from the spec: [TransactionReader::NextTxData] (tx_executor.cc)
    gives the next transaction of the stream or nothing; when the stream
    ends with a read error it is surfaced through the context.  The reader
    reads the socket [Start] was given, which is [socket_] for as long as
    [Start] runs. *)
Definition NextTxData (shard : nat) (w : World)
  : option TransactionData * World :=
  match shard_flows_ w !! shard with
  | Some f =>
      match socket_ f with
      | Some s =>
          let w1 := upd_flow shard (set_socket (Some (pop_incoming s))) w in
          match incoming s with
          | RdTx tx :: _ => (Some tx, w1)
          | RdNone (Some err) :: _ => (None, cntx_ReportError err w1)
          | RdNone None :: _ => (None, w1)
          | [] => (None, w)
          end
      | None => (None, w)
      end
  | None => (None, w)
  end.

(** [cmd_args[0]] of a command; the source indexes the vector unchecked, the
    model reads a missing name as the empty text. *)
Definition arg0 (cmd : CmdData) : string := default "" (head (cmd_args cmd)).

Definition ExecuteTx (shard : nat) (tx_data : TransactionData) (w : World)
  : error_code * World :=
  if negb (ExecutionState.IsRunning (cntx_ w)) then (0%Z, w)
  else if negb (cluster.IsGlobalCmd tx_data) then
    let '(ec, service) :=
      JournalExecutor.Execute (dbid tx_data) (command tx_data) (service_ w) in
    (ec, emit (EvExecute shard (dbid tx_data) (command tx_data) ec)
              (set_service service w))
  else
    let error := "We don't support command: " +:+ arg0 (command tx_data)
                 +:+ " in cluster migration process." in
    (0%Z, ReportError error (cntx_ReportError error (LOG ERROR error w))).

(** The [absl::Cleanup] of [Start]: [socket_ = nullptr], and the fiber is
    out of [Start]. *)
Definition cleanup (shard : nat) (w : World) : World :=
  upd_flow shard leave_flow w.

(** Leaving the outer loop: the last two statements of [Start]. *)
Definition exit_loop (shard : nat) (w : World) : World :=
  cleanup shard (Dec shard w).

(** What [Start] does with a transaction it holds when it tests
    [while (tx_data->opcode == journal::Op::LSN)]: an LSN marker starts an
    attempt (store, decrement, read again); anything else leaves the inner
    loop and is a PING or is executed. *)
Definition on_tx (shard : nat) (tx_data : TransactionData) (w : World)
  : World :=
  match opcode tx_data with
  | journal.LSN =>
      upd_flow shard (set_pc PcAttempt)
        (Dec shard
           (upd_flow shard (store_attempt (to_long (lsn tx_data))) w))
  | journal.PING => upd_flow shard (set_pc PcLoop) w
  | _ =>
      let '(err, w1) := ExecuteTx shard tx_data w in
      if (err =? not_enough_memory)%Z then
        exit_loop shard
          (ReportFatalError cluster.kIncomingMigrationOOM
             (cntx_ReportError cluster.kIncomingMigrationOOM w1))
      else upd_flow shard (set_pc PcLoop) w1
  end.

(** One run of the fiber inside [Start], from one blocking call to the
    next. *)
Definition step (shard : nat) (w : World) : World :=
  match shard_flows_ w !! shard with
  | None => w
  | Some f =>
      match pc f with
      | PcIdle => w
      | PcLoop =>
          if negb (ExecutionState.IsRunning (cntx_ w)) then exit_loop shard w
          else if pause_ f then emit (EvSleep shard 100) w
          else upd_flow shard (set_pc PcRead) w
      | PcRead =>
          match NextTxData shard w with
          | (None, w1) =>
              exit_loop shard
                match ExecutionState.GetError (cntx_ w1) with
                | Some err =>
                    LOG WARNING
                      ("Error reading from migration socket for shard "
                       +:+ pretty (source_shard_id_ f) +:+ ": " +:+ err
                       +:+ ", socket state: "
                       +:+ from_option sock_info "" (socket_ f)) w1
                | None => w1
                end
          | (Some tx_data, w1) => on_tx shard tx_data w1
          end
      | PcAttempt =>
          match NextTxData shard w with
          | (None, w1) => cleanup shard w1
          | (Some tx_data, w1) =>
              if decide (GetState w1 = C_FATAL) then cleanup shard w1
              else on_tx shard tx_data (Add shard w1)
          end
      end
  end.

(** The locked prologue of [Start]. *)
Definition enter (shard : nat) (source : FiberSocket) (w : World) : World :=
  match shard_flows_ w !! shard with
  | Some f =>
      if is_finished_ f then w else upd_flow shard (begin_flow source) w
  | None => w
  end.

(** The fiber of [shard] run on its own until it is out of [Start]. *)
Fixpoint run (fuel : nat) (shard : nat) (w : World) : option () * World :=
  match shard_flows_ w !! shard with
  | Some f =>
      match pc f, fuel with
      | PcIdle, _ => (Some (), w)
      | _, O => (None, w)
      | _, S fuel' => run fuel' shard (step shard w)
      end
  | None => (Some (), w)
  end.

(** [Start(cntx, source)] with no other fiber running in between; [None]
    when [fuel] steps did not bring it to its end. *)
Definition Start (fuel : nat) (shard : nat) (source : FiberSocket) (w : World)
  : option () * World :=
  match shard_flows_ w !! shard with
  | Some f =>
      if is_finished_ f then (Some (), w)
      else run fuel shard (enter shard source w)
  | None => (Some (), w)
  end.

Definition Cancel (shard : nat) (w : World) : error_code * World :=
  match shard_flows_ w !! shard with
  | None => (0%Z, w)
  | Some f =>
      match socket_ f with
      | Some s =>
          if sock_open s then
            let ec := shutdown_result s in
            let w1 := emit (EvShutdown shard ec)
                        (upd_flow shard (set_socket (Some (Shutdown s))) w) in
            (ec,
             if (ec =? 0)%Z then w1
             else LOG WARNING
                    ("Error shutting down socket for shard migration: "
                     +:+ pretty ec +:+ ", socket state: " +:+ sock_info s) w1)
          else (0%Z, w)
      | None =>
          if is_finished_ f then (0%Z, w)
          else (0%Z, Dec shard (upd_flow shard finish_flow w))
      end
  end.

End Members.
End ClusterShardMigration.

(** ** IncomingSlotMigration *)

(** What another fiber may do while [Join] or [Stop] is blocked on the
    latch. *)
Inductive FiberAct :=
| FlowEnters (shard : nat) (source : FiberSocket)  (* Start is called *)
| FlowRuns (shard : nat)                           (* a flow runs one step *)
| Pauses (pause : bool).                           (* Pause is called *)

(** What happens during one call of [WaitFor]: the steps other fibers take
    before the call returns, and the wall-clock time it takes. *)
Record WaitEnv := {
  others : list FiberAct;
  elapsed : Duration;
}.

Module IncomingSlotMigration.
Section Members.
Context `{!ExecutionState.Ops, !JournalExecutor.Ops, !cluster.Ops}.

Definition Pause (pause : bool) (w : World) : World :=
  foldl (λ w shard, ClusterShardMigration.Pause shard pause w) w
        (seq 0 (length (shard_flows_ w))).

Definition act (a : FiberAct) (w : World) : World :=
  match a with
  | FlowEnters shard source => ClusterShardMigration.enter shard source w
  | FlowRuns shard => ClusterShardMigration.step shard w
  | Pauses pause => Pause pause w
  end.

(** The other fibers run until the count is zero, which wakes the waiter,
    or until they have nothing more to do before the wait times out. *)
Fixpoint until_zero (acts : list FiberAct) (w : World) : bool * World :=
  if (bc_ w =? 0)%Z then (true, w)
  else match acts with
       | [] => (false, w)
       | a :: acts' => until_zero acts' (act a w)
       end.

(** [bc_->WaitFor(ms * 1ms)]: true when the count was seen at zero. *)
Definition WaitFor (ms : Z) (env : WaitEnv) (w : World) : bool * World :=
  let '(res, w1) := until_zero (others env) w in
  (res, emit (EvLatchWait ms res) (set_Now (Now w1 + elapsed env)%Z w1)).

(** One pass through the body of [while (true)] in [Join]; [start] is the
    time [Join] was entered.  [Some b] is [return b], [None] goes round
    again. *)
Definition Join_iteration (attempt : Z) (start : Z) (env : WaitEnv)
    (w : World) : option bool * World :=
  let timeout := Milliseconds (FLAGS_migration_finalization_timeout_ms w) in
  let now := Now w in
  let passed := (now - start)%Z in
  if (timeout <=? passed)%Z then
    (Some false,
     ReportError "Can't join migration in time"
       (LOG WARNING ("Can't join migration in time for " +:+ source_id_ w) w))
  else if decide (GetState w = C_FATAL) then (Some false, w)
  else
    let remaining_time := ToInt64Milliseconds (timeout - passed)%Z in
    let wait_time :=
      if (100 <? remaining_time)%Z then 100%Z else remaining_time in
    let is_attempt_correct :=
      forallb (λ flow,
                 (ClusterShardMigration.GetLastAttempt flow =? attempt)%Z)
              (shard_flows_ w) in
    let '(wait_res, w1) := WaitFor wait_time env w in
    if is_attempt_correct then
      if wait_res then
        (Some true,
         set_keys (cluster.GetKeyCount (slots_ w1) (service_ w1))
                  (set_state C_FINISHED w1))
      else
        (Some false,
         ReportError "Can't join migration in time"
           (LOG WARNING
              ("Can't join migration because of data after LSN for "
               +:+ source_id_ w1) w1))
    else (None, w1).

Fixpoint Join_loop (attempt : Z) (start : Z) (script : list WaitEnv)
    (w : World) : option bool * World :=
  match script with
  | [] => (None, w)
  | env :: script' =>
      match Join_iteration attempt start env w with
      | (Some res, w1) => (Some res, w1)
      | (None, w1) => Join_loop attempt start script' w1
      end
  end.

(** [Join(attempt)]; the script gives one [WaitEnv] to each iteration, and
    the result is [None] when the script ends before [Join] returns. *)
Definition Join (attempt : Z) (script : list WaitEnv) (w : World)
  : option bool * World :=
  Join_loop attempt (Now w) script w.

(** The first half of [Stop]: the log line, [cntx_.Cancel()], and [Cancel]
    on every flow. *)
Definition cancel_flows (w : World) : World :=
  foldl (λ w shard, (ClusterShardMigration.Cancel shard w).2) w
        (seq 0 (length (shard_flows_ w))).

Definition Stop_cancel (w : World) : World :=
  let log_state :=
    if decide (state_ w = C_FINISHED) then "Finishing" else "Cancelling" in
  let w1 := LOG INFO (log_state +:+ " incoming migration of slots "
                      +:+ cluster.ToString (slots_ w)) w in
  let w2 := emit EvCntxCancel
              (set_cntx (ExecutionState.Cancel (cntx_ w1)) w1) in
  cancel_flows w2.

(** One pass through the body of [while (true)] in [Stop]. *)
Definition Stop_iteration (start : Z) (env : WaitEnv) (w : World)
  : option () * World :=
  let timeout := Milliseconds (FLAGS_migration_finalization_timeout_ms w) in
  let now := Now w in
  let passed := (now - start)%Z in
  let '(wait_res, w1) :=
    WaitFor (ToInt64Milliseconds (timeout - passed)%Z) env w in
  if wait_res then (Some (), w1)
  else if (timeout <=? passed)%Z then
    (Some (), LOG ERROR "Can't stop migration in time" w1)
  else (None, w1).

Fixpoint Stop_loop (start : Z) (script : list WaitEnv) (w : World)
  : option () * World :=
  match script with
  | [] => (None, w)
  | env :: script' =>
      match Stop_iteration start env w with
      | (Some _, w1) => (Some (), w1)
      | (None, w1) => Stop_loop start script' w1
      end
  end.

Definition Stop (script : list WaitEnv) (w : World) : option () * World :=
  let w1 := Stop_cancel w in
  if decide (state_ w1 = C_FATAL) then (Some (), w1)
  else Stop_loop (Now w1) script w1.

(** A flow as the constructor of [ClusterShardMigration] leaves it. *)
Definition new_flow (shard_id : nat) : Flow :=
  {| source_shard_id_ := shard_id; is_finished_ := false; socket_ := None;
     last_attempt_ := (-1)%Z; pause_ := false; pc := PcIdle |}.

(** [Init] makes a new latch and new flows; the trace starts again with
    them. *)
Definition Init (shards_num : nat) (w : World) : World :=
  set_trace []
    (set_flows (new_flow <$> seq 0 shards_num)
       (set_bc (Z.of_nat shards_num)
          (set_state C_SYNC
             (set_cntx (ExecutionState.Reset (cntx_ w)) w)))).

Definition StartFlow (fuel : nat) (shard : nat) (source : FiberSocket)
    (script : list WaitEnv) (w : World) : option () * World :=
  match ClusterShardMigration.Start fuel shard source w with
  | (Some _, w1) =>
      if decide (GetState w1 = C_FATAL) then Stop script w1
      else (Some (), w1)
  | (None, w1) => (None, w1)
  end.

(** The rest of [StartFlow] once [Start] has returned to it: the test of
    the state and the call of [Stop].  Other fibers may have run since the
    flow left its loop. *)
Definition StartFlow_return (script : list WaitEnv) (w : World)
  : option () * World :=
  if decide (GetState w = C_FATAL) then Stop script w else (Some (), w).

Definition GetKeyCount (w : World) : nat :=
  if decide (state_ w = C_FINISHED) then keys_number_ w
  else cluster.GetKeyCount (slots_ w) (service_ w).

End Members.
End IncomingSlotMigration.

(** ** Histories

    What the fibers of one migration may do, in any order. *)
Inductive Action :=
| Fiber (a : FiberAct)
| CallCancel (shard : nat)                        (* a flow's Cancel *)
| CallJoin (attempt : Z) (script : list WaitEnv)
| CallStop (script : list WaitEnv)
| Tick (d : Duration).                            (* time passes *)

Section Histories.
Context `{!ExecutionState.Ops, !JournalExecutor.Ops, !cluster.Ops}.

Definition perform (a : Action) (w : World) : World :=
  match a with
  | Fiber a => IncomingSlotMigration.act a w
  | CallCancel shard => (ClusterShardMigration.Cancel shard w).2
  | CallJoin attempt script => (IncomingSlotMigration.Join attempt script w).2
  | CallStop script => (IncomingSlotMigration.Stop script w).2
  | Tick d => set_Now (Now w + d)%Z w
  end.

Definition history (acts : list Action) (w : World) : World :=
  foldl (λ w a, perform a w) w acts.

(** How often the flow of [shard] has decremented the latch, less how often
    it has incremented it again. *)
Definition latch_delta (shard : nat) (e : Event) : Z :=
  match e with
  | EvLatchDec s => if decide (s = shard) then 1%Z else 0%Z
  | EvLatchAdd s => if decide (s = shard) then (-1)%Z else 0%Z
  | _ => 0%Z
  end.

Definition net_decrements (shard : nat) (tr : list Event) : Z :=
  foldr (λ e n, latch_delta shard e + n)%Z 0%Z tr.

(** The durations of the latch waits in a trace, in order. *)
Definition waits (tr : list Event) : list Z :=
  omap (λ e, match e with EvLatchWait ms _ => Some ms | _ => None end) tr.

End Histories.

(** ** The vocabulary of the statements *)
Section Vocabulary.
Context `{!ExecutionState.Ops, !JournalExecutor.Ops, !cluster.Ops}.

(** [w'] has the clock, the flag, the source id and the number of flows of
    [w], and no latch wait that [w] has not. *)
Definition same_frame (w w' : World) : Prop :=
  Now w' = Now w
  ∧ FLAGS_migration_finalization_timeout_ms w'
    = FLAGS_migration_finalization_timeout_ms w
  ∧ source_id_ w' = source_id_ w
  ∧ length (shard_flows_ w') = length (shard_flows_ w)
  ∧ waits (trace w') = waits (trace w).

(** What [Cancel] leaves of a flow: one with a socket has had an open
    socket shut down, one without is marked finished. *)
Definition flow_cancelled (f : Flow) : Prop :=
  match socket_ f with
  | Some s => sock_open s = true → sock_shut s = true
  | None => is_finished_ f = true
  end.

(** The wall-clock time a script of waits takes. *)
Definition total_elapsed (script : list WaitEnv) : Duration :=
  foldr (λ env d, elapsed env + d)%Z 0%Z script.

(** What a flow owes the latch where it stands: one decrement once it is
    out of [Start] (or was cancelled before it started) and while an attempt
    is pending, none before it has started and while it is draining. *)
Definition owes (f : Flow) : Z :=
  match pc f with
  | PcAttempt => 1%Z
  | PcLoop | PcRead => 0%Z
  | PcIdle => if is_finished_ f then 1%Z else 0%Z
  end.

(** The latch accounts of one flow are in order: it has decremented the
    latch as often as it owes, and while a fiber is inside [Start] the flow
    is marked finished and holds its socket. *)
Definition accounted (shard : nat) (w : World) : Prop :=
  ∀ f, shard_flows_ w !! shard = Some f →
    net_decrements shard (trace w) = owes f
    ∧ (pc f ≠ PcIdle → is_finished_ f = true ∧ is_Some (socket_ f)).

Definition all_accounted (w : World) : Prop := ∀ shard, accounted shard w.

(** [w'] differs from [w] in nothing the accounts of [shard] look at. *)
Definition same_account (shard : nat) (w w' : World) : Prop :=
  shard_flows_ w' !! shard = shard_flows_ w !! shard
  ∧ net_decrements shard (trace w') = net_decrements shard (trace w).

(** The flow of [shard] is inside [Start] with [net] decrements to its
    name. *)
Definition inside (shard : nat) (net : Z) (w : World) : Prop :=
  ∃ f, shard_flows_ w !! shard = Some f
    ∧ is_finished_ f = true
    ∧ is_Some (socket_ f)
    ∧ net_decrements shard (trace w) = net.

(** An executor call of [shard] that was answered [not_enough_memory]. *)
Definition is_oom (shard : nat) (e : Event) : bool :=
  match e with
  | EvExecute s _ _ ec =>
      bool_decide (s = shard) && (ec =? not_enough_memory)%Z
  | _ => false
  end.

Definition oom_free (shard : nat) (evs : list Event) : Prop :=
  Forall (λ e, is_oom shard e = false) evs.

(** What the flow leaves in the trace when the executor has answered
    [not_enough_memory]: the call, the two reports, and the decrement that
    follows the loop. *)
Definition oom_tail (shard : nat) (db : DbIndex) (cmd : CmdData)
  : list Event :=
  [EvExecute shard db cmd not_enough_memory;
   EvCntxReportError cluster.kIncomingMigrationOOM;
   EvReportFatalError cluster.kIncomingMigrationOOM;
   EvLatchDec shard].

(** The flow of [shard] is out of [Start]. *)
Definition out_of_Start (shard : nat) (w : World) : Prop :=
  ∀ f, shard_flows_ w !! shard = Some f → pc f = PcIdle.

(** How a piece of a flow's run went: without an out-of-memory answer, or
    with one at its end, and then the migration is in [C_FATAL], the error
    is on the context and the flow is out of [Start]. *)
Definition oom_outcome (shard : nat) (evs : list Event) (w' : World) : Prop :=
  oom_free shard evs
  ∨ ∃ before db cmd c,
      evs = before ++ oom_tail shard db cmd
      ∧ oom_free shard before
      ∧ state_ w' = C_FATAL
      ∧ cntx_ w' = ExecutionState.ReportError cluster.kIncomingMigrationOOM c
      ∧ out_of_Start shard w'.

(** The runs a flow still needs, at most, to leave [Start] when it is not
    paused: two for each result left on its stream (one to test the loop,
    one to read), and those of the place it stands at. *)
Definition steps_left (f : Flow) : nat :=
  let unread := length (from_option incoming [] (socket_ f)) in
  match pc f with
  | PcIdle => 0
  | PcLoop => 2 * unread + 2
  | PcRead | PcAttempt => 2 * unread + 1
  end.

(** What the flows owe the latch together, and the latch with it: the count
    the latch was made with, if every decrement is owed. *)
Definition latch_debt (flows : list Flow) : Z :=
  foldr (λ f d, owes f + d)%Z 0%Z flows.

Definition latch_ledger (w : World) : Z :=
  (bc_ w + latch_debt (shard_flows_ w))%Z.

(** [w'] has as many flows as [w], and its ledger. *)
Definition same_ledger (w w' : World) : Prop :=
  length (shard_flows_ w') = length (shard_flows_ w)
  ∧ latch_ledger w' = latch_ledger w.

(** The commands the flow of [shard] has handed to the executor, in
    order. *)
Definition executed (shard : nat) (tr : list Event)
  : list (DbIndex * CmdData) :=
  omap (λ e, match e with
             | EvExecute s db cmd _ =>
                 if decide (s = shard) then Some (db, cmd) else None
             | _ => None
             end) tr.

(** A transaction the flow hands to [ExecuteTx]: neither an LSN marker nor
    a PING. *)
Definition is_data (tx : TransactionData) : bool :=
  match opcode tx with
  | journal.LSN | journal.PING => false
  | _ => true
  end.

Definition payload (txs : list TransactionData) : list (DbIndex * CmdData) :=
  (λ tx, (dbid tx, command tx)) <$> filter (λ tx, is_data tx = true) txs.

(** The service after the executor has been given the data of [txs], in
    order. *)
Definition apply_all (txs : list TransactionData)
    (s : JournalExecutor.Service) : JournalExecutor.Service :=
  foldl (λ s tx, if is_data tx
                 then (JournalExecutor.Execute (dbid tx) (command tx) s).2
                 else s) s txs.

(** The attempt a flow has stored when it has read [txs]: the LSN of the
    last marker among them, or what it had. *)
Definition last_marker (txs : list TransactionData) (a : Z) : Z :=
  foldl (λ a tx, if decide (opcode tx = journal.LSN)
                 then to_long (lsn tx) else a) a txs.

(** A stream the flow reads without incident from a service [s]: none of
    its data is a global command, and the executor, given the data in
    order, never answers [not_enough_memory]. *)
Fixpoint clean (txs : list TransactionData) (s : JournalExecutor.Service)
  : bool :=
  match txs with
  | [] => true
  | tx :: rest =>
      if is_data tx then
        let r := JournalExecutor.Execute (dbid tx) (command tx) s in
        negb (cluster.IsGlobalCmd tx)
        && negb (r.1 =? not_enough_memory)%Z
        && clean rest r.2
      else clean rest s
  end.

(** What ends the reading of a stream: its end, or a read that gives
    nothing; and the error such a read may put on the context. *)
Definition stops (ending : list ReadResult) : bool :=
  match ending with
  | RdTx _ :: _ => false
  | _ => true
  end.

Definition read_error (ending : list ReadResult) : option GenericError :=
  match ending with
  | RdNone (Some err) :: _ => Some err
  | _ => None
  end.

(** The flow of [shard] is inside [Start] at [p], not paused, with
    [stream] still to be read and [a] as its stored attempt. *)
Definition reading (shard : nat) (p : FlowPc) (stream : list ReadResult)
    (a : Z) (w : World) : Prop :=
  ∃ f s, shard_flows_ w !! shard = Some f
    ∧ socket_ f = Some s
    ∧ incoming s = stream
    ∧ is_finished_ f = true
    ∧ pause_ f = false
    ∧ last_attempt_ f = a
    ∧ pc f = p.

(** The flow of [shard] is out of [Start], which it has run, with [a] as its
    stored attempt. *)
Definition has_left (shard : nat) (a : Z) (w : World) : Prop :=
  ∃ f, shard_flows_ w !! shard = Some f
    ∧ socket_ f = None
    ∧ is_finished_ f = true
    ∧ last_attempt_ f = a
    ∧ pc f = PcIdle.

(** From [w] to [w1] the flow of [shard] has executed the data of [txs] and
    moved the latch by [moved]; the state, the other flows and what they
    have executed are as they were. *)
Definition progress (shard : nat) (txs : list TransactionData) (moved : Z)
    (w w1 : World) : Prop :=
  executed shard (trace w1) = executed shard (trace w) ++ payload txs
  ∧ service_ w1 = apply_all txs (service_ w)
  ∧ state_ w1 = state_ w
  ∧ bc_ w1 = (bc_ w + moved)%Z
  ∧ (∀ i, i ≠ shard → shard_flows_ w1 !! i = shard_flows_ w !! i)
  ∧ ∀ i, i ≠ shard → executed i (trace w1) = executed i (trace w).

(** The context after a stream has been read to its [ending]. *)
Definition after_reading (ending : list ReadResult) (c : ExecutionState.t)
  : ExecutionState.t :=
  from_option (λ err, ExecutionState.ReportError err c) c (read_error ending).

(** From [p], a flow that is not disturbed reads [txs] and what ends the
    stream, and leaves [Start]: it has executed the data of [txs] in order
    and stored the last marker; the latch has its one decrement (which a
    flow at [PcAttempt] has made already). *)
Definition reads_out (shard : nat) (ending : list ReadResult) (p : FlowPc)
    (txs : list TransactionData) : Prop :=
  ∀ fuel a (w : World),
    reading shard p ((RdTx <$> txs) ++ ending) a w →
    ExecutionState.IsRunning (cntx_ w) = true →
    state_ w ≠ C_FATAL →
    clean txs (service_ w) = true →
    2 * length txs + (if decide (p = PcLoop) then 2 else 1) ≤ fuel →
    ∃ w', ClusterShardMigration.run fuel shard w = (Some (), w')
      ∧ has_left shard (last_marker txs a) w'
      ∧ progress shard txs (if decide (p = PcAttempt) then 0 else -1) w w'
      ∧ cntx_ w' = after_reading ending (cntx_ w).

(** What may become of a flow while a migration runs: it keeps its shard
    id, a flow that is finished stays finished, and a flow that holds a
    socket held one before or is finished. *)
Definition flow_moves (f f' : Flow) : Prop :=
  source_shard_id_ f' = source_shard_id_ f
  ∧ (is_finished_ f = true → is_finished_ f' = true)
  ∧ (is_Some (socket_ f') → is_Some (socket_ f) ∨ is_finished_ f' = true).

Definition flows_move (w w' : World) : Prop :=
  ∀ i f', shard_flows_ w' !! i = Some f' →
    ∃ f, shard_flows_ w !! i = Some f ∧ flow_moves f f'.

(** How the migration state may move without [Init]: not at all, to
    [C_FATAL], or from a state other than [C_FATAL] to [C_FINISHED]. *)
Definition state_moves (w w' : World) : Prop :=
  state_ w' = state_ w
  ∨ state_ w' = C_FATAL
  ∨ (state_ w ≠ C_FATAL ∧ state_ w' = C_FINISHED).

(** What the flows, [Pause], [Cancel], [Stop] and a [Join] that does not
    accept do to the migration: they add to the trace, and the state is the
    one it was unless a flow has made its fatal report meanwhile. *)
Definition kept_unless_fatal (w w' : World) : Prop :=
  ∃ evs,
    trace w' = trace w ++ evs
    ∧ (state_ w' = state_ w
       ∨ (state_ w' = C_FATAL
          ∧ EvReportFatalError cluster.kIncomingMigrationOOM ∈ evs)).

(** The flows from [shard] on are started one after the other, each by
    [StartFlow] on its own socket, and each runs to its end before the next
    one starts. *)
Fixpoint start_from (fuel : nat) (shard : nat) (sources : list FiberSocket)
    (w : World) : World :=
  match sources with
  | [] => w
  | source :: rest =>
      start_from fuel (S shard) rest
        (IncomingSlotMigration.StartFlow fuel shard source [] w).2
  end.

(** The flow of [shard] is as [Init] made it, or paused and resumed
    since. *)
Definition unstarted (shard : nat) (w : World) : Prop :=
  ∃ f, shard_flows_ w !! shard = Some f
    ∧ is_finished_ f = false
    ∧ pause_ f = false
    ∧ last_attempt_ f = (-1)%Z.

End Vocabulary.

(** ** Stand-ins for the collaborators

    Concrete collaborators on which the code can be run: they give the
    examples below something to compute with. *)
Module Reference.

(** Modelled from the spec: the execution context is "an explicit value
    carrying is_running() and an error slot".  The first error reported is
    the one kept; a reported error, like [Cancel], stops the context, which
    the flows check at their loop boundaries. *)
Record Cntx := {
  running : bool;
  error : option GenericError;
}.

Definition report (err : GenericError) (c : Cntx) : Cntx :=
  match error c with
  | Some _ => c
  | None => {| running := false; error := Some err |}
  end.

#[export] Instance cntx_ops : ExecutionState.Ops := {|
  ExecutionState.t := Cntx;
  ExecutionState.IsRunning := running;
  ExecutionState.ReportError := report;
  ExecutionState.GetError := error;
  ExecutionState.Cancel c := {| running := false; error := error c |};
  ExecutionState.Reset _ := {| running := true; error := None |};
|}.

(** A small service: it keeps the commands it applied and has room for
    [capacity] of them.  SET is applied while there is room and answers
    [not_enough_memory] when there is none; it knows no other command and
    answers [EINVAL] (22) to them. *)
Record Store := {
  applied : list CmdData;
  capacity : nat;
}.

Definition store_execute (db : DbIndex) (cmd : CmdData) (s : Store)
  : error_code * Store :=
  match cmd_args cmd with
  | name :: _ =>
      if String.eqb name "SET" then
        if (length (applied s) <? capacity s)%nat then
          (0%Z, {| applied := applied s ++ [cmd]; capacity := capacity s |})
        else (not_enough_memory, s)
      else (22%Z, s)
  | [] => (22%Z, s)
  end.

#[export] Instance executor_ops : JournalExecutor.Ops := {|
  JournalExecutor.Service := Store;
  JournalExecutor.Execute := store_execute;
|}.

Definition is_flush (tx : TransactionData) : bool :=
  match cmd_args (command tx) with
  | name :: _ => String.eqb name "FLUSHALL" || String.eqb name "FLUSHDB"
  | [] => false
  end.

#[export] Instance cluster_ops : cluster.Ops := {|
  cluster.SlotRanges := list (nat * nat);
  cluster.ToString _ := "[0, 99]";
  cluster.GetKeyCount _ s := length (applied s);
  cluster.IsGlobalCmd := is_flush;
  cluster.kIncomingMigrationOOM := "Out of memory";
|}.

(** A migration object before [Init], with a finalization timeout of 30
    seconds and a service with room for [room] commands. *)
Definition fresh (room : nat) : World :=
  {| source_id_ := "node-a"; slots_ := [(0, 99)%nat];
     cntx_ := {| running := true; error := None |};
     state_ := C_CONNECTING; keys_number_ := 0; bc_ := 0%Z;
     shard_flows_ := [];
     service_ := {| applied := []; capacity := room |};
     FLAGS_migration_finalization_timeout_ms := 30000%Z;
     Now := 0%Z; trace := [] |}.

(** An open socket with the given transactions to be read. *)
Definition socket_with (stream : list ReadResult) : FiberSocket :=
  {| sock_open := true; sock_shut := false; shutdown_result := 0%Z;
     sock_info := "fd 7"; incoming := stream |}.

Definition cmd (args : list string) : TransactionData :=
  {| txid := 0%Z; opcode := journal.COMMAND; dbid := 0; lsn := 0%Z;
     command := {| cmd_args := args |} |}.

Definition lsn_marker (target : Z) : TransactionData :=
  {| txid := 0%Z; opcode := journal.LSN; dbid := 0; lsn := target;
     command := {| cmd_args := [] |} |}.

(** A wait during which nothing else runs and [d] nanoseconds pass. *)
Definition quiet (d : Duration) : WaitEnv := {| others := []; elapsed := d |}.

End Reference.

(** * Properties *)

(** ** Reading the world after an update *)
Section Projections.
Context `{!ExecutionState.Ops, !JournalExecutor.Ops, !cluster.Ops}.

Lemma lookup_upd_flow i g (w : World) :
  shard_flows_ (upd_flow i g w) !! i = g <$> shard_flows_ w !! i.
Proof. apply list_lookup_alter_eq. Qed.

End Projections.

(** ** ExecuteTx *)
Section ExecuteTx_facts.
Context `{!ExecutionState.Ops, !JournalExecutor.Ops, !cluster.Ops}.

(** C10: when the execution context is not running, [ExecuteTx] returns the
    empty error code and leaves the world as it found it: the executor is
    not called, and nothing is reported or logged (the trace and the service
    are those of [w]). *)
Theorem ExecuteTx_not_running shard tx_data (w : World) :
  ExecutionState.IsRunning (cntx_ w) = false →
  ClusterShardMigration.ExecuteTx shard tx_data w = (0%Z, w).
Proof.
  intros Hstopped. unfold ClusterShardMigration.ExecuteTx.
  by rewrite Hstopped.
Qed.

(** C8, as the code has it: while the execution context is running, a
    global command is not handed to the executor; [ExecuteTx] logs and
    reports "We don't support command: <name> in cluster migration process."
    on the flow's context and on the coordinator, leaves the migration state
    and the service alone, and returns the empty error code. *)
Theorem ExecuteTx_global_cmd shard tx_data name rest (w : World) :
  ExecutionState.IsRunning (cntx_ w) = true →
  cluster.IsGlobalCmd tx_data = true →
  cmd_args (command tx_data) = name :: rest →
  let error := "We don't support command: " +:+ name
               +:+ " in cluster migration process." in
  ∃ w', ClusterShardMigration.ExecuteTx shard tx_data w = (0%Z, w')
    ∧ trace w' = trace w ++ [EvLog ERROR error; EvCntxReportError error;
                             EvReportError error]
    ∧ cntx_ w' = ExecutionState.ReportError error (cntx_ w)
    ∧ state_ w' = state_ w
    ∧ service_ w' = service_ w.
Proof.
  intros Hrun Hglobal Hargs error.
  unfold ClusterShardMigration.ExecuteTx, ClusterShardMigration.arg0.
  rewrite Hrun, Hglobal, Hargs. simpl.
  eexists. split; [reflexivity|].
  simpl. rewrite <- !app_assoc. done.
Qed.

(** What [on_tx] does with a transaction that is neither an LSN marker nor
    a PING. *)
Lemma on_tx_data shard tx_data (w : World) :
  opcode tx_data ≠ journal.LSN →
  opcode tx_data ≠ journal.PING →
  ClusterShardMigration.on_tx shard tx_data w =
    let '(err, w1) := ClusterShardMigration.ExecuteTx shard tx_data w in
    if (err =? not_enough_memory)%Z then
      ClusterShardMigration.exit_loop shard
        (ReportFatalError cluster.kIncomingMigrationOOM
           (cntx_ReportError cluster.kIncomingMigrationOOM w1))
    else upd_flow shard (set_pc PcLoop) w1.
Proof.
  intros Hlsn Hping. unfold ClusterShardMigration.on_tx.
  by destruct (opcode tx_data).
Qed.

Lemma ExecuteTx_executes shard tx_data (w : World) :
  ExecutionState.IsRunning (cntx_ w) = true →
  cluster.IsGlobalCmd tx_data = false →
  ClusterShardMigration.ExecuteTx shard tx_data w =
    let r := JournalExecutor.Execute (dbid tx_data) (command tx_data)
               (service_ w) in
    (r.1, emit (EvExecute shard (dbid tx_data) (command tx_data) r.1)
               (set_service r.2 w)).
Proof.
  intros Hrun Hglobal. unfold ClusterShardMigration.ExecuteTx.
  rewrite Hrun, Hglobal. simpl. by destruct (JournalExecutor.Execute _ _ _).
Qed.

(** C4, as the code has it: when the executor answers a transaction with an
    error code other than [not_enough_memory], the flow drops the code: the
    only new entry of the trace is the executor call itself, so nothing is
    reported on the execution context or on the coordinator; the context and
    the migration state are unchanged, and the flow goes back to the head of
    its loop. *)
Theorem executor_error_dropped shard tx_data ec service f (w : World) :
  opcode tx_data ≠ journal.LSN →
  opcode tx_data ≠ journal.PING →
  ExecutionState.IsRunning (cntx_ w) = true →
  cluster.IsGlobalCmd tx_data = false →
  JournalExecutor.Execute (dbid tx_data) (command tx_data) (service_ w)
    = (ec, service) →
  ec ≠ not_enough_memory →
  shard_flows_ w !! shard = Some f →
  let w' := ClusterShardMigration.on_tx shard tx_data w in
  trace w' = trace w ++ [EvExecute shard (dbid tx_data) (command tx_data) ec]
  ∧ cntx_ w' = cntx_ w
  ∧ state_ w' = state_ w
  ∧ shard_flows_ w' !! shard = Some (set_pc PcLoop f).
Proof.
  intros Hlsn Hping Hrun Hglobal Hexec Hec Hf w'. subst w'.
  rewrite on_tx_data, ExecuteTx_executes by done.
  rewrite Hexec. simpl.
  destruct (Z.eqb_spec ec not_enough_memory) as [|_]; [done|].
  repeat split. rewrite lookup_upd_flow. simpl. by rewrite Hf.
Qed.

End ExecuteTx_facts.

(** The examples below run on the stand-ins. *)
Import Reference.

(** C10 on the stand-ins: the context of a migration that [Stop] has
    cancelled is not running, and a SET is then skipped. *)
Lemma ExecuteTx_not_running_witness :
  let w := IncomingSlotMigration.Stop_cancel
             (IncomingSlotMigration.Init 1 (fresh 1)) in
  ExecutionState.IsRunning (cntx_ w) = false
  ∧ ClusterShardMigration.ExecuteTx 0 (cmd ["SET"; "a"; "1"]) w = (0%Z, w).
Proof.
  intros w. split; [by vm_compute|].
  apply (ExecuteTx_not_running 0 _ w). by vm_compute.
Defined.

(** C8 fails as stated: with the context cancelled, a global command is
    neither executed nor reported.  Here FLUSHALL reaches [ExecuteTx] after
    [Stop] has cancelled the context: [ExecuteTx] returns with the world as
    it was, whose trace holds the three entries [Stop] made and no error
    report. *)
Lemma global_cmd_unreported_when_stopped :
  let w := IncomingSlotMigration.Stop_cancel
             (IncomingSlotMigration.Init 1 (fresh 1)) in
  let tx := cmd ["FLUSHALL"] in
  cluster.IsGlobalCmd tx = true
  ∧ ClusterShardMigration.ExecuteTx 0 tx w = (0%Z, w)
  ∧ trace w = [EvLog INFO "Cancelling incoming migration of slots [0, 99]";
               EvCntxCancel; EvLatchDec 0].
Proof. by vm_compute. Qed.

(** C8 on the stand-ins: FLUSHALL on a running context. *)
Lemma ExecuteTx_global_cmd_witness :
  let w := IncomingSlotMigration.Init 1 (fresh 1) in
  let tx := cmd ["FLUSHALL"] in
  let error :=
    "We don't support command: FLUSHALL in cluster migration process." in
  (ExecutionState.IsRunning (cntx_ w) = true
   ∧ cluster.IsGlobalCmd tx = true
   ∧ cmd_args (command tx) = ["FLUSHALL"])
  ∧ ∃ w', ClusterShardMigration.ExecuteTx 0 tx w = (0%Z, w')
      ∧ trace w' = trace w ++ [EvLog ERROR error; EvCntxReportError error;
                               EvReportError error]
      ∧ cntx_ w' = ExecutionState.ReportError error (cntx_ w)
      ∧ state_ w' = state_ w
      ∧ service_ w' = service_ w.
Proof.
  intros w tx error. split; [by vm_compute|].
  exact (ExecuteTx_global_cmd 0 tx "FLUSHALL" [] w eq_refl eq_refl eq_refl).
Defined.

(** C4 fails as stated: the executor answers BAD with [EINVAL], and the
    flow reports nothing on the execution context: after [Start] the trace
    holds the executor call and the final decrement only, the context has no
    error and is still running. *)
Lemma executor_error_not_surfaced :
  let w := (ClusterShardMigration.Start 10 0
              (socket_with [RdTx (cmd ["BAD"])])
              (IncomingSlotMigration.Init 1 (fresh 1))).2 in
  trace w = [EvExecute 0 0 {| cmd_args := ["BAD"] |} 22%Z; EvLatchDec 0]
  ∧ ExecutionState.GetError (cntx_ w) = None
  ∧ ExecutionState.IsRunning (cntx_ w) = true
  ∧ state_ w = C_SYNC.
Proof. by vm_compute. Qed.

(** C4 on the stand-ins: BAD read by the flow of shard 0. *)
Lemma executor_error_dropped_witness :
  let w := ClusterShardMigration.enter 0 (socket_with [])
             (IncomingSlotMigration.Init 1 (fresh 1)) in
  let tx := cmd ["BAD"] in
  let f := begin_flow (socket_with []) (IncomingSlotMigration.new_flow 0) in
  let w' := ClusterShardMigration.on_tx 0 tx w in
  (ExecutionState.IsRunning (cntx_ w) = true
   ∧ cluster.IsGlobalCmd tx = false
   ∧ JournalExecutor.Execute (dbid tx) (command tx) (service_ w)
     = (22%Z, service_ w)
   ∧ shard_flows_ w !! 0 = Some f)
  ∧ trace w' = trace w ++ [EvExecute 0 (dbid tx) (command tx) 22%Z]
  ∧ cntx_ w' = cntx_ w
  ∧ state_ w' = state_ w
  ∧ shard_flows_ w' !! 0 = Some (set_pc PcLoop f).
Proof.
  intros w tx f w'. split; [by vm_compute|].
  apply (executor_error_dropped 0 tx 22%Z (service_ w) f w);
    by vm_compute.
Defined.

(** ** What the other fibers leave alone *)
Section Frame.
Context `{!ExecutionState.Ops, !JournalExecutor.Ops, !cluster.Ops}.

Lemma waits_app tr1 tr2 : waits (tr1 ++ tr2) = waits tr1 ++ waits tr2.
Proof. apply omap_app. Qed.

Lemma same_frame_refl (w : World) : same_frame w w.
Proof. by repeat split. Qed.

Lemma same_frame_trans (w1 w2 w3 : World) :
  same_frame w1 w2 → same_frame w2 w3 → same_frame w1 w3.
Proof.
  intros (?&?&?&?&?) (?&?&?&?&?). repeat split; congruence.
Qed.

(** The updates the flows are made of. *)
Lemma same_frame_emit e (w w1 : World) :
  waits [e] = [] → same_frame w w1 → same_frame w (emit e w1).
Proof.
  intros He (?&?&?&?&Hw). repeat split; try done.
  simpl. by rewrite waits_app, He, app_nil_r.
Qed.

Lemma same_frame_upd_flow i g (w w1 : World) :
  same_frame w w1 → same_frame w (upd_flow i g w1).
Proof.
  intros (?&?&?&?&?). repeat split; try done. simpl. by rewrite length_alter.
Qed.

Lemma same_frame_set_bc n (w w1 : World) :
  same_frame w w1 → same_frame w (set_bc n w1).
Proof. by intros (?&?&?&?&?). Qed.

Lemma same_frame_set_cntx c (w w1 : World) :
  same_frame w w1 → same_frame w (set_cntx c w1).
Proof. by intros (?&?&?&?&?). Qed.

Lemma same_frame_set_state s (w w1 : World) :
  same_frame w w1 → same_frame w (set_state s w1).
Proof. by intros (?&?&?&?&?). Qed.

Lemma same_frame_set_service s (w w1 : World) :
  same_frame w w1 → same_frame w (set_service s w1).
Proof. by intros (?&?&?&?&?). Qed.

Create HintDb frame discriminated.

#[local] Hint Resolve same_frame_refl same_frame_emit same_frame_upd_flow
  same_frame_set_bc same_frame_set_cntx same_frame_set_state
  same_frame_set_service : frame.
#[local] Hint Extern 0 (waits _ = []) => reflexivity : frame.

Lemma same_frame_Dec shard (w w1 : World) :
  same_frame w w1 → same_frame w (ClusterShardMigration.Dec shard w1).
Proof. unfold ClusterShardMigration.Dec. auto with frame. Qed.

Lemma same_frame_Add shard (w w1 : World) :
  same_frame w w1 → same_frame w (ClusterShardMigration.Add shard w1).
Proof. unfold ClusterShardMigration.Add. auto with frame. Qed.

Lemma same_frame_LOG sev msg (w w1 : World) :
  same_frame w w1 → same_frame w (LOG sev msg w1).
Proof. unfold LOG. auto with frame. Qed.

Lemma same_frame_ReportError err (w w1 : World) :
  same_frame w w1 → same_frame w (ReportError err w1).
Proof. unfold ReportError. auto with frame. Qed.

Lemma same_frame_ReportFatalError err (w w1 : World) :
  same_frame w w1 → same_frame w (ReportFatalError err w1).
Proof. unfold ReportFatalError. auto with frame. Qed.

Lemma same_frame_cntx_ReportError err (w w1 : World) :
  same_frame w w1 → same_frame w (cntx_ReportError err w1).
Proof. unfold cntx_ReportError. auto with frame. Qed.

#[local] Hint Resolve same_frame_Dec same_frame_Add same_frame_LOG
  same_frame_ReportError same_frame_ReportFatalError
  same_frame_cntx_ReportError : frame.

Lemma same_frame_exit_loop shard (w w1 : World) :
  same_frame w w1 → same_frame w (ClusterShardMigration.exit_loop shard w1).
Proof.
  unfold ClusterShardMigration.exit_loop, ClusterShardMigration.cleanup.
  auto with frame.
Qed.

Lemma same_frame_NextTxData shard (w w1 : World) :
  same_frame w w1 →
  same_frame w (ClusterShardMigration.NextTxData shard w1).2.
Proof.
  intros Hw. unfold ClusterShardMigration.NextTxData.
  repeat case_match; simpl; auto with frame.
Qed.

Lemma same_frame_ExecuteTx shard tx_data (w w1 : World) :
  same_frame w w1 →
  same_frame w (ClusterShardMigration.ExecuteTx shard tx_data w1).2.
Proof.
  intros Hw. unfold ClusterShardMigration.ExecuteTx.
  repeat case_match; simpl; auto 7 with frame.
Qed.

Lemma same_frame_on_tx shard tx_data (w w1 : World) :
  same_frame w w1 →
  same_frame w (ClusterShardMigration.on_tx shard tx_data w1).
Proof.
  intros Hw. unfold ClusterShardMigration.on_tx.
  pose proof (same_frame_ExecuteTx shard tx_data w w1 Hw) as Hexec.
  destruct (ClusterShardMigration.ExecuteTx shard tx_data w1) as [err w2].
  simpl in Hexec.
  repeat case_match;
    auto 7 using same_frame_exit_loop with frame.
Qed.

Lemma same_frame_step shard (w : World) :
  same_frame w (ClusterShardMigration.step shard w).
Proof.
  unfold ClusterShardMigration.step.
  pose proof (same_frame_NextTxData shard w w (same_frame_refl w)) as Hread.
  destruct (ClusterShardMigration.NextTxData shard w) as [tx_data w1].
  simpl in Hread. unfold ClusterShardMigration.cleanup.
  repeat case_match;
    auto 7 using same_frame_exit_loop, same_frame_on_tx with frame.
Qed.

Lemma same_frame_enter shard source (w : World) :
  same_frame w (ClusterShardMigration.enter shard source w).
Proof.
  unfold ClusterShardMigration.enter. repeat case_match; auto with frame.
Qed.

Lemma same_frame_Pause pause (w : World) :
  same_frame w (IncomingSlotMigration.Pause pause w).
Proof.
  unfold IncomingSlotMigration.Pause.
  generalize (seq 0 (length (shard_flows_ w))). intros shards.
  revert w. induction shards as [|shard shards IH]; intros w; simpl.
  - apply same_frame_refl.
  - eapply same_frame_trans; [|apply IH].
    unfold ClusterShardMigration.Pause. auto with frame.
Qed.

Lemma same_frame_act a (w : World) :
  same_frame w (IncomingSlotMigration.act a w).
Proof.
  destruct a; simpl;
    auto using same_frame_enter, same_frame_step, same_frame_Pause.
Qed.

Lemma same_frame_until_zero acts (w : World) :
  same_frame w (IncomingSlotMigration.until_zero acts w).2.
Proof.
  revert w. induction acts as [|a acts IH]; intros w; simpl.
  - case_match; apply same_frame_refl.
  - case_match; [apply same_frame_refl|].
    eapply same_frame_trans; [apply same_frame_act|apply IH].
Qed.

Lemma same_frame_Cancel shard (w : World) :
  same_frame w (ClusterShardMigration.Cancel shard w).2.
Proof.
  unfold ClusterShardMigration.Cancel.
  repeat case_match; simpl; auto 7 with frame.
Qed.

(** [WaitFor] returns true exactly when it has seen the count at zero, and
    then the count is zero. *)
Lemma until_zero_true acts (w : World) :
  (IncomingSlotMigration.until_zero acts w).1 = true →
  bc_ (IncomingSlotMigration.until_zero acts w).2 = 0%Z.
Proof.
  revert w. induction acts as [|a acts IH]; intros w; simpl.
  - destruct (Z.eqb_spec (bc_ w) 0); simpl; [done|discriminate].
  - destruct (Z.eqb_spec (bc_ w) 0); simpl; [done|apply IH].
Qed.

Lemma until_zero_quiet (w : World) :
  IncomingSlotMigration.until_zero [] w = ((bc_ w =? 0)%Z, w).
Proof. simpl. by destruct (bc_ w =? 0)%Z. Qed.

(** What one call of [WaitFor] leaves behind. *)
Lemma WaitFor_spec ms env (w : World) :
  let r := IncomingSlotMigration.until_zero (others env) w in
  IncomingSlotMigration.WaitFor ms env w
  = (r.1, emit (EvLatchWait ms r.1) (set_Now (Now r.2 + elapsed env)%Z r.2)).
Proof.
  unfold IncomingSlotMigration.WaitFor.
  by destruct (IncomingSlotMigration.until_zero _ _).
Qed.

Lemma WaitFor_waits ms env (w : World) :
  waits (trace (IncomingSlotMigration.WaitFor ms env w).2)
  = waits (trace w) ++ [ms].
Proof.
  rewrite WaitFor_spec. simpl. rewrite waits_app. simpl.
  by destruct (same_frame_until_zero (others env) w) as (_&_&_&_&->).
Qed.

Lemma WaitFor_Now ms env (w : World) :
  Now (IncomingSlotMigration.WaitFor ms env w).2 = (Now w + elapsed env)%Z.
Proof.
  rewrite WaitFor_spec. simpl.
  by destruct (same_frame_until_zero (others env) w) as (->&_).
Qed.

Lemma WaitFor_FLAGS ms env (w : World) :
  FLAGS_migration_finalization_timeout_ms
    (IncomingSlotMigration.WaitFor ms env w).2
  = FLAGS_migration_finalization_timeout_ms w.
Proof.
  rewrite WaitFor_spec. simpl.
  by destruct (same_frame_until_zero (others env) w) as (_&->&_).
Qed.

Lemma WaitFor_source_id ms env (w : World) :
  source_id_ (IncomingSlotMigration.WaitFor ms env w).2 = source_id_ w.
Proof.
  rewrite WaitFor_spec. simpl.
  by destruct (same_frame_until_zero (others env) w) as (_&_&->&_).
Qed.

Lemma WaitFor_true ms env (w : World) :
  (IncomingSlotMigration.WaitFor ms env w).1 = true →
  bc_ (IncomingSlotMigration.WaitFor ms env w).2 = 0%Z.
Proof. rewrite WaitFor_spec. simpl. apply until_zero_true. Qed.

(** A wait during which no other fiber runs leaves the flows, the state and
    the service as they were. *)
Lemma WaitFor_quiet ms env (w : World) :
  others env = [] →
  IncomingSlotMigration.WaitFor ms env w
  = ((bc_ w =? 0)%Z,
     emit (EvLatchWait ms (bc_ w =? 0)%Z)
       (set_Now (Now w + elapsed env)%Z w)).
Proof. intros Hq. rewrite WaitFor_spec, Hq, until_zero_quiet. done. Qed.

End Frame.

(** ** Join *)
Section Join_facts.
Context `{!ExecutionState.Ops, !JournalExecutor.Ops, !cluster.Ops}.

(** The attempt test of [Join], as a statement about every flow. *)
Lemma is_attempt_correct_spec attempt (flows : list Flow) :
  forallb (λ flow, (ClusterShardMigration.GetLastAttempt flow =? attempt)%Z)
          flows = true
  ↔ Forall (λ flow, ClusterShardMigration.GetLastAttempt flow = attempt) flows.
Proof.
  induction flows as [|flow flows IH]; simpl.
  - split; [constructor|done].
  - rewrite andb_true_iff, Forall_cons, IH, Z.eqb_eq. done.
Qed.

(** The wait time of [Join] is the smaller of 100 ms and what remains. *)
Lemma wait_time_min remaining_time :
  (if (100 <? remaining_time)%Z then 100%Z else remaining_time)
  = Z.min 100 remaining_time.
Proof. destruct (Z.ltb_spec 100 remaining_time); lia. Qed.

(** An iteration of [Join] that finds the finalization timeout expired
    ([passed >= timeout] on the wall clock) logs a warning, reports
    "Can't join migration in time" on the coordinator and returns false,
    whatever the rest of the script; the state is the one it found. *)
Lemma Join_loop_timeout attempt start env script (w : World) :
  (Milliseconds (FLAGS_migration_finalization_timeout_ms w)
   ≤ Now w - start)%Z →
  ∃ w',
    IncomingSlotMigration.Join_loop attempt start (env :: script) w
    = (Some false, w')
    ∧ trace w' = trace w ++
        [EvLog WARNING ("Can't join migration in time for " +:+ source_id_ w);
         EvReportError "Can't join migration in time"]
    ∧ state_ w' = state_ w
    ∧ (state_ w = C_SYNC → state_ w' = C_SYNC).
Proof.
  intros Hexpired. simpl. unfold IncomingSlotMigration.Join_iteration.
  destruct (Z.leb_spec
              (Milliseconds (FLAGS_migration_finalization_timeout_ms w))
              (Now w - start)) as [_|Hlt]; [|lia].
  eexists. split; [reflexivity|]. simpl.
  rewrite <- app_assoc. done.
Qed.

(** One iteration of [Join] that gets as far as the latch wait. *)
Lemma Join_iteration_waits attempt start env (w : World) :
  (Now w - start
   < Milliseconds (FLAGS_migration_finalization_timeout_ms w))%Z →
  GetState w ≠ C_FATAL →
  let remaining_time :=
    ToInt64Milliseconds
      (Milliseconds (FLAGS_migration_finalization_timeout_ms w)
       - (Now w - start))%Z in
  let r := IncomingSlotMigration.WaitFor (Z.min 100 remaining_time) env w in
  IncomingSlotMigration.Join_iteration attempt start env w
  = if forallb (λ flow,
                  (ClusterShardMigration.GetLastAttempt flow =? attempt)%Z)
               (shard_flows_ w)
    then
      if r.1 then
        (Some true,
         set_keys (cluster.GetKeyCount (slots_ r.2) (service_ r.2))
                  (set_state C_FINISHED r.2))
      else
        (Some false,
         ReportError "Can't join migration in time"
           (LOG WARNING
              ("Can't join migration because of data after LSN for "
               +:+ source_id_ r.2) r.2))
    else (None, r.2).
Proof.
  intros Hlt Hstate remaining_time r. subst r remaining_time.
  unfold IncomingSlotMigration.Join_iteration.
  destruct (Z.leb_spec
              (Milliseconds (FLAGS_migration_finalization_timeout_ms w))
              (Now w - start)) as [Hle|_]; [lia|].
  destruct (decide (GetState w = C_FATAL)) as [|_]; [done|].
  rewrite wait_time_min.
  by destruct (IncomingSlotMigration.WaitFor _ _ _).
Qed.

(** An iteration of [Join] that waits on the latch (the timeout has not
    expired and the state is not [C_FATAL]), finds every flow's
    [last_attempt] equal to [attempt], and whose latch wait returns false,
    ends the loop there: it logs "Can't join migration because of data
    after LSN", reports "Can't join migration in time" and returns false
    with the world the wait left, without looking at the rest of the
    script. *)
Lemma Join_loop_data_after_lsn attempt start env script (w : World) :
  let timeout := Milliseconds (FLAGS_migration_finalization_timeout_ms w) in
  let passed := (Now w - start)%Z in
  let wait_time := Z.min 100 (ToInt64Milliseconds (timeout - passed)%Z) in
  let after_wait := IncomingSlotMigration.WaitFor wait_time env w in
  (passed < timeout)%Z →
  GetState w ≠ C_FATAL →
  Forall (λ flow, ClusterShardMigration.GetLastAttempt flow = attempt)
         (shard_flows_ w) →
  after_wait.1 = false →
  ∃ w',
    IncomingSlotMigration.Join_loop attempt start (env :: script) w
    = (Some false, w')
    ∧ trace w' = trace after_wait.2 ++
        [EvLog WARNING ("Can't join migration because of data after LSN for "
                        +:+ source_id_ w);
         EvReportError "Can't join migration in time"]
    ∧ state_ w' = state_ after_wait.2.
Proof.
  intros timeout passed wait_time after_wait Hlt Hstate Hattempt Hwait.
  subst timeout passed wait_time after_wait. simpl.
  rewrite (Join_iteration_waits attempt start env w Hlt Hstate). simpl.
  apply is_attempt_correct_spec in Hattempt. rewrite Hattempt, Hwait.
  eexists. split; [reflexivity|]. simpl.
  by rewrite <- app_assoc, WaitFor_source_id.
Qed.


(** An iteration of [Join] returns true only through its accepting branch. *)
Lemma Join_iteration_true attempt start env (w w' : World) :
  IncomingSlotMigration.Join_iteration attempt start env w = (Some true, w') →
  let timeout := Milliseconds (FLAGS_migration_finalization_timeout_ms w) in
  let passed := (Now w - start)%Z in
  let r := IncomingSlotMigration.WaitFor
             (Z.min 100 (ToInt64Milliseconds (timeout - passed)%Z)) env w in
  Forall (λ flow, ClusterShardMigration.GetLastAttempt flow = attempt)
         (shard_flows_ w)
  ∧ r.1 = true
  ∧ w' = set_keys (cluster.GetKeyCount (slots_ r.2) (service_ r.2))
                  (set_state C_FINISHED r.2).
Proof.
  intros Hret timeout passed r. subst timeout passed r.
  destruct (Z.leb_spec
              (Milliseconds (FLAGS_migration_finalization_timeout_ms w))
              (Now w - start)) as [Hle|Hlt].
  { unfold IncomingSlotMigration.Join_iteration in Hret.
    destruct (Z.leb_spec
                (Milliseconds (FLAGS_migration_finalization_timeout_ms w))
                (Now w - start)); [discriminate|lia]. }
  destruct (decide (GetState w = C_FATAL)) as [Hfatal|Hstate].
  { unfold IncomingSlotMigration.Join_iteration in Hret.
    destruct (Z.leb_spec
                (Milliseconds (FLAGS_migration_finalization_timeout_ms w))
                (Now w - start)); [lia|].
    destruct (decide (GetState w = C_FATAL)); [discriminate|done]. }
  rewrite (Join_iteration_waits attempt start env w Hlt Hstate) in Hret.
  simpl in Hret.
  destruct (forallb _ _) eqn:Hattempt; [|discriminate].
  apply is_attempt_correct_spec in Hattempt.
  destruct (IncomingSlotMigration.WaitFor _ _ _).1 eqn:Hwait;
    [|discriminate].
  by inversion Hret.
Qed.

Lemma Join_loop_accepts attempt start script (w w' : World) :
  IncomingSlotMigration.Join_loop attempt start script w = (Some true, w') →
  ∃ before env after w_head,
    script = before ++ env :: after
    ∧ IncomingSlotMigration.Join_loop attempt start before w = (None, w_head)
    ∧ IncomingSlotMigration.Join_iteration attempt start env w_head
      = (Some true, w').
Proof.
  revert w. induction script as [|env script IH]; intros w; simpl.
  - discriminate.
  - destruct (IncomingSlotMigration.Join_iteration attempt start env w)
      as [[res|] w1] eqn:Hiter.
    + intros [= -> ->]. by exists [], env, script, w.
    + intros (before & env' & after & w_head & -> & Hloop & Hlast)%IH.
      exists (env :: before), env', after, w_head.
      simpl. by rewrite Hiter.
Qed.

(** C2, as the code has it: [Join(attempt)] returns true only from an
    iteration at whose head, before the latch wait, every flow's
    [last_attempt] was [attempt], and whose latch wait then found the latch
    at zero; the latch is zero in the world [Join] returns, the state is
    [C_FINISHED], [keys_number_] is the key count of the slots, and it is
    what [GetKeyCount] answers from then on.  When no
    other fiber ran during that wait, the flows are as they were sampled:
    every [last_attempt] is still [attempt]. *)
Theorem Join_accepts attempt script (w w' : World) :
  IncomingSlotMigration.Join attempt script w = (Some true, w') →
  ∃ before env after w_head,
    script = before ++ env :: after
    ∧ IncomingSlotMigration.Join_loop attempt (Now w) before w
      = (None, w_head)
    ∧ Forall (λ flow, ClusterShardMigration.GetLastAttempt flow = attempt)
             (shard_flows_ w_head)
    ∧ (IncomingSlotMigration.until_zero (others env) w_head).1 = true
    ∧ bc_ w' = 0%Z
    ∧ state_ w' = C_FINISHED
    ∧ keys_number_ w' = cluster.GetKeyCount (slots_ w') (service_ w')
    ∧ IncomingSlotMigration.GetKeyCount w' = keys_number_ w'
    ∧ (others env = [] →
       Forall (λ flow, ClusterShardMigration.GetLastAttempt flow = attempt)
              (shard_flows_ w')).
Proof.
  unfold IncomingSlotMigration.Join.
  intros (before & env & after & w_head & -> & Hloop & Hlast)
    %Join_loop_accepts.
  exists before, env, after, w_head.
  apply Join_iteration_true in Hlast as (Hattempt & Hwait & ->).
  repeat split; try done.
  - by rewrite WaitFor_spec in Hwait.
  - simpl. by apply WaitFor_true.
  - intros Hquiet. simpl. by rewrite WaitFor_quiet.
Qed.

(** [Join] writes the migration state only when it accepts: when it returns
    false after waits during which no other fiber ran, the state is the one
    it was called in. *)
Lemma Join_loop_false_state attempt start script (w w' : World) :
  Forall (λ env, others env = []) script →
  IncomingSlotMigration.Join_loop attempt start script w = (Some false, w') →
  state_ w' = state_ w.
Proof.
  intros Hquiet. revert w.
  induction Hquiet as [|env script Henv _ IH]; intros w; simpl;
    [discriminate|].
  unfold IncomingSlotMigration.Join_iteration.
  rewrite (WaitFor_quiet _ env w Henv).
  repeat case_match; simplify_eq/=; intros Hrest;
    first [ by simplify_eq/= | apply IH in Hrest; by rewrite Hrest ].
Qed.

End Join_facts.

(** C2 fails as stated.  The flow of shard 0 stores attempt 5, then reads a
    SET (the attempt has failed, the latch is at one again).  [Join(5)]
    samples [last_attempt = 5] and waits; during the wait the flow reads the
    marker LSN 6, stores 6 and decrements the latch, which wakes [Join]:
    [Join(5)] returns true while the latch is zero and the flow's
    [last_attempt] is 6. *)
Lemma Join_accepts_stale_attempt :
  let w := history
             [Fiber (FlowEnters 0
                       (socket_with [RdTx (lsn_marker 5%Z);
                                     RdTx (cmd ["SET"; "c"; "3"]);
                                     RdTx (lsn_marker 6%Z)]));
              Fiber (FlowRuns 0); Fiber (FlowRuns 0); Fiber (FlowRuns 0)]
             (IncomingSlotMigration.Init 1 (fresh 5)) in
  let r := IncomingSlotMigration.Join 5%Z
             [{| others := [FlowRuns 0; FlowRuns 0]; elapsed := 1000000%Z |}]
             w in
  ClusterShardMigration.GetLastAttempt <$> shard_flows_ w = [5%Z]
  ∧ bc_ w = 1%Z
  ∧ r.1 = Some true
  ∧ bc_ r.2 = 0%Z
  ∧ state_ r.2 = C_FINISHED
  ∧ ClusterShardMigration.GetLastAttempt <$> shard_flows_ r.2 = [6%Z].
Proof. by vm_compute. Qed.

(** C2 on the stand-ins: scenario 1 of the specification, two SETs and the
    marker LSN 2, then [Join(2)]. *)
Lemma Join_accepts_witness :
  let w := (ClusterShardMigration.Start 10 0
              (socket_with [RdTx (cmd ["SET"; "a"; "1"]);
                            RdTx (cmd ["SET"; "b"; "2"]);
                            RdTx (lsn_marker 2%Z)])
              (IncomingSlotMigration.Init 1 (fresh 5))).2 in
  let w' := (IncomingSlotMigration.Join 2%Z [quiet 0%Z] w).2 in
  IncomingSlotMigration.Join 2%Z [quiet 0%Z] w = (Some true, w')
  ∧ ∃ before env after w_head,
      [quiet 0%Z] = before ++ env :: after
      ∧ IncomingSlotMigration.Join_loop 2%Z (Now w) before w = (None, w_head)
      ∧ Forall (λ flow, ClusterShardMigration.GetLastAttempt flow = 2%Z)
               (shard_flows_ w_head)
      ∧ (IncomingSlotMigration.until_zero (others env) w_head).1 = true
      ∧ bc_ w' = 0%Z
      ∧ state_ w' = C_FINISHED
      ∧ keys_number_ w' = cluster.GetKeyCount (slots_ w') (service_ w')
      ∧ IncomingSlotMigration.GetKeyCount w' = keys_number_ w'
      ∧ (others env = [] →
         Forall (λ flow, ClusterShardMigration.GetLastAttempt flow = 2%Z)
                (shard_flows_ w')).
Proof.
  intros w w'.
  assert (IncomingSlotMigration.Join 2%Z [quiet 0%Z] w = (Some true, w'))
    as Hjoin by by vm_compute.
  split; [exact Hjoin|].
  exact (Join_accepts 2%Z [quiet 0%Z] w w' Hjoin).
Defined.

Section Stop_facts.
Context `{!ExecutionState.Ops, !JournalExecutor.Ops, !cluster.Ops}.

Lemma Cancel_cancels shard f' (w : World) :
  shard_flows_ (ClusterShardMigration.Cancel shard w).2 !! shard = Some f' →
  flow_cancelled f'.
Proof.
  unfold ClusterShardMigration.Cancel, flow_cancelled.
  destruct (shard_flows_ w !! shard) as [f|] eqn:Hf; simpl;
    [|by rewrite Hf].
  destruct (socket_ f) as [s|] eqn:Hs.
  - destruct (sock_open s) eqn:Hopen; simpl.
    + destruct (shutdown_result s =? 0)%Z; simpl;
        rewrite list_lookup_alter_eq, Hf; intros [= <-]; done.
    + rewrite Hf. intros [= <-]. rewrite Hs. congruence.
  - destruct (is_finished_ f) eqn:Hfin; simpl.
    + rewrite Hf. intros [= <-]. by rewrite Hs.
    + rewrite list_lookup_alter_eq, Hf. intros [= <-]. simpl. by rewrite Hs.
Qed.

Lemma Cancel_other shard j (w : World) :
  shard ≠ j →
  shard_flows_ (ClusterShardMigration.Cancel shard w).2 !! j
  = shard_flows_ w !! j.
Proof.
  intros Hne. unfold ClusterShardMigration.Cancel.
  repeat case_match; simpl; rewrite ?list_lookup_alter_ne; done.
Qed.

Lemma Cancel_cntx_state shard (w : World) :
  cntx_ (ClusterShardMigration.Cancel shard w).2 = cntx_ w
  ∧ state_ (ClusterShardMigration.Cancel shard w).2 = state_ w.
Proof.
  unfold ClusterShardMigration.Cancel. repeat case_match; done.
Qed.

Lemma cancel_all_frame shards (w : World) :
  let w' := foldl (λ w shard, (ClusterShardMigration.Cancel shard w).2)
                  w shards in
  same_frame w w' ∧ cntx_ w' = cntx_ w ∧ state_ w' = state_ w.
Proof.
  revert w. induction shards as [|shard shards IH]; intros w; simpl.
  - split; [apply same_frame_refl|done].
  - destruct (IH (ClusterShardMigration.Cancel shard w).2) as (Hf & Hc & Hs).
    destruct (Cancel_cntx_state shard w) as [Hc' Hs'].
    split; [|split; congruence].
    eapply same_frame_trans; [apply same_frame_Cancel|apply Hf].
Qed.

Lemma cancel_all_cancels shards j f' (w : World) :
  j ∈ shards →
  shard_flows_
    (foldl (λ w shard, (ClusterShardMigration.Cancel shard w).2) w shards)
    !! j = Some f' →
  flow_cancelled f'.
Proof.
  revert f'. induction shards as [|shard shards IH] using rev_ind;
    intros f'; [by intros ?%elem_of_nil|].
  rewrite foldl_app. simpl. intros Hin.
  destruct (decide (shard = j)) as [->|Hne].
  - apply Cancel_cancels.
  - rewrite Cancel_other by done. apply IH.
    apply elem_of_app in Hin as [|Hin%list_elem_of_singleton]; congruence.
Qed.

(** The first half of [Stop]. *)
Lemma Stop_cancel_spec (w : World) :
  let cancelled := IncomingSlotMigration.Stop_cancel w in
  cntx_ cancelled = ExecutionState.Cancel (cntx_ w)
  ∧ state_ cancelled = state_ w
  ∧ Now cancelled = Now w
  ∧ FLAGS_migration_finalization_timeout_ms cancelled
    = FLAGS_migration_finalization_timeout_ms w
  ∧ waits (trace cancelled) = waits (trace w)
  ∧ (∀ shard f, shard_flows_ cancelled !! shard = Some f → flow_cancelled f).
Proof.
  intros cancelled. subst cancelled.
  unfold IncomingSlotMigration.Stop_cancel,
    IncomingSlotMigration.cancel_flows.
  set (w2 := emit EvCntxCancel _).
  destruct (cancel_all_frame (seq 0 (length (shard_flows_ w2))) w2)
    as ((HNow & HFLAGS & _ & Hlen & Hwaits) & Hcntx & Hstate).
  simpl in *.
  repeat split; try done.
  - rewrite Hwaits. subst w2. simpl. rewrite !waits_app. simpl.
    by rewrite !app_nil_r.
  - intros shard f Hf. eapply cancel_all_cancels; [|apply Hf].
    apply elem_of_seq. apply lookup_lt_Some in Hf. lia.
Qed.

Lemma ToInt64Milliseconds_Milliseconds ms :
  ToInt64Milliseconds (Milliseconds ms) = ms.
Proof.
  unfold ToInt64Milliseconds, Milliseconds. by rewrite Z.quot_mul.
Qed.

(** One iteration of [Stop]. *)
Lemma Stop_iteration_spec start env (w : World) :
  let timeout := Milliseconds (FLAGS_migration_finalization_timeout_ms w) in
  let passed := (Now w - start)%Z in
  let r := IncomingSlotMigration.WaitFor
             (ToInt64Milliseconds (timeout - passed)%Z) env w in
  IncomingSlotMigration.Stop_iteration start env w
  = if r.1 then (Some (), r.2)
    else if (timeout <=? passed)%Z then
      (Some (), LOG ERROR "Can't stop migration in time" r.2)
    else (None, r.2).
Proof.
  simpl. unfold IncomingSlotMigration.Stop_iteration.
  by destruct (IncomingSlotMigration.WaitFor _ _ _).
Qed.

(** [Stop] is out of its loop by the time the waits have taken as long as
    the timeout, whatever the latch does. *)
Lemma Stop_loop_returns start before last (w : World) :
  (Milliseconds (FLAGS_migration_finalization_timeout_ms w)
   ≤ Now w - start + total_elapsed before)%Z →
  (IncomingSlotMigration.Stop_loop start (before ++ [last]) w).1 = Some ().
Proof.
  revert w. induction before as [|env before IH]; intros w Hlate; simpl in *.
  - rewrite Stop_iteration_spec. simpl.
    destruct (IncomingSlotMigration.WaitFor _ _ _).1; [done|].
    destruct (Z.leb_spec
                (Milliseconds (FLAGS_migration_finalization_timeout_ms w))
                (Now w - start)); [done|lia].
  - rewrite Stop_iteration_spec. simpl.
    destruct (IncomingSlotMigration.WaitFor _ _ _).1; [done|].
    destruct (Z.leb_spec
                (Milliseconds (FLAGS_migration_finalization_timeout_ms w))
                (Now w - start)); [done|].
    apply IH. rewrite WaitFor_FLAGS, WaitFor_Now. lia.
Qed.

Lemma Stop_loop_some start script (w : World) :
  ∀ r, (IncomingSlotMigration.Stop_loop start script w).1 = Some r → r = ().
Proof. by intros []. Qed.


(** [Stop] after its first half: in [C_FATAL] it is done, in another state
    it enters its wait loop at the time it was called. *)
Lemma Stop_unfold script (w : World) :
  IncomingSlotMigration.Stop script w
  = if decide (state_ w = C_FATAL)
    then (Some (), IncomingSlotMigration.Stop_cancel w)
    else IncomingSlotMigration.Stop_loop (Now w) script
           (IncomingSlotMigration.Stop_cancel w).
Proof.
  destruct (Stop_cancel_spec w) as (_ & Hstate & HNow & _).
  unfold IncomingSlotMigration.Stop. simpl in *. rewrite Hstate, HNow.
  by destruct (decide (state_ w = C_FATAL)).
Qed.

(** The wait loop of [Stop] is left by the time the waits have taken as
    long as the timeout, whatever follows in the script. *)
Lemma Stop_loop_leaves start before last rest (w : World) :
  (Milliseconds (FLAGS_migration_finalization_timeout_ms w)
   ≤ Now w - start + total_elapsed before)%Z →
  (IncomingSlotMigration.Stop_loop start (before ++ last :: rest) w).1
  = Some ().
Proof.
  revert w. induction before as [|env before IH]; intros w Hlate; simpl in *.
  - rewrite Stop_iteration_spec. simpl.
    destruct (IncomingSlotMigration.WaitFor _ _ _).1; [done|].
    destruct (Z.leb_spec
                (Milliseconds (FLAGS_migration_finalization_timeout_ms w))
                (Now w - start)); [done|lia].
  - rewrite Stop_iteration_spec. simpl.
    destruct (IncomingSlotMigration.WaitFor _ _ _).1; [done|].
    destruct (Z.leb_spec
                (Milliseconds (FLAGS_migration_finalization_timeout_ms w))
                (Now w - start)); [done|].
    apply IH. rewrite WaitFor_FLAGS, WaitFor_Now. lia.
Qed.


End Stop_facts.



(** ** The latch *)
Section Latch_facts.
Context `{!ExecutionState.Ops, !JournalExecutor.Ops, !cluster.Ops}.

Lemma net_decrements_app shard tr1 tr2 :
  net_decrements shard (tr1 ++ tr2)
  = (net_decrements shard tr1 + net_decrements shard tr2)%Z.
Proof.
  unfold net_decrements. induction tr1 as [|e tr1 IH]; simpl; lia.
Qed.

Lemma net_decrements_emit shard e (w : World) :
  net_decrements shard (trace (emit e w))
  = (net_decrements shard (trace w) + latch_delta shard e)%Z.
Proof. simpl. rewrite net_decrements_app. simpl. lia. Qed.

(** *** The accounts of the other flows *)

Lemma same_account_refl shard (w : World) : same_account shard w w.
Proof. done. Qed.

Lemma same_account_trans shard (w1 w2 w3 : World) :
  same_account shard w1 w2 → same_account shard w2 w3 →
  same_account shard w1 w3.
Proof. intros [? ?] [? ?]. split; congruence. Qed.

Lemma same_account_accounted shard (w w' : World) :
  same_account shard w w' → accounted shard w → accounted shard w'.
Proof. intros [Hf Hn] Hacc f. rewrite Hf, Hn. apply Hacc. Qed.

Lemma same_account_emit i e (w w1 : World) :
  latch_delta i e = 0%Z → same_account i w w1 → same_account i w (emit e w1).
Proof.
  intros He [Hf Hn]. split; [done|].
  rewrite net_decrements_emit, He, Hn. lia.
Qed.

Lemma same_account_upd_flow i shard g (w w1 : World) :
  shard ≠ i → same_account i w w1 → same_account i w (upd_flow shard g w1).
Proof.
  intros Hne [Hf Hn]. split; [|done].
  simpl. by rewrite list_lookup_alter_ne.
Qed.

Lemma same_account_set_bc i n (w w1 : World) :
  same_account i w w1 → same_account i w (set_bc n w1).
Proof. done. Qed.

Lemma same_account_set_cntx i c (w w1 : World) :
  same_account i w w1 → same_account i w (set_cntx c w1).
Proof. done. Qed.

Lemma same_account_set_state i s (w w1 : World) :
  same_account i w w1 → same_account i w (set_state s w1).
Proof. done. Qed.

Lemma same_account_set_service i s (w w1 : World) :
  same_account i w w1 → same_account i w (set_service s w1).
Proof. done. Qed.

Lemma latch_delta_Dec_other i shard :
  shard ≠ i → latch_delta i (EvLatchDec shard) = 0%Z.
Proof. intros Hne. simpl. by rewrite decide_False. Qed.

Lemma latch_delta_Add_other i shard :
  shard ≠ i → latch_delta i (EvLatchAdd shard) = 0%Z.
Proof. intros Hne. simpl. by rewrite decide_False. Qed.

Create HintDb account discriminated.

#[local] Hint Resolve same_account_refl same_account_emit
  same_account_upd_flow same_account_set_bc same_account_set_cntx
  same_account_set_state same_account_set_service : account.
#[local] Hint Extern 0 (latch_delta _ _ = 0%Z) => reflexivity : account.

Lemma same_account_Dec i shard (w w1 : World) :
  shard ≠ i → same_account i w w1 →
  same_account i w (ClusterShardMigration.Dec shard w1).
Proof.
  intros Hne Hw. unfold ClusterShardMigration.Dec.
  apply same_account_emit;
    [by apply latch_delta_Dec_other|auto with account].
Qed.

Lemma same_account_Add i shard (w w1 : World) :
  shard ≠ i → same_account i w w1 →
  same_account i w (ClusterShardMigration.Add shard w1).
Proof.
  intros Hne Hw. unfold ClusterShardMigration.Add.
  apply same_account_emit;
    [by apply latch_delta_Add_other|auto with account].
Qed.

Lemma same_account_LOG i sev msg (w w1 : World) :
  same_account i w w1 → same_account i w (LOG sev msg w1).
Proof. unfold LOG. auto with account. Qed.

Lemma same_account_ReportError i err (w w1 : World) :
  same_account i w w1 → same_account i w (ReportError err w1).
Proof. unfold ReportError. auto with account. Qed.

Lemma same_account_ReportFatalError i err (w w1 : World) :
  same_account i w w1 → same_account i w (ReportFatalError err w1).
Proof. unfold ReportFatalError. auto with account. Qed.

Lemma same_account_cntx_ReportError i err (w w1 : World) :
  same_account i w w1 → same_account i w (cntx_ReportError err w1).
Proof. unfold cntx_ReportError. auto with account. Qed.

#[local] Hint Resolve same_account_Dec same_account_Add same_account_LOG
  same_account_ReportError same_account_ReportFatalError
  same_account_cntx_ReportError : account.

Lemma same_account_exit_loop i shard (w w1 : World) :
  shard ≠ i → same_account i w w1 →
  same_account i w (ClusterShardMigration.exit_loop shard w1).
Proof.
  unfold ClusterShardMigration.exit_loop, ClusterShardMigration.cleanup.
  auto with account.
Qed.

Lemma same_account_NextTxData i shard (w w1 : World) :
  shard ≠ i → same_account i w w1 →
  same_account i w (ClusterShardMigration.NextTxData shard w1).2.
Proof.
  intros Hne Hw. unfold ClusterShardMigration.NextTxData.
  repeat case_match; simpl; auto with account.
Qed.

Lemma same_account_ExecuteTx i shard tx_data (w w1 : World) :
  same_account i w w1 →
  same_account i w (ClusterShardMigration.ExecuteTx shard tx_data w1).2.
Proof.
  intros Hw. unfold ClusterShardMigration.ExecuteTx.
  repeat case_match; simpl; auto 7 with account.
Qed.

Lemma same_account_on_tx i shard tx_data (w w1 : World) :
  shard ≠ i → same_account i w w1 →
  same_account i w (ClusterShardMigration.on_tx shard tx_data w1).
Proof.
  intros Hne Hw. unfold ClusterShardMigration.on_tx.
  pose proof (same_account_ExecuteTx i shard tx_data w w1 Hw) as Hexec.
  destruct (ClusterShardMigration.ExecuteTx shard tx_data w1) as [err w2].
  simpl in Hexec.
  repeat case_match;
    auto 7 using same_account_exit_loop with account.
Qed.

(** A flow touches no account but its own. *)
Lemma step_other shard i (w : World) :
  shard ≠ i → same_account i w (ClusterShardMigration.step shard w).
Proof.
  intros Hne. unfold ClusterShardMigration.step.
  pose proof (same_account_NextTxData i shard w w Hne
                (same_account_refl i w)) as Hread.
  destruct (ClusterShardMigration.NextTxData shard w) as [tx_data w1].
  simpl in Hread. unfold ClusterShardMigration.cleanup.
  repeat case_match;
    auto 7 using same_account_exit_loop, same_account_on_tx with account.
Qed.

Lemma Cancel_other_account shard i (w : World) :
  shard ≠ i → same_account i w (ClusterShardMigration.Cancel shard w).2.
Proof.
  intros Hne. unfold ClusterShardMigration.Cancel.
  repeat case_match; simpl; auto 7 with account.
Qed.

(** *** A flow's own account *)

Lemma inside_emit shard net e (w : World) :
  latch_delta shard e = 0%Z → inside shard net w → inside shard net (emit e w).
Proof.
  intros He (f & Hf & Hfin & Hs & Hn). exists f. repeat split; try done.
  rewrite net_decrements_emit, He. lia.
Qed.

Lemma inside_Dec shard net (w : World) :
  inside shard net w →
  inside shard (net + 1) (ClusterShardMigration.Dec shard w).
Proof.
  intros (f & Hf & Hfin & Hs & Hn). exists f. repeat split; try done.
  unfold ClusterShardMigration.Dec. rewrite net_decrements_emit. simpl.
  rewrite decide_True by done. lia.
Qed.

Lemma inside_Add shard net (w : World) :
  inside shard net w →
  inside shard (net - 1) (ClusterShardMigration.Add shard w).
Proof.
  intros (f & Hf & Hfin & Hs & Hn). exists f. repeat split; try done.
  unfold ClusterShardMigration.Add. rewrite net_decrements_emit. simpl.
  rewrite decide_True by done. lia.
Qed.

(** Updates of the flow that keep it finished and with a socket. *)
Lemma inside_upd_flow shard net g (w : World) :
  (∀ f, is_finished_ (g f) = is_finished_ f) →
  (∀ f, is_Some (socket_ f) → is_Some (socket_ (g f))) →
  inside shard net w → inside shard net (upd_flow shard g w).
Proof.
  intros Hgfin Hgs (f & Hf & Hfin & Hs & Hn). exists (g f).
  simpl. rewrite list_lookup_alter_eq, Hf, Hgfin. auto.
Qed.

Lemma inside_set_cntx shard net c (w : World) :
  inside shard net w → inside shard net (set_cntx c w).
Proof. done. Qed.

Lemma inside_set_state shard net s (w : World) :
  inside shard net w → inside shard net (set_state s w).
Proof. done. Qed.

Lemma inside_set_service shard net s (w : World) :
  inside shard net w → inside shard net (set_service s w).
Proof. done. Qed.

Create HintDb inside discriminated.

#[local] Hint Resolve inside_emit inside_set_cntx inside_set_state
  inside_set_service : inside.
#[local] Hint Extern 0 (latch_delta _ _ = 0%Z) => reflexivity : inside.

Lemma inside_LOG shard net sev msg (w : World) :
  inside shard net w → inside shard net (LOG sev msg w).
Proof. unfold LOG. auto with inside. Qed.

Lemma inside_ReportError shard net err (w : World) :
  inside shard net w → inside shard net (ReportError err w).
Proof. unfold ReportError. auto with inside. Qed.

Lemma inside_ReportFatalError shard net err (w : World) :
  inside shard net w → inside shard net (ReportFatalError err w).
Proof. unfold ReportFatalError. auto with inside. Qed.

Lemma inside_cntx_ReportError shard net err (w : World) :
  inside shard net w → inside shard net (cntx_ReportError err w).
Proof. unfold cntx_ReportError. auto with inside. Qed.

#[local] Hint Resolve inside_LOG inside_ReportError inside_ReportFatalError
  inside_cntx_ReportError : inside.

Lemma inside_NextTxData shard net (w : World) :
  inside shard net w →
  inside shard net (ClusterShardMigration.NextTxData shard w).2.
Proof.
  intros Hin. unfold ClusterShardMigration.NextTxData.
  assert (∀ s, inside shard net
                 (upd_flow shard (set_socket (Some (pop_incoming s))) w))
    as Hpop by (intros s; by apply inside_upd_flow).
  repeat case_match; simpl; auto with inside.
Qed.

Lemma inside_ExecuteTx shard net tx_data (w : World) :
  inside shard net w →
  inside shard net (ClusterShardMigration.ExecuteTx shard tx_data w).2.
Proof.
  intros Hin. unfold ClusterShardMigration.ExecuteTx.
  repeat case_match; simpl; auto 7 with inside.
Qed.

(** The ways out of [Start], and the ways on inside it. *)
Lemma accounted_cleanup shard (w : World) :
  inside shard 1 w → accounted shard (ClusterShardMigration.cleanup shard w).
Proof.
  intros (f & Hf & Hfin & Hs & Hn) f'.
  unfold ClusterShardMigration.cleanup. simpl.
  rewrite list_lookup_alter_eq, Hf. intros [= <-].
  unfold owes. simpl. by rewrite Hfin.
Qed.

Lemma accounted_exit_loop shard (w : World) :
  inside shard 0 w →
  accounted shard (ClusterShardMigration.exit_loop shard w).
Proof.
  intros Hin. unfold ClusterShardMigration.exit_loop.
  by apply accounted_cleanup, (inside_Dec shard 0).
Qed.

Lemma accounted_set_pc shard p net (w : World) :
  p ≠ PcIdle →
  net = (if decide (p = PcAttempt) then 1 else 0)%Z →
  inside shard net w → accounted shard (upd_flow shard (set_pc p) w).
Proof.
  intros Hp -> (f & Hf & Hfin & Hs & Hn) f'. simpl.
  rewrite list_lookup_alter_eq, Hf. intros [= <-].
  unfold owes. simpl. split; [by destruct p|done].
Qed.

Lemma accounted_on_tx shard tx_data (w : World) :
  inside shard 0 w →
  accounted shard (ClusterShardMigration.on_tx shard tx_data w).
Proof.
  intros Hin. unfold ClusterShardMigration.on_tx.
  pose proof (inside_ExecuteTx shard 0 tx_data w Hin) as Hexec.
  destruct (ClusterShardMigration.ExecuteTx shard tx_data w) as [err w1].
  simpl in Hexec.
  assert (accounted shard
            (upd_flow shard (set_pc PcAttempt)
               (ClusterShardMigration.Dec shard
                  (upd_flow shard (store_attempt (to_long (lsn tx_data)))
                     w)))) as Hlsn.
  { apply (accounted_set_pc shard PcAttempt 1); [done..|].
    apply (inside_Dec shard 0). by apply inside_upd_flow. }
  repeat case_match;
    first [ done
          | by apply (accounted_set_pc shard PcLoop 0)
          | apply accounted_exit_loop; auto with inside ].
Qed.

Lemma step_own shard (w : World) :
  accounted shard w → accounted shard (ClusterShardMigration.step shard w).
Proof.
  intros Hacc. unfold ClusterShardMigration.step.
  destruct (shard_flows_ w !! shard) as [f|] eqn:Hf; [|done].
  destruct (Hacc f Hf) as [Hnet Hin]. unfold owes in Hnet.
  destruct (pc f) eqn:Hpc; [done|..];
    (destruct Hin as [Hfin Hs]; [done|]).
  - (* at the head of the loop *)
    assert (inside shard 0 w) as Hinside by by exists f.
    repeat case_match.
    + by apply accounted_exit_loop.
    + eapply same_account_accounted; [|done]. auto with account.
    + by apply (accounted_set_pc shard PcRead 0).
  - (* a transaction, or the end of the stream *)
    assert (inside shard 0 w) as Hinside by by exists f.
    apply inside_NextTxData in Hinside.
    destruct (ClusterShardMigration.NextTxData shard w) as [[tx_data|] w1];
      simpl in Hinside.
    + by apply accounted_on_tx.
    + apply accounted_exit_loop. case_match; auto with inside.
  - (* the transaction after an LSN marker *)
    assert (inside shard 1 w) as Hinside by by exists f.
    apply inside_NextTxData in Hinside.
    destruct (ClusterShardMigration.NextTxData shard w) as [[tx_data|] w1];
      simpl in Hinside.
    + case_match; [by apply accounted_cleanup|].
      by apply accounted_on_tx, (inside_Add shard 1).
    + by apply accounted_cleanup.
Qed.

(** *** Every operation keeps the accounts *)

Lemma all_accounted_step shard (w : World) :
  all_accounted w → all_accounted (ClusterShardMigration.step shard w).
Proof.
  intros Hall i. destruct (decide (shard = i)) as [<-|Hne].
  - by apply step_own.
  - eapply same_account_accounted; [by apply step_other|done].
Qed.

Lemma all_accounted_enter shard source (w : World) :
  all_accounted w →
  all_accounted (ClusterShardMigration.enter shard source w).
Proof.
  intros Hall i f'. unfold ClusterShardMigration.enter.
  destruct (shard_flows_ w !! shard) as [f|] eqn:Hf; [|apply Hall].
  destruct (is_finished_ f) eqn:Hfin; [apply Hall|].
  destruct (Hall shard f Hf) as [Hnet Hin].
  destruct (decide (shard = i)) as [<-|Hne]; simpl.
  - rewrite list_lookup_alter_eq, Hf. intros [= <-].
    unfold owes in *. simpl.
    destruct (pc f); [by rewrite Hfin in Hnet|..];
      destruct Hin as [Hfin' _]; congruence.
  - rewrite list_lookup_alter_ne by done. apply Hall.
Qed.

Lemma all_accounted_flow_Pause shard pause (w : World) :
  all_accounted w →
  all_accounted (ClusterShardMigration.Pause shard pause w).
Proof.
  intros Hall i f'. unfold ClusterShardMigration.Pause. simpl.
  destruct (decide (shard = i)) as [<-|Hne].
  - rewrite list_lookup_alter_eq.
    destruct (shard_flows_ w !! shard) as [f|] eqn:Hf; [|done].
    intros [= <-]. apply (Hall shard f Hf).
  - rewrite list_lookup_alter_ne by done. apply Hall.
Qed.

Lemma all_accounted_Pause pause (w : World) :
  all_accounted w → all_accounted (IncomingSlotMigration.Pause pause w).
Proof.
  unfold IncomingSlotMigration.Pause.
  generalize (seq 0 (length (shard_flows_ w))). intros shards.
  revert w. induction shards as [|shard shards IH]; intros w Hall; simpl;
    [done|].
  by apply IH, all_accounted_flow_Pause.
Qed.

Lemma Cancel_own shard (w : World) :
  accounted shard w → accounted shard (ClusterShardMigration.Cancel shard w).2.
Proof.
  intros Hacc f'. unfold ClusterShardMigration.Cancel.
  destruct (shard_flows_ w !! shard) as [f|] eqn:Hf; [|apply Hacc].
  destruct (Hacc f Hf) as [Hnet Hin]. unfold owes in Hnet.
  destruct (socket_ f) as [s|] eqn:Hs.
  - destruct (sock_open s); simpl; [|apply Hacc].
    destruct (shutdown_result s =? 0)%Z; simpl;
      rewrite list_lookup_alter_eq, Hf; intros [= <-];
      rewrite ?net_decrements_app; simpl;
      (split; [unfold owes; simpl; lia|]);
      intros [Hfin _]%Hin; eauto.
  - destruct (is_finished_ f) eqn:Hfin; simpl; [apply Hacc|].
    rewrite list_lookup_alter_eq, Hf. intros [= <-].
    rewrite net_decrements_app. simpl. rewrite decide_True by done.
    destruct (pc f) eqn:Hpc;
      try (destruct Hin as [? _]; [done|congruence]).
    unfold owes. simpl. rewrite Hpc. split; [lia|done].
Qed.

Lemma all_accounted_Cancel shard (w : World) :
  all_accounted w → all_accounted (ClusterShardMigration.Cancel shard w).2.
Proof.
  intros Hall i. destruct (decide (shard = i)) as [<-|Hne].
  - by apply Cancel_own.
  - eapply same_account_accounted; [by apply Cancel_other_account|done].
Qed.

(** Updates that leave the flows alone and add nothing to the trace that
    touches the latch. *)
Lemma all_accounted_same (w w' : World) :
  shard_flows_ w' = shard_flows_ w →
  (∀ shard, net_decrements shard (trace w')
            = net_decrements shard (trace w)) →
  all_accounted w → all_accounted w'.
Proof. intros Hf Hn Hall shard f. rewrite Hf, Hn. apply Hall. Qed.

Lemma all_accounted_act a (w : World) :
  all_accounted w → all_accounted (IncomingSlotMigration.act a w).
Proof.
  destruct a; simpl;
    auto using all_accounted_enter, all_accounted_step, all_accounted_Pause.
Qed.

Lemma all_accounted_until_zero acts (w : World) :
  all_accounted w →
  all_accounted (IncomingSlotMigration.until_zero acts w).2.
Proof.
  revert w. induction acts as [|a acts IH]; intros w Hall; simpl.
  - by case_match.
  - case_match; [done|]. by apply IH, all_accounted_act.
Qed.

Lemma all_accounted_WaitFor ms env (w : World) :
  all_accounted w →
  all_accounted (IncomingSlotMigration.WaitFor ms env w).2.
Proof.
  intros Hall. rewrite WaitFor_spec. simpl.
  eapply all_accounted_same;
    [| |apply (all_accounted_until_zero (others env) w Hall)]; [done|].
  intros shard. simpl. rewrite net_decrements_app. simpl. lia.
Qed.

Lemma all_accounted_Join_iteration attempt start env (w : World) :
  all_accounted w →
  all_accounted (IncomingSlotMigration.Join_iteration attempt start env w).2.
Proof.
  intros Hall.
  destruct (Z.leb_spec
              (Milliseconds (FLAGS_migration_finalization_timeout_ms w))
              (Now w - start)) as [Hle|Hlt].
  { unfold IncomingSlotMigration.Join_iteration.
    destruct (Z.leb_spec
                (Milliseconds (FLAGS_migration_finalization_timeout_ms w))
                (Now w - start)); [|lia]. simpl.
    eapply all_accounted_same; [| |apply Hall]; [done|].
    intros shard. simpl. rewrite !net_decrements_app. simpl. lia. }
  destruct (decide (GetState w = C_FATAL)) as [Hfatal|Hstate].
  { unfold IncomingSlotMigration.Join_iteration.
    destruct (Z.leb_spec
                (Milliseconds (FLAGS_migration_finalization_timeout_ms w))
                (Now w - start)); [lia|].
    by destruct (decide (GetState w = C_FATAL)). }
  rewrite (Join_iteration_waits attempt start env w Hlt Hstate). simpl.
  set (r := IncomingSlotMigration.WaitFor _ env w).
  assert (all_accounted r.2) as Hr by by apply all_accounted_WaitFor.
  destruct (forallb _ _); [|done].
  destruct r.1; simpl;
    (eapply all_accounted_same; [| |apply Hr]; [done|]);
    intros shard; simpl; rewrite ?net_decrements_app; simpl; lia.
Qed.

Lemma all_accounted_Join_loop attempt start script (w : World) :
  all_accounted w →
  all_accounted (IncomingSlotMigration.Join_loop attempt start script w).2.
Proof.
  revert w. induction script as [|env script IH]; intros w Hall; simpl;
    [done|].
  pose proof (all_accounted_Join_iteration attempt start env w Hall) as Hit.
  destruct (IncomingSlotMigration.Join_iteration attempt start env w)
    as [[res|] w1]; simpl in *; [done|by apply IH].
Qed.

Lemma all_accounted_Stop_cancel (w : World) :
  all_accounted w → all_accounted (IncomingSlotMigration.Stop_cancel w).
Proof.
  intros Hall. unfold IncomingSlotMigration.Stop_cancel,
    IncomingSlotMigration.cancel_flows.
  set (w2 := emit EvCntxCancel _).
  assert (all_accounted w2) as Hall2.
  { eapply all_accounted_same; [| |apply Hall]; [done|].
    intros shard. subst w2. simpl. rewrite !net_decrements_app. simpl. lia. }
  generalize (seq 0 (length (shard_flows_ w2))). intros shards.
  clearbody w2. clear Hall. revert w2 Hall2.
  induction shards as [|shard shards IH]; intros w2 Hall2; simpl; [done|].
  by apply IH, all_accounted_Cancel.
Qed.

Lemma all_accounted_Stop_loop start script (w : World) :
  all_accounted w →
  all_accounted (IncomingSlotMigration.Stop_loop start script w).2.
Proof.
  revert w. induction script as [|env script IH]; intros w Hall; simpl;
    [done|].
  rewrite Stop_iteration_spec. simpl.
  pose proof (all_accounted_WaitFor
                (ToInt64Milliseconds
                   (Milliseconds (FLAGS_migration_finalization_timeout_ms w)
                    - (Now w - start))%Z) env w Hall) as Hwait.
  repeat case_match; simplify_eq/=; try done; [|by apply IH].
  eapply all_accounted_same; [| |apply Hwait]; [done|].
  intros shard. simpl. rewrite net_decrements_app. simpl. lia.
Qed.

Lemma all_accounted_Stop script (w : World) :
  all_accounted w → all_accounted (IncomingSlotMigration.Stop script w).2.
Proof.
  intros Hall%all_accounted_Stop_cancel. unfold IncomingSlotMigration.Stop.
  case_match; [done|]. by apply all_accounted_Stop_loop.
Qed.

Lemma all_accounted_perform a (w : World) :
  all_accounted w → all_accounted (perform a w).
Proof.
  intros Hall. destruct a as [a|shard|attempt script|script|d]; simpl.
  - by apply all_accounted_act.
  - by apply all_accounted_Cancel.
  - by apply all_accounted_Join_loop.
  - by apply all_accounted_Stop.
  - by eapply all_accounted_same; [| |apply Hall].
Qed.

Lemma all_accounted_Init shards_num (w : World) :
  all_accounted (IncomingSlotMigration.Init shards_num w).
Proof.
  intros shard f. simpl. rewrite list_lookup_fmap.
  destruct (seq 0 shards_num !! shard); simpl; [|done].
  by intros [= <-].
Qed.

Lemma all_accounted_history acts (w : World) :
  all_accounted w → all_accounted (history acts w).
Proof.
  unfold history. revert w.
  induction acts as [|a acts IH]; intros w Hall; simpl; [done|].
  by apply IH, all_accounted_perform.
Qed.


End Latch_facts.

Section Oom_facts.
Context `{!ExecutionState.Ops, !JournalExecutor.Ops, !cluster.Ops}.

Lemma oom_free_nil shard : oom_free shard [].
Proof. constructor. Qed.

Lemma oom_free_app shard evs1 evs2 :
  oom_free shard evs1 → oom_free shard evs2 → oom_free shard (evs1 ++ evs2).
Proof. apply Forall_app_2. Qed.

Lemma oom_free_not_elem shard db cmd evs :
  oom_free shard evs → EvExecute shard db cmd not_enough_memory ∉ evs.
Proof.
  intros Hfree Hin. eapply Forall_forall in Hfree; [|exact Hin].
  simpl in Hfree. by rewrite bool_decide_eq_true_2 in Hfree.
Qed.

(** [ExecuteTx] writes an out-of-memory call to the trace exactly when it
    returns [not_enough_memory], and leaves the context and the state
    alone then. *)
Lemma ExecuteTx_oom shard tx_data (w : World) :
  let r := ClusterShardMigration.ExecuteTx shard tx_data w in
  shard_flows_ r.2 = shard_flows_ w
  ∧ ∃ evs, trace r.2 = trace w ++ evs
    ∧ if (r.1 =? not_enough_memory)%Z
      then evs = [EvExecute shard (dbid tx_data) (command tx_data)
                    not_enough_memory]
           ∧ cntx_ r.2 = cntx_ w
      else oom_free shard evs.
Proof.
  unfold ClusterShardMigration.ExecuteTx.
  destruct (ExecutionState.IsRunning (cntx_ w)); simpl;
    [|split; [done|]; exists []; rewrite app_nil_r; split;
      [done|apply oom_free_nil]].
  destruct (cluster.IsGlobalCmd tx_data); simpl.
  - split; [done|]. eexists. rewrite <- !app_assoc. split; [done|].
    by repeat constructor.
  - destruct (JournalExecutor.Execute _ _ _) as [ec service]. simpl.
    split; [done|]. eexists. split; [done|].
    destruct (Z.eqb_spec ec not_enough_memory) as [->|Hne]; [done|].
    repeat constructor. simpl.
    apply andb_false_intro2. by apply Z.eqb_neq.
Qed.

Lemma out_of_Start_cleanup shard (w : World) :
  out_of_Start shard (ClusterShardMigration.cleanup shard w).
Proof.
  intros f. unfold ClusterShardMigration.cleanup. simpl.
  rewrite list_lookup_alter_eq.
  destruct (shard_flows_ w !! shard); simpl; [|done]. by intros [= <-].
Qed.

Lemma on_tx_oom shard tx_data (w : World) :
  ∃ evs, trace (ClusterShardMigration.on_tx shard tx_data w) = trace w ++ evs
    ∧ (oom_free shard evs
       ∨ evs = oom_tail shard (dbid tx_data) (command tx_data)
         ∧ state_ (ClusterShardMigration.on_tx shard tx_data w) = C_FATAL
         ∧ cntx_ (ClusterShardMigration.on_tx shard tx_data w)
           = ExecutionState.ReportError cluster.kIncomingMigrationOOM
               (cntx_ w)
         ∧ out_of_Start shard
             (ClusterShardMigration.on_tx shard tx_data w)).
Proof.
  assert (∃ evs,
            trace (upd_flow shard (set_pc PcLoop) w) = trace w ++ evs
            ∧ oom_free shard evs) as Hping.
  { exists []. simpl. rewrite app_nil_r. split; [done|apply oom_free_nil]. }
  destruct (decide (opcode tx_data = journal.LSN)) as [Hlsn|Hlsn].
  { unfold ClusterShardMigration.on_tx. rewrite Hlsn. simpl.
    eexists. split; [done|]. left. by repeat constructor. }
  destruct (decide (opcode tx_data = journal.PING)) as [Hping'|Hdata].
  { unfold ClusterShardMigration.on_tx. rewrite Hping'.
    destruct Hping as (evs & ? & ?). eauto. }
  rewrite on_tx_data by done.
  destruct (ExecuteTx_oom shard tx_data w) as (Hflows & evs & Htrace & Hevs).
  destruct (ClusterShardMigration.ExecuteTx shard tx_data w) as [err w1].
  simpl in *.
  destruct (err =? not_enough_memory)%Z.
  - destruct Hevs as [-> Hcntx].
    eexists. split.
    { unfold ClusterShardMigration.exit_loop. simpl. rewrite Htrace.
      rewrite <- !app_assoc. reflexivity. }
    right. split; [done|]. split; [done|]. split.
    + simpl. by rewrite Hcntx.
    + apply out_of_Start_cleanup.
  - exists evs. simpl. split; [done|by left].
Qed.

Lemma NextTxData_oom shard (w : World) :
  let r := ClusterShardMigration.NextTxData shard w in
  state_ r.2 = state_ w
  ∧ ∃ evs, trace r.2 = trace w ++ evs ∧ oom_free shard evs.
Proof.
  unfold ClusterShardMigration.NextTxData.
  repeat case_match; simpl; (split; [done|]);
    first [ exists []; rewrite app_nil_r; split; [done|apply oom_free_nil]
          | eexists; split; [done|by repeat constructor] ].
Qed.

Lemma exit_loop_oom shard (w : World) :
  ∃ evs, trace (ClusterShardMigration.exit_loop shard w) = trace w ++ evs
    ∧ oom_free shard evs.
Proof. eexists. split; [done|]. by repeat constructor. Qed.

(** One step of a flow. *)
Lemma step_oom shard (w : World) :
  ∃ evs, trace (ClusterShardMigration.step shard w) = trace w ++ evs
    ∧ oom_outcome shard evs (ClusterShardMigration.step shard w).
Proof.
  assert (∃ evs, trace w = trace w ++ evs ∧ oom_outcome shard evs w)
    as Hsame.
  { exists []. rewrite app_nil_r. split; [done|]. left. apply oom_free_nil. }
  unfold ClusterShardMigration.step.
  destruct (shard_flows_ w !! shard) as [f|]; [|done].
  destruct (pc f); [done|..].
  - (* at the head of the loop *)
    destruct (ExecutionState.IsRunning (cntx_ w)); simpl.
    + destruct (pause_ f).
      * eexists. split; [done|]. left. by repeat constructor.
      * exists []. simpl. rewrite app_nil_r. split; [done|].
        left. apply oom_free_nil.
    + destruct (exit_loop_oom shard w) as (evs & ? & ?).
      exists evs. split; [done|by left].
  - (* a transaction, or the end of the stream *)
    destruct (NextTxData_oom shard w) as (_ & evs1 & Htrace1 & Hfree1).
    destruct (ClusterShardMigration.NextTxData shard w) as [[tx_data|] w1];
      simpl in *.
    + destruct (on_tx_oom shard tx_data w1) as (evs2 & Htrace2 & Hevs2).
      exists (evs1 ++ evs2). rewrite Htrace2, Htrace1, app_assoc.
      split; [done|].
      destruct Hevs2 as [Hfree2|(-> & Hstate & Hcntx & Hout)].
      * left. by apply oom_free_app.
      * right. by exists evs1, (dbid tx_data), (command tx_data), (cntx_ w1).
    + destruct (ExecutionState.GetError (cntx_ w1)); simpl;
        eexists; (split; [rewrite Htrace1, <- ?app_assoc; done|]);
        left; apply oom_free_app; try done; by repeat constructor.
  - (* the transaction after an LSN marker *)
    destruct (NextTxData_oom shard w) as (_ & evs1 & Htrace1 & Hfree1).
    destruct (ClusterShardMigration.NextTxData shard w) as [[tx_data|] w1];
      simpl in *.
    + destruct (decide (GetState w1 = C_FATAL)).
      * exists evs1. split; [done|by left].
      * destruct (on_tx_oom shard tx_data (ClusterShardMigration.Add shard w1))
          as (evs2 & Htrace2 & Hevs2).
        exists (evs1 ++ [EvLatchAdd shard] ++ evs2).
        rewrite Htrace2. simpl. rewrite Htrace1, <- !app_assoc.
        split; [done|].
        destruct Hevs2 as [Hfree2|(-> & Hstate & Hcntx & Hout)].
        -- left. apply oom_free_app; [done|]. by constructor.
        -- right. exists (evs1 ++ [EvLatchAdd shard]), (dbid tx_data),
             (command tx_data), (cntx_ w1).
           rewrite <- app_assoc. repeat split; try done.
           apply oom_free_app; [done|by repeat constructor].
    + exists evs1. split; [done|by left].
Qed.

Lemma run_out_of_Start fuel shard (w : World) :
  out_of_Start shard w →
  ClusterShardMigration.run fuel shard w = (Some (), w).
Proof.
  intros Hout. destruct fuel; simpl;
    destruct (shard_flows_ w !! shard) as [f|] eqn:Hf; try done;
    by rewrite (Hout f Hf).
Qed.

(** A run of the flow on its own: however much fuel it is given, an
    out-of-memory answer within the run means the run is over. *)
Lemma run_oom fuel shard (w : World) :
  let r := ClusterShardMigration.run fuel shard w in
  ∃ evs, trace r.2 = trace w ++ evs
    ∧ (oom_free shard evs ∨ r.1 = Some () ∧ oom_outcome shard evs r.2).
Proof.
  assert (∀ (w : World) res, ∃ evs, trace w = trace w ++ evs
            ∧ (oom_free shard evs
               ∨ res = Some () ∧ oom_outcome shard evs w)) as Hsame.
  { intros w' res. exists []. rewrite app_nil_r. split; [done|].
    left. apply oom_free_nil. }
  revert w. induction fuel as [|fuel IH]; intros w; simpl.
  - destruct (shard_flows_ w !! shard) as [f|]; [|apply Hsame].
    destruct (pc f); apply Hsame.
  - destruct (shard_flows_ w !! shard) as [f|]; [|apply Hsame].
    destruct (pc f) eqn:Hpc; [apply Hsame|..];
      (destruct (step_oom shard w) as (evs1 & Htrace1 & Hout1);
       destruct Hout1
         as [Hfree1|(before & db & cmd & c & -> & Hfree & Hstate & Hcntx
                     & Hout)];
       [ destruct (IH (ClusterShardMigration.step shard w))
           as (evs2 & Htrace2 & Hevs2);
         exists (evs1 ++ evs2); rewrite Htrace2, Htrace1, app_assoc;
         split; [done|];
         destruct Hevs2
           as [Hfree2|[Hret [Hfree2|(before & db & cmd & c & -> & Hfree
                                     & Hstate & Hcntx & Hout)]]];
         [ left; by apply oom_free_app
         | left; by apply oom_free_app
         | right; split; [done|]; right;
           exists (evs1 ++ before), db, cmd, c;
           rewrite <- app_assoc; repeat split; try done;
           by apply oom_free_app ]
       | rewrite run_out_of_Start by done;
         eexists; split; [done|]; right; split; [done|]; right;
         by exists before, db, cmd, c ]).
Qed.

(** When the executor answers a transaction of a flow with
    [not_enough_memory] and no other fiber runs until [StartFlow] has
    tested the state, that call is the last thing the flow does with the
    stream.  [Start] returns (whatever fuel it was given: the answer ends
    the read loop); its trace ends with the executor call, the report of
    the out-of-memory error on the flow's execution context, its fatal
    report on the coordinator, and the decrement that follows the loop.
    The migration is then in [C_FATAL], and [StartFlow] goes on to call
    [Stop]. *)
Theorem oom_escalates fuel shard source script db cmd new (w : World) :
  let r := ClusterShardMigration.Start fuel shard source w in
  trace r.2 = trace w ++ new →
  EvExecute shard db cmd not_enough_memory ∈ new →
  r.1 = Some ()
  ∧ (∃ before, new = before ++ oom_tail shard db cmd)
  ∧ (∃ c, cntx_ r.2
          = ExecutionState.ReportError cluster.kIncomingMigrationOOM c)
  ∧ state_ r.2 = C_FATAL
  ∧ out_of_Start shard r.2
  ∧ IncomingSlotMigration.StartFlow fuel shard source script w
    = IncomingSlotMigration.Stop script r.2.
Proof.
  intros r Htrace Hin.
  assert (∃ evs, trace r.2 = trace w ++ evs
            ∧ (oom_free shard evs
               ∨ r.1 = Some () ∧ oom_outcome shard evs r.2))
    as (evs & Htrace' & Hevs).
  { subst r. unfold ClusterShardMigration.Start.
    destruct (shard_flows_ w !! shard) as [f|] eqn:Hf.
    - destruct (is_finished_ f) eqn:Hfin.
      + exists []. simpl. rewrite app_nil_r. split; [done|].
        left. apply oom_free_nil.
      + destruct (run_oom fuel shard
                    (ClusterShardMigration.enter shard source w))
          as (evs & Htrace' & Hevs).
        exists evs. split; [|done]. rewrite Htrace'.
        unfold ClusterShardMigration.enter. by rewrite Hf, Hfin.
    - exists []. simpl. rewrite app_nil_r. split; [done|].
      left. apply oom_free_nil. }
  rewrite Htrace in Htrace'. apply app_inv_head in Htrace' as <-.
  destruct Hevs as [Hfree|[Hret [Hfree|Hoom]]];
    try by apply (oom_free_not_elem shard db cmd) in Hfree.
  destruct Hoom
    as (before & db' & cmd' & c & -> & Hfree & Hstate & Hcntx & Hout).
  apply elem_of_app in Hin as [Hin|Hin].
  { by apply (oom_free_not_elem shard db cmd) in Hfree. }
  unfold oom_tail in Hin.
  apply elem_of_cons in Hin as [[= <- <-]|Hin].
  2:{ repeat (apply elem_of_cons in Hin as [?|Hin]; [discriminate|]).
      by apply elem_of_nil in Hin. }
  split; [done|]. split; [by exists before|]. split; [by exists c|].
  split; [done|]. split; [done|].
  unfold IncomingSlotMigration.StartFlow. fold r.
  destruct r as [res w1]. simpl in *. subst res.
  unfold GetState. rewrite Hstate.
  by destruct (decide (C_FATAL = C_FATAL)).
Qed.

End Oom_facts.

(** [oom_escalates] on the stand-ins: scenario 3 of the specification, a
    service with room for one command and two SETs on the stream. *)
Lemma oom_escalates_witness :
  let w := IncomingSlotMigration.Init 2 (fresh 1) in
  let source := socket_with [RdTx (cmd ["SET"; "a"; "1"]);
                             RdTx (cmd ["SET"; "b"; "2"])] in
  let set_b := {| cmd_args := ["SET"; "b"; "2"] |} in
  let new := [EvExecute 0 0 {| cmd_args := ["SET"; "a"; "1"] |} 0%Z;
              EvExecute 0 0 set_b not_enough_memory;
              EvCntxReportError "Out of memory";
              EvReportFatalError "Out of memory";
              EvLatchDec 0] in
  let r := ClusterShardMigration.Start 10 0 source w in
  (trace r.2 = trace w ++ new
   ∧ EvExecute 0 0 set_b not_enough_memory ∈ new)
  ∧ r.1 = Some ()
  ∧ (∃ before, new = before ++ oom_tail 0 0 set_b)
  ∧ (∃ c, cntx_ r.2 = ExecutionState.ReportError "Out of memory" c)
  ∧ state_ r.2 = C_FATAL
  ∧ out_of_Start 0 r.2
  ∧ IncomingSlotMigration.StartFlow 10 0 source [] w
    = IncomingSlotMigration.Stop [] r.2.
Proof.
  intros w source set_b new r.
  assert (trace r.2 = trace w ++ new) as Htrace by by vm_compute.
  assert (EvExecute 0 0 set_b not_enough_memory ∈ new) as Hin.
  { apply elem_of_cons. right. apply elem_of_cons. by left. }
  split; [done|].
  exact (oom_escalates 10 0 source [] 0 set_b new w Htrace Hin).
Defined.


(** ** [Start] returns *)
Section Returns.
Context `{!ExecutionState.Ops, !JournalExecutor.Ops, !cluster.Ops}.

(** One run of a flow that is not paused brings it closer to the end of
    [Start], and leaves [pause_] as it is. *)
Lemma step_steps_left shard f (w : World) :
  shard_flows_ w !! shard = Some f →
  pause_ f = false →
  pc f ≠ PcIdle →
  ∃ f', shard_flows_ (ClusterShardMigration.step shard w) !! shard = Some f'
    ∧ pause_ f' = false
    ∧ steps_left f' < steps_left f.
Proof.
  intros Hf Hpause Hpc.
  unfold ClusterShardMigration.step, ClusterShardMigration.on_tx,
    ClusterShardMigration.NextTxData, ClusterShardMigration.ExecuteTx,
    ClusterShardMigration.exit_loop, ClusterShardMigration.cleanup.
  rewrite Hf.
  destruct f as [id fin [[op sh res info inc]|] la pa p];
    simpl in *; subst pa;
    destruct p; try done;
    repeat (case_match; simplify_eq/=);
    repeat (rewrite ?list_lookup_alter_eq; simpl; rewrite ?Hf; simpl);
    eexists; (split; [reflexivity|]); (split; [done|]);
    unfold steps_left; simpl; lia.
Qed.

Lemma run_returns fuel : ∀ shard f (w : World),
  shard_flows_ w !! shard = Some f →
  pause_ f = false →
  steps_left f ≤ fuel →
  (ClusterShardMigration.run fuel shard w).1 = Some ().
Proof.
  induction fuel as [|fuel IH]; intros shard f w Hf Hpause Hle; simpl;
    rewrite Hf.
  - unfold steps_left in Hle. destruct (pc f); [done|lia..].
  - destruct (decide (pc f = PcIdle)) as [->|Hpc]; [done|].
    destruct (step_steps_left shard f w Hf Hpause Hpc)
      as (f' & Hf' & Hpause' & Hlt).
    destruct (pc f); [done|..]; apply (IH shard f'); try done; lia.
Qed.

(** [Start] returns: a flow that is not paused leaves [Start] within two
    runs for each result on its stream and two more.  A flow that is
    cancelled or was started before returns at once. *)
Theorem Start_returns fuel shard source (w : World) :
  (∀ f, shard_flows_ w !! shard = Some f → pause_ f = false) →
  2 * length (incoming source) + 2 ≤ fuel →
  (ClusterShardMigration.Start fuel shard source w).1 = Some ().
Proof.
  intros Hpause Hfuel. unfold ClusterShardMigration.Start.
  destruct (shard_flows_ w !! shard) as [f|] eqn:Hf; [|done].
  destruct (is_finished_ f) eqn:Hfin; [done|].
  apply (run_returns fuel shard (begin_flow source f)).
  - unfold ClusterShardMigration.enter. rewrite Hf, Hfin.
    by rewrite lookup_upd_flow, Hf.
  - simpl. by apply Hpause.
  - unfold steps_left. simpl. lia.
Qed.

End Returns.

(** [Start_returns] on the stand-ins: scenario 1 of the specification, three
    results on the stream and eight runs. *)
Lemma Start_returns_witness :
  let w := IncomingSlotMigration.Init 1 (fresh 5) in
  let source := socket_with [RdTx (cmd ["SET"; "a"; "1"]);
                             RdTx (cmd ["SET"; "b"; "2"]);
                             RdTx (lsn_marker 2%Z)] in
  ((∀ f, shard_flows_ w !! 0 = Some f → pause_ f = false)
   ∧ 2 * length (incoming source) + 2 ≤ 8)
  ∧ (ClusterShardMigration.Start 8 0 source w).1 = Some ().
Proof.
  intros w source.
  assert (∀ f, shard_flows_ w !! 0 = Some f → pause_ f = false) as Hpause
    by (intros f Hf; vm_compute in Hf; by simplify_eq).
  assert (2 * length (incoming source) + 2 ≤ 8) as Hfuel by (simpl; lia).
  split; [done|].
  exact (Start_returns 8 0 source w Hpause Hfuel).
Defined.

(** ** The latch and what the flows owe it *)
Section Ledger.
Context `{!ExecutionState.Ops, !JournalExecutor.Ops, !cluster.Ops}.

Lemma latch_debt_alter g i flows :
  latch_debt (alter g i flows)
  = (latch_debt flows
     + from_option (λ f, owes (g f) - owes f) 0 (flows !! i))%Z.
Proof.
  unfold latch_debt. revert i.
  induction flows as [|f flows IH]; intros [|i]; simpl; [done..|lia|].
  specialize (IH i). unfold alter in IH. lia.
Qed.

(** A flow owes nothing or one decrement, so the debt of [n] flows is [n]
    exactly when each of them owes one. *)
Lemma latch_debt_full flows :
  (0 ≤ latch_debt flows ≤ Z.of_nat (length flows))%Z
  ∧ (latch_debt flows = Z.of_nat (length flows)
     ↔ Forall (λ f, owes f = 1%Z) flows).
Proof.
  unfold latch_debt. induction flows as [|f flows [IHle IHeq]]; simpl.
  - split; [lia|]. split; [by constructor|done].
  - assert (owes f = 0 ∨ owes f = 1)%Z as Howes
      by (unfold owes; repeat case_match; auto).
    split; [lia|]. rewrite Forall_cons, <- IHeq. lia.
Qed.

Lemma same_ledger_refl (w : World) : same_ledger w w.
Proof. done. Qed.

Lemma same_ledger_trans (w1 w2 w3 : World) :
  same_ledger w1 w2 → same_ledger w2 w3 → same_ledger w1 w3.
Proof. intros [? ?] [? ?]. split; congruence. Qed.

(** Updates that touch neither the latch nor the flows. *)
Lemma same_ledger_same (w w' : World) :
  shard_flows_ w' = shard_flows_ w → bc_ w' = bc_ w → same_ledger w w'.
Proof. intros Hf Hbc. unfold same_ledger, latch_ledger. by rewrite Hf, Hbc. Qed.

(** *** The flows *)

Lemma same_ledger_step shard (w : World) :
  accounted shard w → same_ledger w (ClusterShardMigration.step shard w).
Proof.
  intros Hacc. split; [by destruct (same_frame_step shard w) as (_&_&_&?&_)|].
  unfold ClusterShardMigration.step, ClusterShardMigration.on_tx,
    ClusterShardMigration.NextTxData, ClusterShardMigration.ExecuteTx,
    ClusterShardMigration.exit_loop, ClusterShardMigration.cleanup.
  destruct (shard_flows_ w !! shard) as [f|] eqn:Hf; [|done].
  destruct (Hacc f Hf) as [_ Hin].
  destruct f as [id fin so la pa p]; simpl in *.
  destruct p; [done|..];
    (destruct Hin as [-> [s ->]]; [done|]);
    repeat (case_match; simplify_eq/=);
    unfold latch_ledger; simpl;
    repeat (rewrite ?latch_debt_alter, ?list_lookup_alter_eq; simpl;
            rewrite ?Hf; simpl);
    unfold owes; simpl; lia.
Qed.

Lemma same_ledger_enter shard source (w : World) :
  accounted shard w →
  same_ledger w (ClusterShardMigration.enter shard source w).
Proof.
  intros Hacc.
  split; [by destruct (same_frame_enter shard source w) as (_&_&_&?&_)|].
  unfold ClusterShardMigration.enter.
  destruct (shard_flows_ w !! shard) as [f|] eqn:Hf; [|done].
  destruct (is_finished_ f) eqn:Hfin; [done|].
  destruct (Hacc f Hf) as [_ Hin].
  unfold latch_ledger. simpl. rewrite latch_debt_alter, Hf. simpl.
  unfold owes. simpl. rewrite Hfin.
  destruct (pc f); [lia|..]; destruct Hin as [? _]; congruence.
Qed.

Lemma same_ledger_Pause pause (w : World) :
  same_ledger w (IncomingSlotMigration.Pause pause w).
Proof.
  unfold IncomingSlotMigration.Pause.
  generalize (seq 0 (length (shard_flows_ w))). intros shards.
  revert w. induction shards as [|shard shards IH]; intros w; simpl; [done|].
  eapply same_ledger_trans; [|apply IH].
  unfold ClusterShardMigration.Pause, same_ledger, latch_ledger. simpl.
  rewrite length_alter, latch_debt_alter.
  split; [done|]. destruct (shard_flows_ w !! shard); simpl; [|lia].
  unfold owes. simpl. lia.
Qed.

Lemma same_ledger_Cancel shard (w : World) :
  accounted shard w →
  same_ledger w (ClusterShardMigration.Cancel shard w).2.
Proof.
  intros Hacc.
  split; [by destruct (same_frame_Cancel shard w) as (_&_&_&?&_)|].
  unfold ClusterShardMigration.Cancel.
  destruct (shard_flows_ w !! shard) as [f|] eqn:Hf; [|done].
  destruct (Hacc f Hf) as [_ Hin].
  destruct (socket_ f) as [s|] eqn:Hs.
  - repeat case_match; unfold latch_ledger; simpl; try done;
      rewrite latch_debt_alter, Hf; simpl; unfold owes; simpl; lia.
  - destruct (is_finished_ f) eqn:Hfin; [done|].
    unfold latch_ledger. simpl. rewrite latch_debt_alter, Hf. simpl.
    unfold owes. simpl. rewrite Hfin.
    destruct (pc f); [lia|..]; destruct Hin as [_ [? ?]]; done.
Qed.

(** *** The coordinator *)

Lemma same_ledger_act a (w : World) :
  all_accounted w → same_ledger w (IncomingSlotMigration.act a w).
Proof.
  intros Hall. destruct a; simpl;
    auto using same_ledger_enter, same_ledger_step, same_ledger_Pause.
Qed.

Lemma same_ledger_until_zero acts (w : World) :
  all_accounted w →
  same_ledger w (IncomingSlotMigration.until_zero acts w).2.
Proof.
  revert w. induction acts as [|a acts IH]; intros w Hall; simpl.
  - by case_match.
  - case_match; [done|].
    eapply same_ledger_trans; [by apply same_ledger_act|].
    by apply IH, all_accounted_act.
Qed.

Lemma same_ledger_WaitFor ms env (w : World) :
  all_accounted w →
  same_ledger w (IncomingSlotMigration.WaitFor ms env w).2.
Proof.
  intros Hall. rewrite WaitFor_spec. simpl.
  eapply same_ledger_trans; [by apply (same_ledger_until_zero (others env))|].
  by apply same_ledger_same.
Qed.

Lemma same_ledger_Join_loop attempt start script (w : World) :
  all_accounted w →
  same_ledger w (IncomingSlotMigration.Join_loop attempt start script w).2.
Proof.
  revert w. induction script as [|env script IH]; intros w Hall; simpl;
    [done|].
  pose proof (all_accounted_Join_iteration attempt start env w Hall) as Hacc.
  assert (same_ledger w
            (IncomingSlotMigration.Join_iteration attempt start env w).2)
    as Hit.
  { unfold IncomingSlotMigration.Join_iteration.
    repeat case_match; simplify_eq/=; try done;
      match goal with
      | Hw : IncomingSlotMigration.WaitFor ?ms env w = (_, ?w1) |- _ =>
          pose proof (same_ledger_WaitFor ms env w Hall) as Hwait;
          rewrite Hw in Hwait
      end;
      (eapply same_ledger_trans; [apply Hwait|]); by apply same_ledger_same. }
  destruct (IncomingSlotMigration.Join_iteration attempt start env w)
    as [[res|] w1]; simpl in *; [done|].
  eapply same_ledger_trans; [apply Hit|by apply IH].
Qed.

Lemma same_ledger_Stop_cancel (w : World) :
  all_accounted w → same_ledger w (IncomingSlotMigration.Stop_cancel w).
Proof.
  intros Hall. unfold IncomingSlotMigration.Stop_cancel,
    IncomingSlotMigration.cancel_flows.
  set (w2 := emit EvCntxCancel _).
  assert (all_accounted w2) as Hall2.
  { eapply all_accounted_same; [| |apply Hall]; [done|].
    intros shard. subst w2. simpl. rewrite !net_decrements_app. simpl. lia. }
  apply (same_ledger_trans w w2); [by apply same_ledger_same|].
  generalize (seq 0 (length (shard_flows_ w2))). intros shards.
  clearbody w2. clear Hall. revert w2 Hall2.
  induction shards as [|shard shards IH]; intros w2 Hall2; simpl; [done|].
  eapply same_ledger_trans; [by apply same_ledger_Cancel|].
  by apply IH, all_accounted_Cancel.
Qed.

Lemma same_ledger_Stop_loop start script (w : World) :
  all_accounted w →
  same_ledger w (IncomingSlotMigration.Stop_loop start script w).2.
Proof.
  revert w. induction script as [|env script IH]; intros w Hall; simpl;
    [done|].
  rewrite Stop_iteration_spec. simpl.
  set (ms := ToInt64Milliseconds _).
  pose proof (same_ledger_WaitFor ms env w Hall) as Hwait.
  pose proof (all_accounted_WaitFor ms env w Hall) as Hacc.
  destruct (IncomingSlotMigration.WaitFor ms env w) as [res w1].
  simpl in *. destruct res; simpl; [done|].
  destruct (_ <=? _)%Z; simpl.
  - eapply same_ledger_trans; [apply Hwait|by apply same_ledger_same].
  - eapply same_ledger_trans; [apply Hwait|by apply IH].
Qed.

Lemma same_ledger_Stop script (w : World) :
  all_accounted w → same_ledger w (IncomingSlotMigration.Stop script w).2.
Proof.
  intros Hall. unfold IncomingSlotMigration.Stop.
  pose proof (same_ledger_Stop_cancel w Hall) as Hcancel.
  case_match; [done|].
  eapply same_ledger_trans; [apply Hcancel|].
  by apply same_ledger_Stop_loop, all_accounted_Stop_cancel.
Qed.

Lemma same_ledger_perform a (w : World) :
  all_accounted w → same_ledger w (perform a w).
Proof.
  intros Hall. destruct a as [a|shard|attempt script|script|d]; simpl.
  - by apply same_ledger_act.
  - by apply same_ledger_Cancel.
  - by apply same_ledger_Join_loop.
  - by apply same_ledger_Stop.
  - by apply same_ledger_same.
Qed.

Lemma same_ledger_history acts (w : World) :
  all_accounted w → same_ledger w (history acts w).
Proof.
  unfold history. revert w.
  induction acts as [|a acts IH]; intros w Hall; simpl; [done|].
  eapply same_ledger_trans; [by apply same_ledger_perform|].
  by apply IH, all_accounted_perform.
Qed.

Lemma latch_ledger_Init shards_num (w : World) :
  length (shard_flows_ (IncomingSlotMigration.Init shards_num w)) = shards_num
  ∧ latch_ledger (IncomingSlotMigration.Init shards_num w)
    = Z.of_nat shards_num.
Proof.
  unfold latch_ledger. simpl. rewrite length_fmap, length_seq.
  split; [done|].
  assert (∀ start, latch_debt (IncomingSlotMigration.new_flow
                               <$> seq start shards_num) = 0%Z) as ->; [|lia].
  unfold latch_debt.
  induction shards_num as [|n IH]; intros start; simpl; [done|].
  by rewrite IH.
Qed.

(** Latch balance: in every world a migration of [shards_num] flows can
    reach from [Init], the latch stands at [shards_num] less one for each
    flow that is out of [Start] and finished or has an attempt pending; so
    it is at zero exactly when every flow is. *)
Theorem latch_balance shards_num acts (w0 : World) :
  let w := history acts (IncomingSlotMigration.Init shards_num w0) in
  length (shard_flows_ w) = shards_num
  ∧ bc_ w = (Z.of_nat shards_num - latch_debt (shard_flows_ w))%Z
  ∧ (0 ≤ bc_ w ≤ Z.of_nat shards_num)%Z
  ∧ (bc_ w = 0%Z ↔ Forall (λ f, owes f = 1%Z) (shard_flows_ w)).
Proof.
  intros w. subst w.
  destruct (same_ledger_history acts _ (all_accounted_Init shards_num w0))
    as [Hlen Hledger].
  destruct (latch_ledger_Init shards_num w0) as [Hlen0 Hledger0].
  rewrite Hlen0 in Hlen. rewrite Hledger0 in Hledger.
  unfold latch_ledger in Hledger.
  destruct (latch_debt_full
              (shard_flows_
                 (history acts (IncomingSlotMigration.Init shards_num w0))))
    as [Hle Hfull].
  rewrite Hlen in Hle, Hfull.
  split; [done|]. split; [lia|]. split; [lia|].
  rewrite <- Hfull. lia.
Qed.

End Ledger.

(** [latch_balance] on the stand-ins: of two flows, shard 0 has an attempt
    pending at LSN 5 and shard 1 was cancelled before it started; the latch
    is at zero. *)
Lemma latch_balance_witness :
  let w := history
             [Fiber (FlowEnters 0 (socket_with [RdTx (lsn_marker 5%Z)]));
              Fiber (FlowRuns 0); Fiber (FlowRuns 0); CallCancel 1]
             (IncomingSlotMigration.Init 2 (fresh 5)) in
  owes <$> shard_flows_ w = [1%Z; 1%Z]
  ∧ bc_ w = 0%Z
  ∧ bc_ w = (2 - latch_debt (shard_flows_ w))%Z.
Proof.
  intros w. split; [by vm_compute|]. split; [by vm_compute|].
  exact (proj1 (proj2 (latch_balance 2 _ (fresh 5)))).
Defined.

(** ** More of [Join] *)
Section Join_more.
Context `{!ExecutionState.Ops, !JournalExecutor.Ops, !cluster.Ops}.

(** A latch that is at zero wakes the waiter before any other fiber runs. *)
Lemma until_zero_at_zero acts (w : World) :
  bc_ w = 0%Z → IncomingSlotMigration.until_zero acts w = (true, w).
Proof. intros Hbc. destruct acts; simpl; by rewrite Hbc. Qed.

(** At its first iteration [Join] has waited for nothing yet. *)
Lemma Join_first_wait (w : World) :
  Z.min 100
    (ToInt64Milliseconds
       (Milliseconds (FLAGS_migration_finalization_timeout_ms w)
        - (Now w - Now w))%Z)
  = Z.min 100 (FLAGS_migration_finalization_timeout_ms w).
Proof.
  by rewrite Z.sub_diag, Z.sub_0_r, ToInt64Milliseconds_Milliseconds.
Qed.

(** What [Join] does with a migration that is ready. *)
Lemma Join_ready attempt env script (w : World) :
  (0 < FLAGS_migration_finalization_timeout_ms w)%Z →
  state_ w ≠ C_FATAL →
  Forall (λ flow, ClusterShardMigration.GetLastAttempt flow = attempt)
         (shard_flows_ w) →
  bc_ w = 0%Z →
  IncomingSlotMigration.Join attempt (env :: script) w
  = (Some true,
     set_keys (cluster.GetKeyCount (slots_ w) (service_ w))
       (set_state C_FINISHED
          (emit (EvLatchWait
                   (Z.min 100 (FLAGS_migration_finalization_timeout_ms w))
                   true)
             (set_Now (Now w + elapsed env)%Z w)))).
Proof.
  intros Hflag Hstate Hattempt Hbc.
  unfold IncomingSlotMigration.Join. simpl.
  rewrite (Join_iteration_waits attempt (Now w) env w);
    [|unfold Milliseconds; lia|done].
  simpl. apply is_attempt_correct_spec in Hattempt. rewrite Hattempt.
  rewrite WaitFor_spec, until_zero_at_zero by done. simpl.
  by rewrite Join_first_wait.
Qed.

(** [Join] accepts at once what is ready: with a positive timeout, a state
    other than [C_FATAL], every flow's [last_attempt] equal to [attempt] and
    the latch at zero, its first wait succeeds before any other fiber runs
    and it returns true; the state is [C_FINISHED], the key count of the
    slots is cached, and the flows, the context and the service are as they
    were. *)
Theorem Join_succeeds attempt env script (w : World) :
  (0 < FLAGS_migration_finalization_timeout_ms w)%Z →
  state_ w ≠ C_FATAL →
  Forall (λ flow, ClusterShardMigration.GetLastAttempt flow = attempt)
         (shard_flows_ w) →
  bc_ w = 0%Z →
  ∃ w',
    IncomingSlotMigration.Join attempt (env :: script) w = (Some true, w')
    ∧ state_ w' = C_FINISHED
    ∧ keys_number_ w' = cluster.GetKeyCount (slots_ w) (service_ w)
    ∧ IncomingSlotMigration.GetKeyCount w' = keys_number_ w'
    ∧ trace w' = trace w ++
        [EvLatchWait
           (Z.min 100 (FLAGS_migration_finalization_timeout_ms w)) true]
    ∧ shard_flows_ w' = shard_flows_ w
    ∧ cntx_ w' = cntx_ w
    ∧ service_ w' = service_ w
    ∧ bc_ w' = 0%Z.
Proof.
  intros Hflag Hstate Hattempt Hbc.
  eexists. split; [by apply Join_ready|].
  unfold IncomingSlotMigration.GetKeyCount. simpl.
  repeat split; try done.
Qed.

(** In [C_FATAL], with a positive timeout, [Join] returns false at once: it
    does not wait on the latch, reports nothing and leaves the world as it
    is, whatever the flows' attempts and the latch. *)
Theorem Join_fatal attempt env script (w : World) :
  (0 < FLAGS_migration_finalization_timeout_ms w)%Z →
  state_ w = C_FATAL →
  IncomingSlotMigration.Join attempt (env :: script) w = (Some false, w).
Proof.
  intros Hflag Hstate.
  unfold IncomingSlotMigration.Join, IncomingSlotMigration.Join_loop,
    IncomingSlotMigration.Join_iteration.
  destruct (Z.leb_spec
              (Milliseconds (FLAGS_migration_finalization_timeout_ms w))
              (Now w - Now w)) as [Hle|_];
    [unfold Milliseconds in Hle; lia|].
  by rewrite decide_True.
Qed.

(** With a timeout flag of zero or less [Join] fails before it looks at
    anything: it reports "Can't join migration in time" and returns false
    without a wait, also when every flow is ready, and also in [C_FATAL]. *)
Theorem Join_nonpositive_timeout attempt env script (w : World) :
  (FLAGS_migration_finalization_timeout_ms w ≤ 0)%Z →
  IncomingSlotMigration.Join attempt (env :: script) w
  = (Some false,
     ReportError "Can't join migration in time"
       (LOG WARNING ("Can't join migration in time for " +:+ source_id_ w) w)).
Proof.
  intros Hflag.
  unfold IncomingSlotMigration.Join, IncomingSlotMigration.Join_loop,
    IncomingSlotMigration.Join_iteration.
  destruct (Z.leb_spec
              (Milliseconds (FLAGS_migration_finalization_timeout_ms w))
              (Now w - Now w)) as [_|Hlt];
    [done|unfold Milliseconds in Hlt; lia].
Qed.

(** An iteration of [Join] that goes round again has made one latch wait of
    at most 100 ms, and not a negative one. *)
Lemma Join_iteration_None attempt start env (w w1 : World) :
  IncomingSlotMigration.Join_iteration attempt start env w = (None, w1) →
  ∃ ms, (0 ≤ ms ≤ 100)%Z ∧ w1 = (IncomingSlotMigration.WaitFor ms env w).2.
Proof.
  intros Hiter.
  destruct (Z.leb_spec
              (Milliseconds (FLAGS_migration_finalization_timeout_ms w))
              (Now w - start)) as [Hle|Hlt].
  { unfold IncomingSlotMigration.Join_iteration in Hiter.
    destruct (Z.leb_spec
                (Milliseconds (FLAGS_migration_finalization_timeout_ms w))
                (Now w - start)); [discriminate|lia]. }
  destruct (decide (GetState w = C_FATAL)) as [Hfatal|Hstate].
  { unfold IncomingSlotMigration.Join_iteration in Hiter.
    destruct (Z.leb_spec
                (Milliseconds (FLAGS_migration_finalization_timeout_ms w))
                (Now w - start)); [lia|].
    destruct (decide (GetState w = C_FATAL)); [discriminate|done]. }
  rewrite (Join_iteration_waits attempt start env w Hlt Hstate) in Hiter.
  simpl in Hiter. eexists. split; [|by repeat case_match; simplify_eq].
  assert (0 ≤ ToInt64Milliseconds
                (Milliseconds (FLAGS_migration_finalization_timeout_ms w)
                 - (Now w - start))%Z)%Z; [|lia].
  unfold ToInt64Milliseconds. apply Z.quot_pos; lia.
Qed.

Lemma Join_loop_returns attempt start before last rest (w : World) :
  (Milliseconds (FLAGS_migration_finalization_timeout_ms w)
   ≤ Now w - start + total_elapsed before)%Z →
  is_Some
    (IncomingSlotMigration.Join_loop attempt start
       (before ++ last :: rest) w).1.
Proof.
  revert w. induction before as [|env before IH]; intros w Hlate; simpl in *.
  - unfold IncomingSlotMigration.Join_iteration.
    destruct (Z.leb_spec
                (Milliseconds (FLAGS_migration_finalization_timeout_ms w))
                (Now w - start)); [by eexists|lia].
  - destruct (IncomingSlotMigration.Join_iteration attempt start env w)
      as [[res|] w1] eqn:Hiter; [by eexists|].
    apply Join_iteration_None in Hiter as (ms & _ & ->).
    apply IH. rewrite WaitFor_FLAGS, WaitFor_Now. lia.
Qed.

(** [Join] does not block for ever: it has returned by the time its waits
    have taken as long as the finalization timeout, whatever the flows and
    the latch do. *)
Theorem Join_returns attempt before last rest (w : World) :
  (Milliseconds (FLAGS_migration_finalization_timeout_ms w)
   ≤ total_elapsed before)%Z →
  ∃ res w',
    IncomingSlotMigration.Join attempt (before ++ last :: rest) w
    = (Some res, w').
Proof.
  intros Hlate. unfold IncomingSlotMigration.Join.
  destruct (Join_loop_returns attempt (Now w) before last rest w)
    as [res Hres]; [lia|].
  destruct (IncomingSlotMigration.Join_loop _ _ _ _) as [r w'].
  simpl in Hres. subst r. by exists res, w'.
Qed.

(** Every latch wait of [Join] is asked for between 0 and 100 ms, there is
    at most one for each iteration, and the flows that run meanwhile add
    none. *)
Theorem Join_waits_bounded attempt script (w : World) :
  ∃ ws,
    waits (trace (IncomingSlotMigration.Join attempt script w).2)
    = waits (trace w) ++ ws
    ∧ Forall (λ ms, 0 ≤ ms ≤ 100)%Z ws
    ∧ length ws ≤ length script.
Proof.
  unfold IncomingSlotMigration.Join. generalize (Now w) as start.
  intros start. revert w.
  induction script as [|env script IH]; intros w; simpl.
  { exists []. by rewrite app_nil_r. }
  destruct (IncomingSlotMigration.Join_iteration attempt start env w)
    as [[res|] w1] eqn:Hiter; simpl.
  - destruct (Z.leb_spec
                (Milliseconds (FLAGS_migration_finalization_timeout_ms w))
                (Now w - start)) as [Hle|Hlt].
    { unfold IncomingSlotMigration.Join_iteration in Hiter.
      destruct (Z.leb_spec
                  (Milliseconds (FLAGS_migration_finalization_timeout_ms w))
                  (Now w - start)); [|lia].
      simplify_eq/=. exists []. rewrite !waits_app. simpl.
      rewrite !app_nil_r. split; [done|]. split; [by apply Forall_nil|simpl; lia]. }
    destruct (decide (GetState w = C_FATAL)) as [Hfatal|Hstate].
    { unfold IncomingSlotMigration.Join_iteration in Hiter.
      destruct (Z.leb_spec
                  (Milliseconds (FLAGS_migration_finalization_timeout_ms w))
                  (Now w - start)); [lia|].
      destruct (decide (GetState w = C_FATAL)); [|done].
      simplify_eq/=. exists []. rewrite app_nil_r.
      split; [done|]. split; [by apply Forall_nil|simpl; lia]. }
    rewrite (Join_iteration_waits attempt start env w Hlt Hstate) in Hiter.
    simpl in Hiter.
    set (ms := Z.min 100 _) in Hiter.
    assert (0 ≤ ms ≤ 100)%Z as Hms.
    { assert (0 ≤ ToInt64Milliseconds
                    (Milliseconds (FLAGS_migration_finalization_timeout_ms w)
                     - (Now w - start))%Z)%Z; [|lia].
      unfold ToInt64Milliseconds. apply Z.quot_pos; lia. }
    exists [ms].
    assert (waits (trace w1) = waits (trace w) ++ [ms]) as ->.
    { pose proof (WaitFor_waits ms env w) as Hwait.
      destruct (IncomingSlotMigration.WaitFor ms env w) as [r w2].
      simpl in *. rewrite <- Hwait.
      destruct (forallb _ _); [|by simplify_eq].
      destruct r; simplify_eq/=; [done|].
      rewrite !waits_app. simpl. by rewrite !app_nil_r. }
    split; [done|]. split; [by apply Forall_singleton|simpl; lia].
  - apply Join_iteration_None in Hiter as (ms & Hms & ->).
    destruct (IH (IncomingSlotMigration.WaitFor ms env w).2)
      as (ws & Hws & Hall & Hlen).
    exists (ms :: ws). rewrite Hws, WaitFor_waits, <- app_assoc.
    split; [done|]. split; [by constructor|simpl; lia].
Qed.

(** While no other fiber runs, [Join] leaves the flows as they are. *)
Lemma Join_loop_quiet_flows attempt start script (w : World) :
  Forall (λ env, others env = []) script →
  shard_flows_ (IncomingSlotMigration.Join_loop attempt start script w).2
  = shard_flows_ w.
Proof.
  intros Hquiet. revert w.
  induction Hquiet as [|env script Henv _ IH]; intros w; simpl; [done|].
  unfold IncomingSlotMigration.Join_iteration.
  rewrite (WaitFor_quiet _ env w Henv).
  repeat case_match; simplify_eq/=; try done; by rewrite IH.
Qed.

(** [Join] never accepts an attempt the flows do not have: when some flow's
    [last_attempt] is not [attempt] and no other fiber runs while [Join]
    waits, [Join] does not return true, and the flows are as they were. *)
Theorem Join_wrong_attempt attempt script (w : World) :
  Forall (λ env, others env = []) script →
  ¬ Forall (λ flow, ClusterShardMigration.GetLastAttempt flow = attempt)
           (shard_flows_ w) →
  (IncomingSlotMigration.Join attempt script w).1 ≠ Some true
  ∧ shard_flows_ (IncomingSlotMigration.Join attempt script w).2
    = shard_flows_ w.
Proof.
  intros Hquiet Hwrong. unfold IncomingSlotMigration.Join.
  split; [|by apply Join_loop_quiet_flows].
  destruct (IncomingSlotMigration.Join_loop attempt (Now w) script w)
    as [res w'] eqn:Hloop.
  simpl. intros ->.
  apply Join_loop_accepts in Hloop
    as (before & env & after & w_head & -> & Hhead & Hlast).
  apply Join_iteration_true in Hlast as (Hattempt & _).
  apply Forall_app in Hquiet as [Hquiet _].
  pose proof (Join_loop_quiet_flows attempt (Now w) before w Hquiet) as Hsame.
  rewrite Hhead in Hsame. simpl in Hsame. by rewrite Hsame in Hattempt.
Qed.

End Join_more.

(** ** A flow reads its stream *)
Section Stream.
Context `{!ExecutionState.Ops, !JournalExecutor.Ops, !cluster.Ops}.

Ltac open_reading H :=
  destruct H as ([? ? ? ? ? ?] & [? ? ? ? ?]
                 & Hf & Hsock & Hinc & Hfin & Hpause & Hatt & Hpc);
  simpl in *; subst.

Ltac flow_facts Hf :=
  simpl; rewrite ?omap_app; simpl;
  rewrite ?list_lookup_alter_eq, ?Hf; simpl;
  rewrite ?decide_True by done; rewrite ?app_nil_r.

Ltac show_reading Hf :=
  unfold reading; flow_facts Hf; do 2 eexists;
  (split; [reflexivity|]); simpl; by repeat split.

Ltac show_progress Hf :=
  unfold progress, executed, payload, apply_all; flow_facts Hf;
  repeat split; try done; try lia;
  intros i Hi; simpl; rewrite ?omap_app; simpl;
  rewrite ?list_lookup_alter_ne by done;
  rewrite ?decide_False by congruence; rewrite ?app_nil_r; done.

Lemma run_S fuel shard f (w : World) :
  shard_flows_ w !! shard = Some f →
  pc f ≠ PcIdle →
  ClusterShardMigration.run (S fuel) shard w
  = ClusterShardMigration.run fuel shard (ClusterShardMigration.step shard w).
Proof. intros Hf Hpc. simpl. rewrite Hf. by destruct (pc f). Qed.

Lemma run_has_left fuel shard a (w : World) :
  has_left shard a w → ClusterShardMigration.run fuel shard w = (Some (), w).
Proof.
  intros (f & Hf & _ & _ & _ & Hpc). destruct fuel; simpl; by rewrite Hf, Hpc.
Qed.

Lemma payload_app txs1 txs2 :
  payload (txs1 ++ txs2) = payload txs1 ++ payload txs2.
Proof. unfold payload. by rewrite filter_app, fmap_app. Qed.

Lemma apply_all_app txs1 txs2 s :
  apply_all (txs1 ++ txs2) s = apply_all txs2 (apply_all txs1 s).
Proof. unfold apply_all. by rewrite foldl_app. Qed.

Lemma progress_trans shard txs1 txs2 m1 m2 (w w1 w2 : World) :
  progress shard txs1 m1 w w1 →
  progress shard txs2 m2 w1 w2 →
  progress shard (txs1 ++ txs2) (m1 + m2) w w2.
Proof.
  intros (He1 & Hs1 & Hst1 & Hbc1 & Ho1 & Hx1)
         (He2 & Hs2 & Hst2 & Hbc2 & Ho2 & Hx2).
  unfold progress.
  rewrite He2, He1, Hs2, Hs1, Hst2, Hst1, Hbc2, Hbc1.
  rewrite payload_app, apply_all_app, <- app_assoc.
  repeat split; try done; [lia| |].
  - intros i Hi. by rewrite Ho2, Ho1.
  - intros i Hi. by rewrite Hx2, Hx1.
Qed.

(** *** One run of the fiber *)

(** At the head of the loop the flow goes on to read. *)
Lemma step_reading_loop shard stream a (w : World) :
  reading shard PcLoop stream a w →
  ExecutionState.IsRunning (cntx_ w) = true →
  let w1 := ClusterShardMigration.step shard w in
  reading shard PcRead stream a w1
  ∧ progress shard [] 0 w w1
  ∧ cntx_ w1 = cntx_ w.
Proof.
  intros Hr Hrun w1. subst w1. open_reading Hr.
  unfold ClusterShardMigration.step. rewrite Hf. simpl. rewrite Hrun. simpl.
  split; [show_reading Hf|]. split; [show_progress Hf|done].
Qed.

Lemma payload_single tx :
  payload [tx] = if is_data tx then [(dbid tx, command tx)] else [].
Proof.
  unfold payload. destruct (is_data tx) eqn:Hdata.
  - by rewrite filter_cons_True.
  - rewrite filter_cons_False; [done|]. by rewrite Hdata.
Qed.

(** What [on_tx] does with a transaction of a clean stream. *)
Lemma on_tx_reading shard tx p stream a (w : World) :
  reading shard p stream a w →
  ExecutionState.IsRunning (cntx_ w) = true →
  clean [tx] (service_ w) = true →
  let w1 := ClusterShardMigration.on_tx shard tx w in
  reading shard (if decide (opcode tx = journal.LSN)
                 then PcAttempt else PcLoop)
          stream (last_marker [tx] a) w1
  ∧ progress shard [tx]
      (if decide (opcode tx = journal.LSN) then -1 else 0) w w1
  ∧ cntx_ w1 = cntx_ w.
Proof.
  intros Hr Hrun Hclean w1. subst w1. open_reading Hr.
  unfold last_marker, progress, apply_all. rewrite payload_single. simpl.
  destruct (decide (opcode tx = journal.LSN)) as [Hlsn|Hlsn].
  { assert (is_data tx = false) as -> by (unfold is_data; by rewrite Hlsn).
    unfold ClusterShardMigration.on_tx, ClusterShardMigration.Dec.
    rewrite Hlsn. split; [show_reading Hf|]. split; [|done].
    show_progress Hf. }
  destruct (decide (opcode tx = journal.PING)) as [Hping|Hping].
  { assert (is_data tx = false) as -> by (unfold is_data; by rewrite Hping).
    unfold ClusterShardMigration.on_tx.
    rewrite Hping. split; [show_reading Hf|]. split; [|done].
    show_progress Hf. }
  assert (is_data tx = true) as Hdata
    by (unfold is_data; by destruct (opcode tx)).
  rewrite Hdata in *.
  apply andb_true_iff in Hclean as [Hclean _].
  apply andb_true_iff in Hclean as [Hglobal Hoom].
  apply negb_true_iff in Hglobal, Hoom.
  rewrite on_tx_data, ExecuteTx_executes by done. simpl.
  rewrite Hoom.
  split; [show_reading Hf|]. split; [|done].
  show_progress Hf.
Qed.

(** A read that gives a transaction. *)
Lemma step_reading_tx shard p tx rest a (w : World) :
  p = PcRead ∨ p = PcAttempt →
  reading shard p (RdTx tx :: rest) a w →
  ExecutionState.IsRunning (cntx_ w) = true →
  state_ w ≠ C_FATAL →
  clean [tx] (service_ w) = true →
  let w1 := ClusterShardMigration.step shard w in
  reading shard (if decide (opcode tx = journal.LSN)
                 then PcAttempt else PcLoop)
          rest (last_marker [tx] a) w1
  ∧ progress shard [tx]
      ((if decide (p = PcAttempt) then 1 else 0)
       + (if decide (opcode tx = journal.LSN) then -1 else 0)) w w1
  ∧ cntx_ w1 = cntx_ w.
Proof.
  intros Hp Hr Hrun Hstate Hclean w1. subst w1.
  assert (∃ w0 : World,
            ClusterShardMigration.step shard w
            = ClusterShardMigration.on_tx shard tx w0
            ∧ reading shard p rest a w0
            ∧ progress shard [] (if decide (p = PcAttempt) then 1 else 0) w w0
            ∧ cntx_ w0 = cntx_ w
            ∧ service_ w0 = service_ w)
    as (w0 & -> & Hr0 & Hp0 & Hc0 & Hs0).
  { open_reading Hr.
    unfold ClusterShardMigration.step, ClusterShardMigration.NextTxData.
    rewrite Hf. simpl.
    destruct Hp as [->| ->]; simpl.
    - eexists. split; [reflexivity|]. split; [show_reading Hf|].
      split; [show_progress Hf|done].
    - unfold GetState. simpl. rewrite decide_False by done.
      eexists. split; [reflexivity|].
      unfold ClusterShardMigration.Add.
      split; [show_reading Hf|]. split; [show_progress Hf|done]. }
  rewrite <- Hc0 in Hrun. rewrite <- Hs0 in Hclean.
  destruct (on_tx_reading shard tx p rest a w0 Hr0 Hrun Hclean)
    as (Hr1 & Hp1 & Hc1).
  split; [done|]. split; [|by rewrite Hc1].
  exact (progress_trans shard [] [tx] _ _ w w0 _ Hp0 Hp1).
Qed.

(** A read that gives nothing: the flow leaves [Start]. *)
Lemma step_reading_end shard p ending a (w : World) :
  p = PcRead ∨ p = PcAttempt →
  reading shard p ending a w →
  stops ending = true →
  let w1 := ClusterShardMigration.step shard w in
  has_left shard a w1
  ∧ progress shard [] (if decide (p = PcAttempt) then 0 else -1) w w1
  ∧ cntx_ w1 = after_reading ending (cntx_ w).
Proof.
  intros Hp Hr Hstops w1. subst w1. open_reading Hr.
  unfold ClusterShardMigration.step, ClusterShardMigration.NextTxData,
    ClusterShardMigration.exit_loop, ClusterShardMigration.cleanup,
    ClusterShardMigration.Dec, has_left, after_reading.
  rewrite Hf. simpl.
  destruct Hp as [->| ->]; simpl;
    destruct ending as [|[tx|[err|]] junk]; try done; simpl;
    repeat case_match; simpl;
    (split; [flow_facts Hf; eexists; (split; [reflexivity|]); by simpl|]);
    (split; [show_progress Hf|done]).
Qed.

(** *** The whole stream *)

Lemma reads_out_loop shard ending txs :
  reads_out shard ending PcRead txs → reads_out shard ending PcLoop txs.
Proof.
  intros Hread fuel a w Hr Hrun Hstate Hclean Hfuel.
  rewrite decide_True in Hfuel by done.
  destruct fuel as [|fuel]; [lia|].
  destruct (step_reading_loop shard _ a w Hr Hrun) as (Hr1 & Hp1 & Hc1).
  destruct Hr as (f & s & Hf & _ & _ & _ & _ & _ & Hpc).
  rewrite (run_S fuel shard f w Hf) by (by rewrite Hpc).
  pose proof Hp1 as (_ & Hsv1 & Hst1 & _).
  destruct (Hread fuel a _ Hr1) as (w' & Hrun' & Hleft & Hp' & Hc');
    [by rewrite Hc1|by rewrite Hst1|by rewrite Hsv1|simpl; lia|].
  exists w'. split; [done|]. split; [done|]. split; [|by rewrite Hc', Hc1].
  exact (progress_trans shard [] txs _ _ w _ w' Hp1 Hp').
Qed.

Lemma reads_out_stream shard ending txs :
  stops ending = true →
  reads_out shard ending PcRead txs ∧ reads_out shard ending PcAttempt txs.
Proof.
  intros Hstops.
  induction txs as [|tx rest [IHread IHattempt]].
  - assert (∀ p, p = PcRead ∨ p = PcAttempt → reads_out shard ending p [])
      as Hbase; [|by split; apply Hbase; auto].
    intros p Hp fuel a w Hr Hrun Hstate Hclean Hfuel.
    assert (p ≠ PcLoop) as Hloop by (by destruct Hp as [-> | ->]).
    rewrite decide_False in Hfuel by done.
    destruct fuel as [|fuel]; [simpl in Hfuel; lia|]. simpl in Hr.
    destruct (step_reading_end shard p ending a w Hp Hr Hstops)
      as (Hleft & Hp1 & Hc1).
    destruct Hr as (f & s & Hf & _ & _ & _ & _ & _ & Hpc).
    rewrite (run_S fuel shard f w Hf)
      by (rewrite Hpc; by destruct Hp as [-> | ->]).
    rewrite (run_has_left fuel shard a _ Hleft).
    by exists (ClusterShardMigration.step shard w).
  - assert (∀ p, p = PcRead ∨ p = PcAttempt →
                 reads_out shard ending p (tx :: rest))
      as Hstep; [|by split; apply Hstep; auto].
    intros p Hp fuel a w Hr Hrun Hstate Hclean Hfuel.
    assert (p ≠ PcLoop) as Hloop by (by destruct Hp as [-> | ->]).
    rewrite decide_False in Hfuel by done.
    destruct fuel as [|fuel]; [simpl in Hfuel; lia|]. simpl in Hr, Hfuel.
    assert (clean [tx] (service_ w) = true
            ∧ clean rest (apply_all [tx] (service_ w)) = true)
      as [Hclean1 Hclean2].
    { simpl in *. unfold apply_all. simpl.
      destruct (is_data tx); [|done].
      apply andb_true_iff in Hclean as [Hclean ?].
      by rewrite Hclean. }
    destruct (step_reading_tx shard p tx _ a w Hp Hr Hrun Hstate Hclean1)
      as (Hr1 & Hp1 & Hc1).
    destruct Hr as (f & s & Hf & _ & _ & _ & _ & _ & Hpc).
    rewrite (run_S fuel shard f w Hf)
      by (rewrite Hpc; by destruct Hp as [-> | ->]).
    pose proof Hp1 as (_ & Hsv1 & Hst1 & _).
    assert (∃ w', ClusterShardMigration.run fuel shard
                    (ClusterShardMigration.step shard w) = (Some (), w')
              ∧ has_left shard (last_marker rest (last_marker [tx] a)) w'
              ∧ progress shard rest
                  (if decide (opcode tx = journal.LSN) then 0 else -1)
                  (ClusterShardMigration.step shard w) w'
              ∧ cntx_ w' = after_reading ending (cntx_ w))
      as (w' & Hrun' & Hleft & Hp' & Hc').
    { destruct (decide (opcode tx = journal.LSN)).
      - destruct (IHattempt fuel _ _ Hr1) as (w' & ? & ? & ? & Hc');
          [by rewrite Hc1|by rewrite Hst1|by rewrite Hsv1|simpl; lia|].
        exists w'. by rewrite Hc', Hc1.
      - destruct (reads_out_loop shard ending rest IHread fuel _ _ Hr1)
          as (w' & ? & ? & ? & Hc');
          [by rewrite Hc1|by rewrite Hst1|by rewrite Hsv1|simpl; lia|].
        exists w'. by rewrite Hc', Hc1. }
    exists w'. split; [done|]. split; [done|]. split; [|done].
    pose proof (progress_trans shard [tx] rest _ _ _ _ _ Hp1 Hp') as Hall.
    destruct Hp as [-> | ->]; simpl in *;
      destruct (decide (opcode tx = journal.LSN)); simpl in *; exact Hall.
Qed.

(** [Start] and [StartFlow] on a stream that is read without incident. *)
Lemma Start_clean fuel shard source script txs ending f (w : World) :
  shard_flows_ w !! shard = Some f →
  is_finished_ f = false →
  pause_ f = false →
  ExecutionState.IsRunning (cntx_ w) = true →
  state_ w ≠ C_FATAL →
  incoming source = (RdTx <$> txs) ++ ending →
  stops ending = true →
  clean txs (service_ w) = true →
  2 * length txs + 2 ≤ fuel →
  ∃ w',
    ClusterShardMigration.Start fuel shard source w = (Some (), w')
    ∧ IncomingSlotMigration.StartFlow fuel shard source script w
      = (Some (), w')
    ∧ has_left shard (last_marker txs (last_attempt_ f)) w'
    ∧ progress shard txs (-1) w w'
    ∧ cntx_ w' = after_reading ending (cntx_ w).
Proof.
  intros Hf Hfin Hpause Hrun Hstate Hstream Hstops Hclean Hfuel.
  destruct (reads_out_stream shard ending txs Hstops) as [Hread _].
  apply reads_out_loop in Hread.
  assert (ClusterShardMigration.enter shard source w
          = upd_flow shard (begin_flow source) w) as Henter
    by (unfold ClusterShardMigration.enter; by rewrite Hf, Hfin).
  destruct (Hread fuel (last_attempt_ f)
              (ClusterShardMigration.enter shard source w))
    as (w' & Hrun' & Hleft & Hprog & Hcntx).
  - rewrite Henter. unfold reading. simpl.
    rewrite list_lookup_alter_eq, Hf. simpl.
    do 2 eexists. split; [reflexivity|]. by simpl.
  - by rewrite Henter.
  - by rewrite Henter.
  - by rewrite Henter.
  - by rewrite decide_True.
  - assert (ClusterShardMigration.Start fuel shard source w = (Some (), w'))
      as Hstart
      by (unfold ClusterShardMigration.Start; by rewrite Hf, Hfin).
    assert (progress shard [] 0 w
              (ClusterShardMigration.enter shard source w)) as Hentered.
    { rewrite Henter. unfold progress, payload, apply_all. simpl.
      rewrite app_nil_r. repeat split; try done; [lia|].
      intros i Hi. by rewrite list_lookup_alter_ne. }
    pose proof (progress_trans shard [] txs _ _ w _ w' Hentered Hprog)
      as Hall.
    simpl in Hall.
    exists w'. split; [done|]. split.
    { unfold IncomingSlotMigration.StartFlow. rewrite Hstart.
      destruct Hall as (_ & _ & Hst & _).
      unfold GetState. rewrite Hst. by rewrite decide_False. }
    split; [done|]. split; [done|]. by rewrite Hcntx, Henter.
Qed.

(** [Start], and [StartFlow] around it, on a stream that is read without
    incident, by a flow that is not paused and not disturbed, under a
    running context and outside [C_FATAL]: the flow returns; it has handed
    the data of the stream to the executor in the order of the stream, each
    once, and nothing after what ended the stream; LSN markers and PINGs are
    not executed; the last marker is the stored attempt; the latch has its
    one decrement; the migration state is as it was, so [StartFlow] does not
    call [Stop]; the context has the read error, if the stream ended with
    one; the other flows are as they were. *)
Theorem Start_reads_stream fuel shard source script txs ending f (w : World) :
  shard_flows_ w !! shard = Some f →
  is_finished_ f = false →
  pause_ f = false →
  ExecutionState.IsRunning (cntx_ w) = true →
  state_ w ≠ C_FATAL →
  incoming source = (RdTx <$> txs) ++ ending →
  stops ending = true →
  clean txs (service_ w) = true →
  2 * length txs + 2 ≤ fuel →
  ∃ w' f',
    ClusterShardMigration.Start fuel shard source w = (Some (), w')
    ∧ IncomingSlotMigration.StartFlow fuel shard source script w
      = (Some (), w')
    ∧ executed shard (trace w') = executed shard (trace w) ++ payload txs
    ∧ service_ w' = apply_all txs (service_ w)
    ∧ cntx_ w' = after_reading ending (cntx_ w)
    ∧ state_ w' = state_ w
    ∧ bc_ w' = (bc_ w - 1)%Z
    ∧ shard_flows_ w' !! shard = Some f'
    ∧ pc f' = PcIdle
    ∧ socket_ f' = None
    ∧ is_finished_ f' = true
    ∧ last_attempt_ f' = last_marker txs (last_attempt_ f)
    ∧ (∀ i, i ≠ shard → shard_flows_ w' !! i = shard_flows_ w !! i)
    ∧ ∀ i, i ≠ shard → executed i (trace w') = executed i (trace w).
Proof.
  intros Hf Hfin Hpause Hrun Hstate Hstream Hstops Hclean Hfuel.
  destruct (Start_clean fuel shard source script txs ending f w)
    as (w' & Hstart & Hflow & (f' & Hf' & Hsock & Hfin' & Hatt & Hpc)
        & (Hexec & Hserv & Hst & Hbc & Hothers & Hquiet) & Hcntx);
    try done.
  exists w', f'. by repeat split.
Qed.

(** *** A paused flow, and a stopped context *)

Lemma iter_emit n e (w : World) :
  Nat.iter n (emit e) (emit e w) = emit e (Nat.iter n (emit e) w).
Proof. induction n as [|n IH]; simpl; [done|by rewrite IH]. Qed.

Lemma run_paused shard fuel : ∀ (w : World) f,
  shard_flows_ w !! shard = Some f →
  pc f = PcLoop →
  pause_ f = true →
  ExecutionState.IsRunning (cntx_ w) = true →
  ClusterShardMigration.run fuel shard w
  = (None, Nat.iter fuel (emit (EvSleep shard 100)) w).
Proof.
  induction fuel as [|fuel IH]; intros w f Hf Hpc Hpause Hrun.
  - simpl. by rewrite Hf, Hpc.
  - rewrite (run_S fuel shard f w Hf) by (by rewrite Hpc).
    unfold ClusterShardMigration.step. rewrite Hf, Hpc, Hrun, Hpause. simpl.
    rewrite (IH _ f); try done. by rewrite iter_emit.
Qed.

(** While it is paused and the context is running, a flow does not leave
    [Start] and reads nothing: whatever the number of runs its fiber is
    given, [Start] has not returned, the socket is the one it was given,
    unread, and all the fiber has done is sleep 100 ms in each run. *)
Theorem Start_paused fuel shard source f (w : World) :
  shard_flows_ w !! shard = Some f →
  is_finished_ f = false →
  pause_ f = true →
  ExecutionState.IsRunning (cntx_ w) = true →
  ClusterShardMigration.Start fuel shard source w
  = (None,
     Nat.iter fuel (emit (EvSleep shard 100))
       (upd_flow shard (begin_flow source) w)).
Proof.
  intros Hf Hfin Hpause Hrun.
  unfold ClusterShardMigration.Start, ClusterShardMigration.enter.
  rewrite Hf, Hfin.
  apply (run_paused shard fuel _ (begin_flow source f)); try done.
  by rewrite lookup_upd_flow, Hf.
Qed.

(** When the context is not running, [Start] does not enter its loop, paused
    or not: it reads nothing and executes nothing, decrements the latch once
    and returns, leaving the flow finished and without its socket. *)
Theorem Start_context_stopped fuel shard source f (w : World) :
  shard_flows_ w !! shard = Some f →
  is_finished_ f = false →
  ExecutionState.IsRunning (cntx_ w) = false →
  ∃ w',
    ClusterShardMigration.Start (S fuel) shard source w = (Some (), w')
    ∧ trace w' = trace w ++ [EvLatchDec shard]
    ∧ bc_ w' = (bc_ w - 1)%Z
    ∧ shard_flows_ w' !! shard
      = Some {| source_shard_id_ := source_shard_id_ f;
                is_finished_ := true; socket_ := None;
                last_attempt_ := last_attempt_ f; pause_ := pause_ f;
                pc := PcIdle |}
    ∧ cntx_ w' = cntx_ w
    ∧ state_ w' = state_ w
    ∧ service_ w' = service_ w.
Proof.
  intros Hf Hfin Hrun.
  unfold ClusterShardMigration.Start, ClusterShardMigration.enter.
  rewrite Hf, Hfin.
  rewrite (run_S fuel shard (begin_flow source f))
    by (by rewrite ?lookup_upd_flow, ?Hf).
  unfold ClusterShardMigration.step. rewrite lookup_upd_flow, Hf. simpl.
  rewrite Hrun. simpl.
  eexists. split.
  { apply (run_has_left fuel shard (last_attempt_ f)).
    unfold has_left, ClusterShardMigration.exit_loop,
      ClusterShardMigration.cleanup. rewrite lookup_upd_flow. simpl.
    rewrite !list_lookup_alter_eq, Hf. simpl.
    eexists. split; [reflexivity|]. by simpl. }
  unfold ClusterShardMigration.exit_loop, ClusterShardMigration.cleanup.
  simpl. rewrite !list_lookup_alter_eq, Hf. by simpl.
Qed.

End Stream.

(** [Start_reads_stream] on the stand-ins: a SET, a failed attempt at LSN 5,
    a SET, a PING and the marker LSN 6, then a read error; the SET after the
    error is not read. *)
Lemma Start_reads_stream_witness :
  let w := IncomingSlotMigration.Init 1 (fresh 5) in
  let ping := {| txid := 0%Z; opcode := journal.PING; dbid := 0; lsn := 0%Z;
                 command := {| cmd_args := [] |} |} in
  let txs := [cmd ["SET"; "a"; "1"]; lsn_marker 5%Z; cmd ["SET"; "c"; "3"];
              ping; lsn_marker 6%Z] in
  let ending := [RdNone (Some "connection reset");
                 RdTx (cmd ["SET"; "z"; "9"])] in
  let source := socket_with ((RdTx <$> txs) ++ ending) in
  let f := IncomingSlotMigration.new_flow 0 in
  (shard_flows_ w !! 0 = Some f
   ∧ is_finished_ f = false
   ∧ pause_ f = false
   ∧ ExecutionState.IsRunning (cntx_ w) = true
   ∧ state_ w ≠ C_FATAL
   ∧ incoming source = (RdTx <$> txs) ++ ending
   ∧ stops ending = true
   ∧ clean txs (service_ w) = true
   ∧ 2 * length txs + 2 ≤ 12)
  ∧ payload txs = [(0, {| cmd_args := ["SET"; "a"; "1"] |});
                   (0, {| cmd_args := ["SET"; "c"; "3"] |})]
  ∧ last_marker txs (last_attempt_ f) = 6%Z
  ∧ ∃ w' f',
      ClusterShardMigration.Start 12 0 source w = (Some (), w')
      ∧ IncomingSlotMigration.StartFlow 12 0 source [] w = (Some (), w')
      ∧ executed 0 (trace w') = executed 0 (trace w) ++ payload txs
      ∧ service_ w' = apply_all txs (service_ w)
      ∧ cntx_ w' = after_reading ending (cntx_ w)
      ∧ state_ w' = state_ w
      ∧ bc_ w' = (bc_ w - 1)%Z
      ∧ shard_flows_ w' !! 0 = Some f'
      ∧ pc f' = PcIdle
      ∧ socket_ f' = None
      ∧ is_finished_ f' = true
      ∧ last_attempt_ f' = last_marker txs (last_attempt_ f)
      ∧ (∀ i, i ≠ 0 → shard_flows_ w' !! i = shard_flows_ w !! i)
      ∧ ∀ i, i ≠ 0 → executed i (trace w') = executed i (trace w).
Proof.
  intros w ping txs ending source f.
  assert (shard_flows_ w !! 0 = Some f) as Hf by by vm_compute.
  assert (ExecutionState.IsRunning (cntx_ w) = true) as Hrun
    by by vm_compute.
  assert (state_ w ≠ C_FATAL) as Hstate by by vm_compute.
  assert (clean txs (service_ w) = true) as Hclean by by vm_compute.
  assert (2 * length txs + 2 ≤ 12) as Hfuel by (simpl; lia).
  split.
  { repeat split; first [assumption|reflexivity]. }
  split; [by vm_compute|]. split; [by vm_compute|].
  exact (Start_reads_stream 12 0 source [] txs ending f w
           Hf eq_refl eq_refl Hrun Hstate eq_refl eq_refl Hclean Hfuel).
Defined.

(** [Start_paused] on the stand-ins: a paused flow given three runs. *)
Lemma Start_paused_witness :
  let w := IncomingSlotMigration.Pause true
             (IncomingSlotMigration.Init 1 (fresh 5)) in
  let source := socket_with [RdTx (cmd ["SET"; "a"; "1"])] in
  let f := set_pause true (IncomingSlotMigration.new_flow 0) in
  (shard_flows_ w !! 0 = Some f
   ∧ is_finished_ f = false
   ∧ pause_ f = true
   ∧ ExecutionState.IsRunning (cntx_ w) = true)
  ∧ ClusterShardMigration.Start 3 0 source w
    = (None,
       Nat.iter 3 (emit (EvSleep 0 100))
         (upd_flow 0 (begin_flow source) w)).
Proof.
  intros w source f.
  assert (shard_flows_ w !! 0 = Some f) as Hf by by vm_compute.
  assert (ExecutionState.IsRunning (cntx_ w) = true) as Hrun
    by by vm_compute.
  split; [exact (conj Hf (conj eq_refl (conj eq_refl Hrun)))|].
  exact (Start_paused 3 0 source f w Hf eq_refl eq_refl Hrun).
Defined.

(** [Start_context_stopped] on the stand-ins: of two flows, shard 0 has
    ended on a read error, which stopped the shared context; shard 1 is
    started after that. *)
Lemma Start_context_stopped_witness :
  let w := (ClusterShardMigration.Start 10 0
              (socket_with [RdNone (Some "connection reset")])
              (IncomingSlotMigration.Init 2 (fresh 5))).2 in
  let source := socket_with [RdTx (cmd ["SET"; "a"; "1"])] in
  let f := IncomingSlotMigration.new_flow 1 in
  (shard_flows_ w !! 1 = Some f
   ∧ is_finished_ f = false
   ∧ ExecutionState.IsRunning (cntx_ w) = false)
  ∧ ∃ w',
      ClusterShardMigration.Start 1 1 source w = (Some (), w')
      ∧ trace w' = trace w ++ [EvLatchDec 1]
      ∧ bc_ w' = (bc_ w - 1)%Z
      ∧ shard_flows_ w' !! 1
        = Some {| source_shard_id_ := source_shard_id_ f;
                  is_finished_ := true; socket_ := None;
                  last_attempt_ := last_attempt_ f; pause_ := pause_ f;
                  pc := PcIdle |}
      ∧ cntx_ w' = cntx_ w
      ∧ state_ w' = state_ w
      ∧ service_ w' = service_ w.
Proof.
  intros w source f.
  assert (shard_flows_ w !! 1 = Some f) as Hf by by vm_compute.
  assert (ExecutionState.IsRunning (cntx_ w) = false) as Hrun
    by by vm_compute.
  split; [exact (conj Hf (conj eq_refl Hrun))|].
  exact (Start_context_stopped 0 1 source f w Hf eq_refl Hrun).
Defined.

(** ** What becomes of the flows *)
Section Flows.
Context `{!ExecutionState.Ops, !JournalExecutor.Ops, !cluster.Ops}.

Lemma flow_moves_refl f : flow_moves f f.
Proof. unfold flow_moves. auto. Qed.

Lemma flow_moves_trans f1 f2 f3 :
  flow_moves f1 f2 → flow_moves f2 f3 → flow_moves f1 f3.
Proof.
  intros (Hid1 & Hfin1 & Hsock1) (Hid2 & Hfin2 & Hsock2).
  split; [congruence|]. split; [auto|].
  intros [Hsome|Hfin]%Hsock2; [|auto].
  destruct (Hsock1 Hsome); auto.
Qed.

Lemma flows_move_refl (w : World) : flows_move w w.
Proof. intros i f Hf. exists f. split; [done|apply flow_moves_refl]. Qed.

Lemma flows_move_trans (w1 w2 w3 : World) :
  flows_move w1 w2 → flows_move w2 w3 → flows_move w1 w3.
Proof.
  intros H12 H23 i f3 Hf3.
  destruct (H23 i f3 Hf3) as (f2 & Hf2 & Hm2).
  destruct (H12 i f2 Hf2) as (f1 & Hf1 & Hm1).
  exists f1. split; [done|]. by eapply flow_moves_trans.
Qed.

Lemma flows_move_same (w w' : World) :
  shard_flows_ w' = shard_flows_ w → flows_move w w'.
Proof.
  intros Hsame i f. rewrite Hsame. intros Hf. exists f.
  split; [done|apply flow_moves_refl].
Qed.

Lemma flows_move_alter g i f (w w' : World) :
  shard_flows_ w !! i = Some f →
  shard_flows_ w' = alter g i (shard_flows_ w) →
  flow_moves f (g f) →
  flows_move w w'.
Proof.
  intros Hf Hw' Hmoves j f'. rewrite Hw'.
  destruct (decide (i = j)) as [<-|Hne].
  - rewrite list_lookup_alter_eq, Hf. intros [= <-]. by exists f.
  - rewrite list_lookup_alter_ne by done. intros Hf'. exists f'.
    split; [done|apply flow_moves_refl].
Qed.

Ltac flow_moved Hf :=
  first
    [ by apply flows_move_refl
    | apply flows_move_same; reflexivity
    | eapply flows_move_alter;
      [ exact Hf
      | simpl; rewrite ?list_alter_alter_eq; reflexivity
      | unfold flow_moves; simpl; naive_solver ] ].

Lemma flows_move_step shard (w : World) :
  flows_move w (ClusterShardMigration.step shard w).
Proof.
  unfold ClusterShardMigration.step, ClusterShardMigration.on_tx,
    ClusterShardMigration.NextTxData, ClusterShardMigration.ExecuteTx,
    ClusterShardMigration.exit_loop, ClusterShardMigration.cleanup.
  destruct (shard_flows_ w !! shard) as [f|] eqn:Hf;
    [|apply flows_move_refl].
  destruct f as [id fin so la pa p]; simpl in *.
  repeat (case_match; simplify_eq/=); flow_moved Hf.
Qed.

Lemma flows_move_enter shard source (w : World) :
  flows_move w (ClusterShardMigration.enter shard source w).
Proof.
  unfold ClusterShardMigration.enter.
  destruct (shard_flows_ w !! shard) as [f|] eqn:Hf;
    [|apply flows_move_refl].
  case_match; flow_moved Hf.
Qed.

Lemma flows_move_Pause pause (w : World) :
  flows_move w (IncomingSlotMigration.Pause pause w).
Proof.
  unfold IncomingSlotMigration.Pause.
  generalize (seq 0 (length (shard_flows_ w))). intros shards.
  revert w. induction shards as [|shard shards IH]; intros w; simpl.
  - apply flows_move_refl.
  - eapply flows_move_trans; [|apply IH].
    unfold ClusterShardMigration.Pause. intros j f'. simpl.
    destruct (decide (shard = j)) as [<-|Hne].
    + rewrite list_lookup_alter_eq.
      destruct (shard_flows_ w !! shard) as [f|]; [|done].
      intros [= <-]. exists f. split; [done|]. unfold flow_moves. auto.
    + rewrite list_lookup_alter_ne by done. intros Hf'. exists f'.
      split; [done|apply flow_moves_refl].
Qed.

Lemma flows_move_Cancel shard (w : World) :
  flows_move w (ClusterShardMigration.Cancel shard w).2.
Proof.
  unfold ClusterShardMigration.Cancel.
  destruct (shard_flows_ w !! shard) as [f|] eqn:Hf;
    [|apply flows_move_refl].
  destruct f as [id fin so la pa p]; simpl in *.
  repeat (case_match; simplify_eq/=); flow_moved Hf.
Qed.

Lemma flows_move_act a (w : World) :
  flows_move w (IncomingSlotMigration.act a w).
Proof.
  destruct a; simpl;
    auto using flows_move_enter, flows_move_step, flows_move_Pause.
Qed.

Lemma flows_move_until_zero acts (w : World) :
  flows_move w (IncomingSlotMigration.until_zero acts w).2.
Proof.
  revert w. induction acts as [|a acts IH]; intros w; simpl.
  - case_match; apply flows_move_refl.
  - case_match; [apply flows_move_refl|].
    eapply flows_move_trans; [apply flows_move_act|apply IH].
Qed.

Lemma flows_move_WaitFor ms env (w : World) :
  flows_move w (IncomingSlotMigration.WaitFor ms env w).2.
Proof.
  rewrite WaitFor_spec. simpl.
  eapply flows_move_trans; [apply (flows_move_until_zero (others env))|].
  by apply flows_move_same.
Qed.

Lemma flows_move_Join_loop attempt start script (w : World) :
  flows_move w (IncomingSlotMigration.Join_loop attempt start script w).2.
Proof.
  revert w. induction script as [|env script IH]; intros w; simpl;
    [apply flows_move_refl|].
  assert (flows_move w
            (IncomingSlotMigration.Join_iteration attempt start env w).2)
    as Hit.
  { unfold IncomingSlotMigration.Join_iteration.
    repeat case_match; simplify_eq/=;
      try (by apply flows_move_same);
      match goal with
      | Hw : IncomingSlotMigration.WaitFor ?ms env w = (_, ?w1) |- _ =>
          pose proof (flows_move_WaitFor ms env w) as Hwait;
          rewrite Hw in Hwait
      end;
      (eapply flows_move_trans; [apply Hwait|]); by apply flows_move_same. }
  destruct (IncomingSlotMigration.Join_iteration attempt start env w)
    as [[res|] w1]; simpl in *; [done|].
  eapply flows_move_trans; [apply Hit|apply IH].
Qed.

Lemma flows_move_Stop_cancel (w : World) :
  flows_move w (IncomingSlotMigration.Stop_cancel w).
Proof.
  unfold IncomingSlotMigration.Stop_cancel,
    IncomingSlotMigration.cancel_flows.
  set (w2 := emit EvCntxCancel _).
  apply (flows_move_trans w w2); [by apply flows_move_same|].
  generalize (seq 0 (length (shard_flows_ w2))). intros shards.
  clearbody w2. revert w2.
  induction shards as [|shard shards IH]; intros w2; simpl;
    [apply flows_move_refl|].
  eapply flows_move_trans; [apply flows_move_Cancel|apply IH].
Qed.

Lemma flows_move_Stop_loop start script (w : World) :
  flows_move w (IncomingSlotMigration.Stop_loop start script w).2.
Proof.
  revert w. induction script as [|env script IH]; intros w; simpl;
    [apply flows_move_refl|].
  rewrite Stop_iteration_spec. simpl.
  set (ms := ToInt64Milliseconds _).
  pose proof (flows_move_WaitFor ms env w) as Hwait.
  destruct (IncomingSlotMigration.WaitFor ms env w) as [res w1].
  simpl in *. destruct res; simpl; [done|].
  destruct (_ <=? _)%Z; simpl.
  - eapply flows_move_trans; [apply Hwait|by apply flows_move_same].
  - eapply flows_move_trans; [apply Hwait|apply IH].
Qed.

Lemma flows_move_Stop script (w : World) :
  flows_move w (IncomingSlotMigration.Stop script w).2.
Proof.
  unfold IncomingSlotMigration.Stop.
  pose proof (flows_move_Stop_cancel w) as Hcancel.
  case_match; [done|].
  eapply flows_move_trans; [apply Hcancel|apply flows_move_Stop_loop].
Qed.

Lemma flows_move_perform a (w : World) : flows_move w (perform a w).
Proof.
  destruct a as [a|shard|attempt script|script|d]; simpl.
  - apply flows_move_act.
  - apply flows_move_Cancel.
  - apply flows_move_Join_loop.
  - apply flows_move_Stop.
  - by apply flows_move_same.
Qed.

Lemma flows_move_history acts (w : World) :
  flows_move w (history acts w).
Proof.
  unfold history. revert w.
  induction acts as [|a acts IH]; intros w; simpl;
    [apply flows_move_refl|].
  eapply flows_move_trans; [apply flows_move_perform|apply IH].
Qed.

Lemma flows_move_run fuel shard : ∀ (w : World),
  flows_move w (ClusterShardMigration.run fuel shard w).2.
Proof.
  induction fuel as [|fuel IH]; intros w; simpl.
  - repeat case_match; apply flows_move_refl.
  - destruct (shard_flows_ w !! shard) as [f|]; [|apply flows_move_refl].
    destruct (pc f); [apply flows_move_refl|..];
      (eapply flows_move_trans; [apply flows_move_step|apply IH]).
Qed.

Lemma flows_move_Start fuel shard source (w : World) :
  flows_move w (ClusterShardMigration.Start fuel shard source w).2.
Proof.
  unfold ClusterShardMigration.Start.
  repeat case_match; try apply flows_move_refl.
  eapply flows_move_trans; [apply flows_move_enter|apply flows_move_run].
Qed.

(** [Start] on a flow that is finished, or that is not there, returns at
    once. *)
Lemma Start_finished fuel shard source (w : World) :
  (∀ f, shard_flows_ w !! shard = Some f → is_finished_ f = true) →
  ClusterShardMigration.Start fuel shard source w = (Some (), w).
Proof.
  intros Hfin. unfold ClusterShardMigration.Start.
  destruct (shard_flows_ w !! shard) as [f|]; [|done].
  by rewrite (Hfin f eq_refl).
Qed.

Lemma finished_moves shard (w w' : World) :
  flows_move w w' →
  (∀ f, shard_flows_ w !! shard = Some f → is_finished_ f = true) →
  ∀ f', shard_flows_ w' !! shard = Some f' → is_finished_ f' = true.
Proof.
  intros Hmove Hfin f' Hf'.
  destruct (Hmove shard f' Hf') as (f & Hf & _ & Hkeep & _). eauto.
Qed.

(** A flow is started at most once: once [Start] has been called on a flow,
    whether or not it has returned yet, and whatever the fibers of the
    migration do afterwards, another [Start] on that flow returns at once
    and changes nothing. *)
Theorem Start_once fuel shard source acts fuel' source' (w : World) :
  let w1 := (ClusterShardMigration.Start fuel shard source w).2 in
  let w2 := history acts w1 in
  ClusterShardMigration.Start fuel' shard source' w2 = (Some (), w2).
Proof.
  intros w1 w2. apply Start_finished.
  apply (finished_moves shard w1 w2); [apply flows_move_history|].
  subst w1 w2. unfold ClusterShardMigration.Start.
  destruct (shard_flows_ w !! shard) as [f|] eqn:Hf;
    [|simpl; by rewrite Hf].
  destruct (is_finished_ f) eqn:Hfin;
    [simpl; rewrite Hf; by intros ? [= <-]|].
  apply (finished_moves shard (ClusterShardMigration.enter shard source w));
    [apply flows_move_run|].
  unfold ClusterShardMigration.enter. rewrite Hf, Hfin.
  rewrite lookup_upd_flow, Hf. simpl. by intros ? [= <-].
Qed.

(** [Cancel] on a flow that is outside [Start] answers with the empty error
    code; it decrements the latch when the flow was never started, and only
    then; a second [Cancel] changes nothing; and the flow will not start any
    more: [Start] on it returns at once, whatever happens in between. *)
Theorem Cancel_outside_Start shard f acts fuel source (w : World) :
  shard_flows_ w !! shard = Some f →
  socket_ f = None →
  let r := ClusterShardMigration.Cancel shard w in
  let w2 := history acts r.2 in
  r.1 = 0%Z
  ∧ bc_ r.2 = (bc_ w - (if is_finished_ f then 0 else 1))%Z
  ∧ ClusterShardMigration.Cancel shard r.2 = (0%Z, r.2)
  ∧ ClusterShardMigration.Start fuel shard source w2 = (Some (), w2).
Proof.
  intros Hf Hsock r w2. subst r w2.
  assert (ClusterShardMigration.Cancel shard w
          = (0%Z, if is_finished_ f then w
                  else ClusterShardMigration.Dec shard
                         (upd_flow shard finish_flow w))) as ->.
  { unfold ClusterShardMigration.Cancel. rewrite Hf, Hsock.
    by destruct (is_finished_ f). }
  simpl. destruct (is_finished_ f) eqn:Hfin.
  - split; [done|]. split; [lia|]. split.
    + unfold ClusterShardMigration.Cancel. by rewrite Hf, Hsock, Hfin.
    + apply Start_finished.
      apply (finished_moves shard _ _ (flows_move_history acts _)).
      rewrite Hf. by intros ? [= <-].
  - split; [done|]. split; [simpl; lia|]. split.
    + unfold ClusterShardMigration.Cancel. simpl.
      rewrite list_lookup_alter_eq, Hf. simpl. by rewrite Hsock.
    + apply Start_finished.
      apply (finished_moves shard _ _ (flows_move_history acts _)).
      simpl. rewrite list_lookup_alter_eq, Hf. simpl. by intros ? [= <-].
Qed.

(** In the worlds a migration reaches from [Init], a flow that holds a
    socket is finished. *)
Lemma reachable_settled shards_num acts i f (w0 : World) :
  shard_flows_ (history acts (IncomingSlotMigration.Init shards_num w0)) !! i
  = Some f →
  is_Some (socket_ f) → is_finished_ f = true.
Proof.
  intros Hf Hsock.
  destruct (flows_move_history acts _ i f Hf) as (f0 & Hf0 & _ & _ & Hmove).
  destruct (Hmove Hsock) as [Hsock0|]; [|done].
  simpl in Hf0. rewrite list_lookup_fmap in Hf0.
  destruct (seq 0 shards_num !! i); simplify_eq/=.
  by destruct Hsock0.
Qed.

(** After [Stop] no flow starts any more.  In a migration that was set up
    by [Init], once [Stop] has been called (whether it returned in time or
    not) every flow is finished and stays so, and [Start] on any shard
    returns at once without reading or executing anything. *)
Theorem no_Start_after_Stop shards_num acts script later fuel shard source
    (w0 : World) :
  let w := history acts (IncomingSlotMigration.Init shards_num w0) in
  let w' := history later (IncomingSlotMigration.Stop script w).2 in
  Forall (λ f, is_finished_ f = true) (shard_flows_ w')
  ∧ ClusterShardMigration.Start fuel shard source w' = (Some (), w').
Proof.
  intros w w'.
  assert (∀ i f, shard_flows_ (IncomingSlotMigration.Stop_cancel w) !! i
                 = Some f → is_finished_ f = true) as Hcancelled.
  { intros i f Hf.
    destruct (Stop_cancel_spec w) as (_ & _ & _ & _ & _ & Hflows).
    specialize (Hflows i f Hf). unfold flow_cancelled in Hflows.
    destruct (socket_ f) as [s|] eqn:Hsock; [|done].
    destruct (flows_move_Stop_cancel w i f Hf) as (f1 & Hf1 & _ & Hfin & Hm).
    destruct Hm as [Hsock1|]; [by rewrite Hsock| |done].
    apply Hfin. by eapply reachable_settled. }
  assert (flows_move (IncomingSlotMigration.Stop_cancel w) w') as Hmove.
  { subst w'. eapply flows_move_trans; [|apply flows_move_history].
    unfold IncomingSlotMigration.Stop. case_match;
      [apply flows_move_refl|apply flows_move_Stop_loop]. }
  assert (∀ i f, shard_flows_ w' !! i = Some f → is_finished_ f = true)
    as Hfinished.
  { intros i. apply (finished_moves i _ _ Hmove), Hcancelled. }
  split.
  - apply Forall_lookup. intros i f. apply Hfinished.
  - apply Start_finished, Hfinished.
Qed.

End Flows.

(** ** Pause *)
Section Pause_facts.
Context `{!ExecutionState.Ops, !JournalExecutor.Ops, !cluster.Ops}.

Lemma foldl_upd_flow g shards (fs : list Flow) (w : World) :
  foldl (λ w shard, upd_flow shard g w) (set_flows fs w) shards
  = set_flows (foldl (λ fs shard, alter g shard fs) fs shards) w.
Proof.
  revert fs. induction shards as [|shard shards IH]; intros fs; simpl;
    [done|].
  by rewrite <- IH.
Qed.

Lemma foldl_alter_lookup (g : Flow → Flow) (fs : list Flow) n j :
  foldl (λ fs shard, alter g shard fs) fs (seq 0 n) !! j
  = if decide (j < n) then g <$> fs !! j else fs !! j.
Proof.
  induction n as [|n IH]; [done|].
  rewrite seq_S, foldl_app. simpl.
  destruct (decide (n = j)) as [<-|Hne].
  - rewrite list_lookup_alter_eq, IH.
    rewrite decide_False, decide_True by lia. done.
  - rewrite list_lookup_alter_ne, IH by done.
    repeat case_decide; try done; lia.
Qed.

Lemma foldl_alter_all (g : Flow → Flow) (fs : list Flow) :
  foldl (λ fs shard, alter g shard fs) fs (seq 0 (length fs)) = g <$> fs.
Proof.
  apply list_eq. intros j.
  rewrite foldl_alter_lookup, list_lookup_fmap.
  case_decide as Hj; [done|].
  rewrite lookup_ge_None_2 by lia. done.
Qed.

Lemma Pause_closed_form pause (w : World) :
  IncomingSlotMigration.Pause pause w
  = set_flows (set_pause pause <$> shard_flows_ w) w.
Proof.
  unfold IncomingSlotMigration.Pause, ClusterShardMigration.Pause.
  rewrite <- foldl_alter_all.
  rewrite <- (foldl_upd_flow (set_pause pause)). by destruct w.
Qed.

(** [Pause(pause)] sets the pause flag of every flow and touches nothing
    else: not what a flow has read or stored, not the latch, the context or
    the state.  The last call decides: an earlier [Pause] leaves no
    trace. *)
Theorem Pause_all pause earlier (w : World) :
  IncomingSlotMigration.Pause pause w
  = set_flows (set_pause pause <$> shard_flows_ w) w
  ∧ IncomingSlotMigration.Pause pause
      (IncomingSlotMigration.Pause earlier w)
    = IncomingSlotMigration.Pause pause w.
Proof.
  split; [apply Pause_closed_form|].
  rewrite !Pause_closed_form. simpl. rewrite <- list_fmap_compose.
  by destruct w.
Qed.

End Pause_facts.

(** ** Stop when the flows are through *)
Section Stop_more.
Context `{!ExecutionState.Ops, !JournalExecutor.Ops, !cluster.Ops}.

Lemma Cancel_bc_le shard (w : World) :
  (bc_ (ClusterShardMigration.Cancel shard w).2 ≤ bc_ w)%Z.
Proof.
  unfold ClusterShardMigration.Cancel.
  repeat case_match; simpl; lia.
Qed.

Lemma Stop_cancel_bc_le (w : World) :
  (bc_ (IncomingSlotMigration.Stop_cancel w) ≤ bc_ w)%Z.
Proof.
  unfold IncomingSlotMigration.Stop_cancel,
    IncomingSlotMigration.cancel_flows.
  set (w2 := emit EvCntxCancel _).
  assert (bc_ w2 = bc_ w) as <- by done.
  generalize (seq 0 (length (shard_flows_ w2))). intros shards.
  clearbody w2. revert w2.
  induction shards as [|shard shards IH]; intros w2; simpl; [lia|].
  etrans; [apply IH|apply Cancel_bc_le].
Qed.

(** [Stop] on a migration whose flows are all through.  In a migration set
    up by [Init] whose latch is at zero and whose state is not [C_FATAL],
    [Stop] cancels without moving the latch, its first wait succeeds at
    once, and it returns: it has made that one wait, asked for the whole
    timeout, logs no "Can't stop migration in time", and leaves the state as
    it was. *)
Theorem Stop_latch_zero shards_num acts env script (w0 : World) :
  let w := history acts (IncomingSlotMigration.Init shards_num w0) in
  bc_ w = 0%Z →
  state_ w ≠ C_FATAL →
  let cancelled := IncomingSlotMigration.Stop_cancel w in
  bc_ cancelled = 0%Z
  ∧ IncomingSlotMigration.Stop (env :: script) w
    = (Some (),
       emit (EvLatchWait (FLAGS_migration_finalization_timeout_ms w) true)
         (set_Now (Now w + elapsed env)%Z cancelled))
  ∧ state_ cancelled = state_ w
  ∧ waits (trace cancelled) = waits (trace w).
Proof.
  intros w Hbc Hstate cancelled.
  destruct (Stop_cancel_spec w)
    as (_ & Hst & HNow & HFLAGS & Hwaits & _).
  fold cancelled in Hst, HNow, HFLAGS, Hwaits.
  assert (all_accounted w) as Hall
    by apply all_accounted_history, all_accounted_Init.
  assert (bc_ cancelled = 0%Z) as Hzero.
  { destruct (same_ledger_Stop_cancel w Hall) as [Hlen Hledger].
    fold cancelled in Hlen, Hledger.
    destruct (same_ledger_history acts _
                (all_accounted_Init shards_num w0)) as [Hlen0 Hledger0].
    fold w in Hlen0, Hledger0.
    destruct (latch_ledger_Init shards_num w0) as [Hn Hinit].
    destruct (latch_debt_full (shard_flows_ cancelled)) as [Hle _].
    destruct (latch_debt_full (shard_flows_ w)) as [Hle' _].
    pose proof (Stop_cancel_bc_le w) as Hdown. fold cancelled in Hdown.
    unfold latch_ledger in *. lia. }
  split; [done|]. split; [|done].
  unfold IncomingSlotMigration.Stop. fold cancelled.
  rewrite decide_False by (by rewrite Hst). simpl.
  rewrite Stop_iteration_spec. simpl.
  rewrite WaitFor_spec, until_zero_at_zero by done. simpl.
  rewrite Z.sub_diag, Z.sub_0_r, ToInt64Milliseconds_Milliseconds.
  by rewrite HFLAGS, HNow.
Qed.

End Stop_more.

(** ** The migration state *)
Section State.
Context `{!ExecutionState.Ops, !JournalExecutor.Ops, !cluster.Ops}.

Lemma state_moves_refl (w : World) : state_moves w w.
Proof. by left. Qed.

Lemma state_moves_trans (w1 w2 w3 : World) :
  state_moves w1 w2 → state_moves w2 w3 → state_moves w1 w3.
Proof.
  unfold state_moves.
  intros [H12|[H12|[Hnot H12]]] [H23|[H23|[Hnot' H23]]];
    rewrite ?H12 in *; auto.
  right. right. split; [|done]. congruence.
Qed.

Lemma state_moves_same (w w' : World) :
  state_ w' = state_ w → state_moves w w'.
Proof. by left. Qed.

Lemma state_NextTxData shard (w : World) :
  state_ (ClusterShardMigration.NextTxData shard w).2 = state_ w.
Proof. unfold ClusterShardMigration.NextTxData. by repeat case_match. Qed.

Lemma state_ExecuteTx shard tx_data (w : World) :
  state_ (ClusterShardMigration.ExecuteTx shard tx_data w).2 = state_ w.
Proof. unfold ClusterShardMigration.ExecuteTx. by repeat case_match. Qed.

Lemma state_moves_on_tx shard tx_data (w w1 : World) :
  state_moves w w1 →
  state_moves w (ClusterShardMigration.on_tx shard tx_data w1).
Proof.
  intros Hmoves. unfold ClusterShardMigration.on_tx.
  pose proof (state_ExecuteTx shard tx_data w1) as Hexec.
  destruct (ClusterShardMigration.ExecuteTx shard tx_data w1) as [err w2].
  simpl in Hexec.
  repeat case_match;
    first [ exact Hmoves
          | by right; left
          | eapply state_moves_trans; [exact Hmoves|by left] ].
Qed.

Lemma state_moves_step shard (w : World) :
  state_moves w (ClusterShardMigration.step shard w).
Proof.
  unfold ClusterShardMigration.step.
  pose proof (state_NextTxData shard w) as Hread.
  destruct (ClusterShardMigration.NextTxData shard w) as [tx_data w1].
  simpl in Hread.
  repeat case_match; try (by left);
    first [ by apply state_moves_same
          | apply state_moves_on_tx; by apply state_moves_same ].
Qed.

Lemma state_moves_enter shard source (w : World) :
  state_moves w (ClusterShardMigration.enter shard source w).
Proof.
  unfold ClusterShardMigration.enter, state_moves.
  repeat case_match; auto.
Qed.

Lemma state_moves_Pause pause (w : World) :
  state_moves w (IncomingSlotMigration.Pause pause w).
Proof.
  rewrite Pause_closed_form. by left.
Qed.

Lemma state_moves_Cancel shard (w : World) :
  state_moves w (ClusterShardMigration.Cancel shard w).2.
Proof. left. by destruct (Cancel_cntx_state shard w). Qed.

Lemma state_moves_act a (w : World) :
  state_moves w (IncomingSlotMigration.act a w).
Proof.
  destruct a; simpl;
    auto using state_moves_enter, state_moves_step, state_moves_Pause.
Qed.

Lemma state_moves_until_zero acts (w : World) :
  state_moves w (IncomingSlotMigration.until_zero acts w).2.
Proof.
  revert w. induction acts as [|a acts IH]; intros w; simpl.
  - case_match; apply state_moves_refl.
  - case_match; [apply state_moves_refl|].
    eapply state_moves_trans; [apply state_moves_act|apply IH].
Qed.

Lemma state_moves_WaitFor ms env (w : World) :
  state_moves w (IncomingSlotMigration.WaitFor ms env w).2.
Proof.
  rewrite WaitFor_spec. simpl.
  eapply state_moves_trans; [apply (state_moves_until_zero (others env))|].
  by apply state_moves_same.
Qed.

Lemma state_moves_Join_iteration attempt start env (w : World) :
  state_moves w (IncomingSlotMigration.Join_iteration attempt start env w).2.
Proof.
  destruct (Z.leb_spec
              (Milliseconds (FLAGS_migration_finalization_timeout_ms w))
              (Now w - start)) as [Hle|Hlt].
  { unfold IncomingSlotMigration.Join_iteration.
    destruct (Z.leb_spec
                (Milliseconds (FLAGS_migration_finalization_timeout_ms w))
                (Now w - start)); [by left|lia]. }
  destruct (decide (GetState w = C_FATAL)) as [Hfatal|Hstate].
  { unfold IncomingSlotMigration.Join_iteration.
    destruct (Z.leb_spec
                (Milliseconds (FLAGS_migration_finalization_timeout_ms w))
                (Now w - start)); [lia|].
    destruct (decide (GetState w = C_FATAL)); [by left|done]. }
  rewrite (Join_iteration_waits attempt start env w Hlt Hstate). simpl.
  set (r := IncomingSlotMigration.WaitFor _ env w).
  pose proof (state_moves_WaitFor
                (Z.min 100
                   (ToInt64Milliseconds
                      (Milliseconds
                         (FLAGS_migration_finalization_timeout_ms w)
                       - (Now w - start))%Z)) env w) as Hwait.
  fold r in Hwait.
  destruct (forallb _ _); [|done].
  destruct r.1; simpl; [by right; right|].
  eapply state_moves_trans; [apply Hwait|by left].
Qed.

Lemma state_moves_Join_loop attempt start script (w : World) :
  state_moves w (IncomingSlotMigration.Join_loop attempt start script w).2.
Proof.
  revert w. induction script as [|env script IH]; intros w; simpl;
    [apply state_moves_refl|].
  pose proof (state_moves_Join_iteration attempt start env w) as Hit.
  destruct (IncomingSlotMigration.Join_iteration attempt start env w)
    as [[res|] w1]; simpl in *; [done|].
  eapply state_moves_trans; [apply Hit|apply IH].
Qed.

Lemma state_moves_Stop_loop start script (w : World) :
  state_moves w (IncomingSlotMigration.Stop_loop start script w).2.
Proof.
  revert w. induction script as [|env script IH]; intros w; simpl;
    [apply state_moves_refl|].
  rewrite Stop_iteration_spec. simpl.
  set (ms := ToInt64Milliseconds _).
  pose proof (state_moves_WaitFor ms env w) as Hwait.
  destruct (IncomingSlotMigration.WaitFor ms env w) as [res w1].
  simpl in *. destruct res; simpl; [done|].
  destruct (_ <=? _)%Z; simpl.
  - eapply state_moves_trans; [apply Hwait|by left].
  - eapply state_moves_trans; [apply Hwait|apply IH].
Qed.

Lemma state_moves_Stop script (w : World) :
  state_moves w (IncomingSlotMigration.Stop script w).2.
Proof.
  unfold IncomingSlotMigration.Stop.
  destruct (Stop_cancel_spec w) as (_ & Hst & _).
  case_match; [by left|].
  eapply state_moves_trans; [left; apply Hst|apply state_moves_Stop_loop].
Qed.

Lemma state_moves_perform a (w : World) : state_moves w (perform a w).
Proof.
  destruct a as [a|shard|attempt script|script|d]; simpl.
  - apply state_moves_act.
  - apply state_moves_Cancel.
  - apply state_moves_Join_loop.
  - apply state_moves_Stop.
  - by left.
Qed.

(** The migration state between two calls of [Init].  Whatever the fibers
    of a migration do, the state they leave is the one they found, or
    [C_FATAL], or [C_FINISHED]; it does not go back to [C_CONNECTING] or
    [C_SYNC].  And [C_FATAL] is kept by every step of a flow, every
    [Cancel], [Pause] and [Stop], and every [Join] that is called when the
    state is [C_FATAL] already. *)
Theorem state_transitions acts (w : World) :
  let w' := history acts w in
  (state_ w' = state_ w ∨ state_ w' = C_FATAL ∨ state_ w' = C_FINISHED)
  ∧ (state_ w = C_FATAL → state_ w' = C_FATAL)
  ∧ (state_ w' = C_FINISHED → state_ w ≠ C_FATAL).
Proof.
  intros w'. subst w'.
  assert (state_moves w (history acts w)) as Hmoves.
  { unfold history. revert w.
    induction acts as [|a acts IH]; intros w; simpl;
      [apply state_moves_refl|].
    eapply state_moves_trans; [apply state_moves_perform|apply IH]. }
  destruct Hmoves as [Hsame|[Hfatal|[Hnot Hfinished]]].
  - split; [by left|]. split; [congruence|]. congruence.
  - split; [by right; left|]. split; [done|]. congruence.
  - split; [by right; right|]. split; done.
Qed.

End State.

(** [Join_succeeds] on the stand-ins: scenario 1 of the specification, two
    SETs and the marker LSN 2, then [Join(2)]. *)
Lemma Join_succeeds_witness :
  let w := (ClusterShardMigration.Start 10 0
              (socket_with [RdTx (cmd ["SET"; "a"; "1"]);
                            RdTx (cmd ["SET"; "b"; "2"]);
                            RdTx (lsn_marker 2%Z)])
              (IncomingSlotMigration.Init 1 (fresh 5))).2 in
  ((0 < FLAGS_migration_finalization_timeout_ms w)%Z
   ∧ state_ w ≠ C_FATAL
   ∧ Forall (λ flow, ClusterShardMigration.GetLastAttempt flow = 2%Z)
            (shard_flows_ w)
   ∧ bc_ w = 0%Z)
  ∧ ∃ w',
      IncomingSlotMigration.Join 2%Z [quiet 0%Z] w = (Some true, w')
      ∧ state_ w' = C_FINISHED
      ∧ keys_number_ w' = cluster.GetKeyCount (slots_ w) (service_ w)
      ∧ IncomingSlotMigration.GetKeyCount w' = keys_number_ w'
      ∧ trace w' = trace w ++
          [EvLatchWait
             (Z.min 100 (FLAGS_migration_finalization_timeout_ms w)) true]
      ∧ shard_flows_ w' = shard_flows_ w
      ∧ cntx_ w' = cntx_ w
      ∧ service_ w' = service_ w
      ∧ bc_ w' = 0%Z.
Proof.
  intros w.
  assert (0 < FLAGS_migration_finalization_timeout_ms w)%Z as Hflag
    by by vm_compute.
  assert (state_ w ≠ C_FATAL) as Hstate by by vm_compute.
  assert (Forall (λ flow, ClusterShardMigration.GetLastAttempt flow = 2%Z)
                 (shard_flows_ w)) as Hattempt.
  { vm_compute. by apply Forall_singleton. }
  assert (bc_ w = 0%Z) as Hbc by by vm_compute.
  split; [exact (conj Hflag (conj Hstate (conj Hattempt Hbc)))|].
  exact (Join_succeeds 2%Z (quiet 0%Z) [] w Hflag Hstate Hattempt Hbc).
Defined.

(** [Join_fatal] on the stand-ins: [Join] after an out-of-memory answer. *)
Lemma Join_fatal_witness :
  let w := (ClusterShardMigration.Start 10 0
              (socket_with [RdTx (cmd ["SET"; "a"; "1"])])
              (IncomingSlotMigration.Init 2 (fresh 0))).2 in
  ((0 < FLAGS_migration_finalization_timeout_ms w)%Z
   ∧ state_ w = C_FATAL)
  ∧ IncomingSlotMigration.Join 7%Z [quiet 0%Z] w = (Some false, w).
Proof.
  intros w.
  assert (0 < FLAGS_migration_finalization_timeout_ms w)%Z as Hflag
    by by vm_compute.
  assert (state_ w = C_FATAL) as Hstate by by vm_compute.
  split; [exact (conj Hflag Hstate)|].
  exact (Join_fatal 7%Z (quiet 0%Z) [] w Hflag Hstate).
Defined.

(** [Join_nonpositive_timeout] on the stand-ins: a migration whose timeout
    flag is zero, with no flows and the latch at zero. *)
Lemma Join_nonpositive_timeout_witness :
  let w := {| source_id_ := "node-a"; slots_ := [(0, 99)%nat];
              cntx_ := {| running := true; error := None |};
              state_ := C_SYNC; keys_number_ := 0; bc_ := 0%Z;
              shard_flows_ := [];
              service_ := {| applied := []; capacity := 1 |};
              FLAGS_migration_finalization_timeout_ms := 0%Z;
              Now := 0%Z; trace := [] |} in
  (FLAGS_migration_finalization_timeout_ms w ≤ 0)%Z
  ∧ IncomingSlotMigration.Join 2%Z [quiet 0%Z] w
    = (Some false,
       ReportError "Can't join migration in time"
         (LOG WARNING
            ("Can't join migration in time for " +:+ source_id_ w) w)).
Proof.
  intros w.
  assert (FLAGS_migration_finalization_timeout_ms w ≤ 0)%Z as Hflag
    by (vm_compute; discriminate).
  split; [exact Hflag|].
  exact (Join_nonpositive_timeout 2%Z (quiet 0%Z) [] w Hflag).
Defined.

(** [Join_returns] on the stand-ins: a flow that never sends its marker,
    and a first wait of thirty seconds. *)
Lemma Join_returns_witness :
  let w := ClusterShardMigration.enter 0 (socket_with [])
             (IncomingSlotMigration.Init 1 (fresh 1)) in
  let before := [quiet 30000000000%Z] in
  (Milliseconds (FLAGS_migration_finalization_timeout_ms w)
   ≤ total_elapsed before)%Z
  ∧ ∃ res w',
      IncomingSlotMigration.Join 2%Z (before ++ quiet 0%Z :: []) w
      = (Some res, w').
Proof.
  intros w before.
  assert (Milliseconds (FLAGS_migration_finalization_timeout_ms w)
          ≤ total_elapsed before)%Z as Hlate by (vm_compute; discriminate).
  split; [exact Hlate|].
  exact (Join_returns 2%Z before (quiet 0%Z) [] w Hlate).
Defined.

(** [Join_wrong_attempt] on the stand-ins: [Join(5)] on a flow that has
    stored no attempt. *)
Lemma Join_wrong_attempt_witness :
  let w := ClusterShardMigration.enter 0 (socket_with [])
             (IncomingSlotMigration.Init 1 (fresh 1)) in
  let script := [quiet 100000000%Z; quiet 0%Z] in
  (Forall (λ env, others env = []) script
   ∧ ¬ Forall (λ flow, ClusterShardMigration.GetLastAttempt flow = 5%Z)
              (shard_flows_ w))
  ∧ (IncomingSlotMigration.Join 5%Z script w).1 ≠ Some true
  ∧ shard_flows_ (IncomingSlotMigration.Join 5%Z script w).2
    = shard_flows_ w.
Proof.
  intros w script.
  assert (Forall (λ env, others env = []) script) as Hquiet
    by (by repeat apply Forall_cons_2).
  assert (¬ Forall (λ flow, ClusterShardMigration.GetLastAttempt flow = 5%Z)
                   (shard_flows_ w)) as Hwrong.
  { intros Hall. apply Forall_inv in Hall. vm_compute in Hall.
    discriminate. }
  split; [exact (conj Hquiet Hwrong)|].
  exact (Join_wrong_attempt 5%Z script w Hquiet Hwrong).
Defined.

(** [Cancel_outside_Start] on the stand-ins: of two flows, shard 1 is
    cancelled before it starts. *)
Lemma Cancel_outside_Start_witness :
  let w := IncomingSlotMigration.Init 2 (fresh 5) in
  let f := IncomingSlotMigration.new_flow 1 in
  let source := socket_with [RdTx (cmd ["SET"; "a"; "1"])] in
  let r := ClusterShardMigration.Cancel 1 w in
  let w2 := history [Fiber (FlowRuns 1); Tick 5%Z] r.2 in
  (shard_flows_ w !! 1 = Some f ∧ socket_ f = None)
  ∧ r.1 = 0%Z
  ∧ bc_ r.2 = (bc_ w - (if is_finished_ f then 0 else 1))%Z
  ∧ ClusterShardMigration.Cancel 1 r.2 = (0%Z, r.2)
  ∧ ClusterShardMigration.Start 3 1 source w2 = (Some (), w2).
Proof.
  intros w f source r w2.
  assert (shard_flows_ w !! 1 = Some f) as Hf by by vm_compute.
  split; [exact (conj Hf eq_refl)|].
  exact (Cancel_outside_Start 1 f [Fiber (FlowRuns 1); Tick 5%Z] 3 source w
           Hf eq_refl).
Defined.

(** [Stop_latch_zero] on the stand-ins: scenario 1 of the specification,
    then [Join(2)], then [Stop]. *)
Lemma Stop_latch_zero_witness :
  let acts :=
    [Fiber (FlowEnters 0
              (socket_with [RdTx (cmd ["SET"; "a"; "1"]);
                            RdTx (lsn_marker 2%Z)]));
     Fiber (FlowRuns 0); Fiber (FlowRuns 0); Fiber (FlowRuns 0);
     Fiber (FlowRuns 0); Fiber (FlowRuns 0);
     CallJoin 2%Z [quiet 0%Z]] in
  let w := history acts (IncomingSlotMigration.Init 1 (fresh 5)) in
  let cancelled := IncomingSlotMigration.Stop_cancel w in
  (bc_ w = 0%Z ∧ state_ w ≠ C_FATAL)
  ∧ state_ w = C_FINISHED
  ∧ bc_ cancelled = 0%Z
  ∧ IncomingSlotMigration.Stop [quiet 0%Z] w
    = (Some (),
       emit (EvLatchWait (FLAGS_migration_finalization_timeout_ms w) true)
         (set_Now (Now w + elapsed (quiet 0%Z))%Z cancelled))
  ∧ state_ cancelled = state_ w
  ∧ waits (trace cancelled) = waits (trace w).
Proof.
  intros acts w cancelled.
  assert (bc_ w = 0%Z) as Hbc by by vm_compute.
  assert (state_ w ≠ C_FATAL) as Hstate by by vm_compute.
  split; [exact (conj Hbc Hstate)|]. split; [by vm_compute|].
  exact (Stop_latch_zero 1 acts (quiet 0%Z) [] (fresh 5) Hbc Hstate).
Defined.

(** [state_transitions] says nothing of a [Join] that was called before the
    state became [C_FATAL], and such a [Join] can replace [C_FATAL] by
    [C_FINISHED].  Of two flows, shard 1 has stored attempt 5 and read a SET
    since, shard 0 has stored attempt 5 and waits.  [Join(5)] samples the
    attempts, finds the state [C_SYNC] and waits on the latch.  During the
    wait shard 1 reads a second SET, which the executor answers with
    [not_enough_memory]: the flow reports the fatal error and decrements
    the latch on its way out, which wakes [Join]; [Join] returns true and
    writes [C_FINISHED]. *)
Example Join_after_fatal_during_wait :
  let w := history
             [Fiber (FlowEnters 1
                       (socket_with [RdTx (lsn_marker 5%Z);
                                     RdTx (cmd ["SET"; "a"; "1"]);
                                     RdTx (cmd ["SET"; "b"; "2"])]));
              Fiber (FlowRuns 1); Fiber (FlowRuns 1); Fiber (FlowRuns 1);
              Fiber (FlowEnters 0 (socket_with [RdTx (lsn_marker 5%Z)]));
              Fiber (FlowRuns 0); Fiber (FlowRuns 0)]
             (IncomingSlotMigration.Init 2 (fresh 1)) in
  let r := IncomingSlotMigration.Join 5%Z
             [{| others := [FlowRuns 1; FlowRuns 1];
                 elapsed := 1000000%Z |}] w in
  state_ w = C_SYNC
  ∧ bc_ w = 1%Z
  ∧ r.1 = Some true
  ∧ state_ r.2 = C_FINISHED
  ∧ trace r.2
    = [EvLatchDec 1; EvLatchAdd 1;
       EvExecute 1 0 {| cmd_args := ["SET"; "a"; "1"] |} 0%Z;
       EvLatchDec 0;
       EvExecute 1 0 {| cmd_args := ["SET"; "b"; "2"] |} not_enough_memory;
       EvCntxReportError "Out of memory";
       EvReportFatalError "Out of memory";
       EvLatchDec 1;
       EvLatchWait 100 true].
Proof. by vm_compute. Qed.

(** ** Edges of a flow *)
Section Edges.
Context `{!ExecutionState.Ops, !JournalExecutor.Ops, !cluster.Ops}.

(** A transaction that arrives after an LSN marker when the migration is in
    [C_FATAL] is taken off the stream and dropped: it is not executed, the
    latch is not incremented again, nothing is reported, and the flow
    leaves [Start] with what it had stored; the rest of the stream is not
    read. *)
Theorem attempt_pending_fatal fuel shard f s tx rest (w : World) :
  shard_flows_ w !! shard = Some f →
  pc f = PcAttempt →
  socket_ f = Some s →
  incoming s = RdTx tx :: rest →
  state_ w = C_FATAL →
  ∃ w',
    ClusterShardMigration.run (S fuel) shard w = (Some (), w')
    ∧ trace w' = trace w
    ∧ service_ w' = service_ w
    ∧ bc_ w' = bc_ w
    ∧ cntx_ w' = cntx_ w
    ∧ state_ w' = C_FATAL
    ∧ shard_flows_ w' !! shard
      = Some {| source_shard_id_ := source_shard_id_ f;
                is_finished_ := is_finished_ f; socket_ := None;
                last_attempt_ := last_attempt_ f; pause_ := pause_ f;
                pc := PcIdle |}.
Proof.
  intros Hf Hpc Hsock Hin Hstate.
  rewrite (run_S fuel shard f w Hf) by (by rewrite Hpc).
  unfold ClusterShardMigration.step, ClusterShardMigration.NextTxData,
    ClusterShardMigration.cleanup.
  rewrite Hf, Hpc, Hsock, Hin. unfold GetState. simpl.
  rewrite decide_True by done.
  eexists. split.
  { destruct fuel; simpl; rewrite !list_lookup_alter_eq, Hf; by simpl. }
  simpl. rewrite !list_lookup_alter_eq, Hf. by simpl.
Qed.

(** [Cancel] on a flow that is inside [Start] shuts its socket down, when
    the socket is open, and answers with what the shutdown answered,
    logging a warning when that is an error; it leaves the latch, the
    flow's place in [Start] and what is still to be read alone.  On a
    socket that is not open it does nothing and answers with the empty
    error code. *)
Theorem Cancel_inside_Start shard f s (w : World) :
  shard_flows_ w !! shard = Some f →
  socket_ f = Some s →
  let r := ClusterShardMigration.Cancel shard w in
  bc_ r.2 = bc_ w
  ∧ (sock_open s = false → r = (0%Z, w))
  ∧ (sock_open s = true →
     r.1 = shutdown_result s
     ∧ shard_flows_ r.2 !! shard = Some (set_socket (Some (Shutdown s)) f)
     ∧ ∃ msg,
         trace r.2
         = trace w ++ EvShutdown shard (shutdown_result s)
             :: (if (shutdown_result s =? 0)%Z then []
                 else [EvLog WARNING msg])).
Proof.
  intros Hf Hsock r. subst r.
  unfold ClusterShardMigration.Cancel. rewrite Hf, Hsock.
  destruct (sock_open s); simpl.
  - split; [by case_match|]. split; [done|]. intros _.
    split; [done|].
    destruct (shutdown_result s =? 0)%Z; simpl;
      rewrite list_lookup_alter_eq, Hf; simpl; (split; [done|]).
    + by exists "-".
    + eexists. by rewrite <- app_assoc.
  - split; [done|]. split; [done|]. discriminate.
Qed.

(** What the conversion of a [uint64_t] to a [long] keeps. *)
Lemma to_long_spec (z : Z) :
  (0 ≤ z < 2 ^ 64)%Z →
  (- 2 ^ 63 ≤ to_long z < 2 ^ 63)%Z
  ∧ to_long z = (if (z <? 2 ^ 63)%Z then z else z - 2 ^ 64)%Z.
Proof.
  intros Hz. unfold to_long.
  split; [pose proof (Z.mod_pos_bound (z + 2 ^ 63) (2 ^ 64)); lia|].
  destruct (Z.ltb_spec z (2 ^ 63)) as [Hlt|Hge].
  - rewrite Z.mod_small by lia. lia.
  - replace (z + 2 ^ 63)%Z with ((z - 2 ^ 63) + 1 * 2 ^ 64)%Z by lia.
    rewrite Z.mod_add by lia. rewrite Z.mod_small by lia. lia.
Qed.

(** A flow that reads an LSN marker stores the marker's LSN, a
    [uint64_t], in [last_attempt_], a [long]: what [GetLastAttempt] answers
    afterwards, and what [Join] compares its argument with, is the LSN when
    the LSN is below 2^63 and the LSN less 2^64, a negative number, from
    there on.  The flow has then decremented the latch and waits for the
    next transaction with the attempt pending; a marker read at the head of
    the loop costs the latch one, a marker that follows a marker leaves the
    latch where it was. *)
Theorem stored_attempt shard f s tx rest (w : World) :
  shard_flows_ w !! shard = Some f →
  pc f = PcRead ∨ (pc f = PcAttempt ∧ state_ w ≠ C_FATAL) →
  socket_ f = Some s →
  incoming s = RdTx tx :: rest →
  opcode tx = journal.LSN →
  (0 ≤ lsn tx < 2 ^ 64)%Z →
  let w' := ClusterShardMigration.step shard w in
  ∃ f',
    shard_flows_ w' !! shard = Some f'
    ∧ ClusterShardMigration.GetLastAttempt f'
      = (if (lsn tx <? 2 ^ 63)%Z then lsn tx else lsn tx - 2 ^ 64)%Z
    ∧ (- 2 ^ 63 ≤ ClusterShardMigration.GetLastAttempt f' < 2 ^ 63)%Z
    ∧ pc f' = PcAttempt
    ∧ socket_ f' = Some (pop_incoming s)
    ∧ bc_ w' = (if decide (pc f = PcRead) then bc_ w - 1 else bc_ w)%Z
    ∧ service_ w' = service_ w
    ∧ state_ w' = state_ w.
Proof.
  intros Hf Hpc Hsock Hin Hop Hlsn w'. subst w'.
  destruct (to_long_spec (lsn tx) Hlsn) as [Hrange Hval].
  unfold ClusterShardMigration.step, ClusterShardMigration.NextTxData,
    ClusterShardMigration.on_tx.
  rewrite Hf.
  destruct Hpc as [Hpc|[Hpc Hstate]]; rewrite Hpc, Hsock, Hin; simpl.
  - rewrite Hop. simpl. rewrite !list_lookup_alter_eq, Hf. simpl.
    eexists. split; [done|]. simpl. repeat split; try done; lia.
  - unfold GetState. simpl. rewrite decide_False by done.
    rewrite Hop. simpl. rewrite !list_lookup_alter_eq, Hf. simpl.
    eexists. split; [done|]. simpl. repeat split; try done; lia.
Qed.

End Edges.

(** [attempt_pending_fatal] on the stand-ins: shard 0 has an attempt
    pending at LSN 5 with a SET behind it, and shard 1 has met an
    out-of-memory answer. *)
Lemma attempt_pending_fatal_witness :
  let w := history
             [Fiber (FlowEnters 0
                       (socket_with [RdTx (lsn_marker 5%Z);
                                     RdTx (cmd ["SET"; "c"; "3"])]));
              Fiber (FlowRuns 0); Fiber (FlowRuns 0);
              Fiber (FlowEnters 1
                       (socket_with [RdTx (cmd ["SET"; "a"; "1"])]));
              Fiber (FlowRuns 1); Fiber (FlowRuns 1)]
             (IncomingSlotMigration.Init 2 (fresh 0)) in
  let s := socket_with [RdTx (cmd ["SET"; "c"; "3"])] in
  let f := {| source_shard_id_ := 0; is_finished_ := true;
              socket_ := Some s; last_attempt_ := 5; pause_ := false;
              pc := PcAttempt |} in
  (shard_flows_ w !! 0 = Some f
   ∧ pc f = PcAttempt
   ∧ socket_ f = Some s
   ∧ incoming s = [RdTx (cmd ["SET"; "c"; "3"])]
   ∧ state_ w = C_FATAL)
  ∧ ∃ w',
      ClusterShardMigration.run 1 0 w = (Some (), w')
      ∧ trace w' = trace w
      ∧ service_ w' = service_ w
      ∧ bc_ w' = bc_ w
      ∧ cntx_ w' = cntx_ w
      ∧ state_ w' = C_FATAL
      ∧ shard_flows_ w' !! 0
        = Some {| source_shard_id_ := source_shard_id_ f;
                  is_finished_ := is_finished_ f; socket_ := None;
                  last_attempt_ := last_attempt_ f; pause_ := pause_ f;
                  pc := PcIdle |}.
Proof.
  intros w s f.
  assert (shard_flows_ w !! 0 = Some f) as Hf by by vm_compute.
  assert (state_ w = C_FATAL) as Hstate by by vm_compute.
  split.
  { exact (conj Hf (conj eq_refl (conj eq_refl (conj eq_refl Hstate)))). }
  exact (attempt_pending_fatal 0 0 f s (cmd ["SET"; "c"; "3"]) [] w
           Hf eq_refl eq_refl eq_refl Hstate).
Defined.

(** [Cancel_inside_Start] on the stand-ins: a flow inside [Start] whose
    socket answers the shutdown with [ENOTCONN] (107). *)
Lemma Cancel_inside_Start_witness :
  let s := {| sock_open := true; sock_shut := false;
              shutdown_result := 107%Z; sock_info := "fd 7";
              incoming := [RdTx (cmd ["SET"; "a"; "1"])] |} in
  let w := ClusterShardMigration.enter 0 s
             (IncomingSlotMigration.Init 1 (fresh 5)) in
  let f := begin_flow s (IncomingSlotMigration.new_flow 0) in
  let r := ClusterShardMigration.Cancel 0 w in
  (shard_flows_ w !! 0 = Some f ∧ socket_ f = Some s)
  ∧ r.1 = 107%Z
  ∧ bc_ r.2 = bc_ w
  ∧ shard_flows_ r.2 !! 0 = Some (set_socket (Some (Shutdown s)) f)
  ∧ ∃ msg, trace r.2 = trace w ++ [EvShutdown 0 107%Z; EvLog WARNING msg].
Proof.
  intros s w f r.
  assert (shard_flows_ w !! 0 = Some f) as Hf by by vm_compute.
  split; [exact (conj Hf eq_refl)|].
  destruct (Cancel_inside_Start 0 f s w Hf eq_refl) as (Hbc & _ & Hopen).
  destruct (Hopen eq_refl) as (Hec & Hflow & Htrace).
  split; [exact Hec|]. split; [exact Hbc|]. split; [exact Hflow|].
  exact Htrace.
Defined.

(** [stored_attempt] at the largest [uint64_t]: the flow of shard 0 reads
    the marker and stores -1, the value [last_attempt_] has before any
    marker. *)
Lemma stored_attempt_witness :
  let tx := lsn_marker (2 ^ 64 - 1) in
  let s := socket_with [RdTx tx] in
  let w := ClusterShardMigration.step 0
             (ClusterShardMigration.enter 0 s
                (IncomingSlotMigration.Init 1 (fresh 1))) in
  let f := {| source_shard_id_ := 0; is_finished_ := true;
              socket_ := Some s; last_attempt_ := -1; pause_ := false;
              pc := PcRead |} in
  let w' := ClusterShardMigration.step 0 w in
  (shard_flows_ w !! 0 = Some f
   ∧ (pc f = PcRead ∨ (pc f = PcAttempt ∧ state_ w ≠ C_FATAL))
   ∧ socket_ f = Some s
   ∧ incoming s = [RdTx tx]
   ∧ opcode tx = journal.LSN
   ∧ (0 ≤ lsn tx < 2 ^ 64)%Z)
  ∧ ∃ f',
      shard_flows_ w' !! 0 = Some f'
      ∧ ClusterShardMigration.GetLastAttempt f' = (-1)%Z
      ∧ pc f' = PcAttempt
      ∧ bc_ w' = 0%Z.
Proof.
  intros tx s w f w'.
  assert (shard_flows_ w !! 0 = Some f) as Hf by by vm_compute.
  assert (pc f = PcRead ∨ (pc f = PcAttempt ∧ state_ w ≠ C_FATAL)) as Hpc
    by by left.
  assert (socket_ f = Some s) as Hsock by done.
  assert (incoming s = [RdTx tx]) as Hin by done.
  assert (opcode tx = journal.LSN) as Hop by done.
  assert (0 ≤ lsn tx < 2 ^ 64)%Z as Hlsn by (by vm_compute).
  split; [exact (conj Hf (conj Hpc (conj Hsock (conj Hin (conj Hop Hlsn)))))|].
  destruct (stored_attempt 0 f s tx [] w Hf Hpc Hsock Hin Hop Hlsn)
    as (f' & Hf' & Hval & _ & Hpc' & _ & Hbc & _).
  exists f'. split; [exact Hf'|]. split; [|split; [exact Hpc'|]].
  - etrans; [exact Hval|by vm_compute].
  - etrans; [exact Hbc|by vm_compute].
Defined.

(** ** A migration from [Init] to [Join] *)
Section Finalize.
Context `{!ExecutionState.Ops, !JournalExecutor.Ops, !cluster.Ops}.

Lemma clean_app txs1 txs2 s :
  clean (txs1 ++ txs2) s = clean txs1 s && clean txs2 (apply_all txs1 s).
Proof.
  revert s. induction txs1 as [|tx txs1 IH]; intros s; [done|].
  simpl. unfold apply_all. simpl. fold (apply_all txs1).
  destruct (is_data tx); [|apply IH].
  rewrite IH. by rewrite !andb_assoc.
Qed.

Lemma same_frame_run fuel shard : ∀ (w : World),
  same_frame w (ClusterShardMigration.run fuel shard w).2.
Proof.
  induction fuel as [|fuel IH]; intros w; simpl.
  - repeat case_match; apply same_frame_refl.
  - destruct (shard_flows_ w !! shard) as [f|]; [|apply same_frame_refl].
    destruct (pc f); [apply same_frame_refl|..];
      (eapply same_frame_trans; [apply same_frame_step|apply IH]).
Qed.

Lemma same_frame_Start fuel shard source (w : World) :
  same_frame w (ClusterShardMigration.Start fuel shard source w).2.
Proof.
  unfold ClusterShardMigration.Start.
  repeat case_match; try apply same_frame_refl.
  eapply same_frame_trans; [apply same_frame_enter|apply same_frame_run].
Qed.

Lemma has_left_same shard a (w w' : World) :
  shard_flows_ w' !! shard = shard_flows_ w !! shard →
  has_left shard a w → has_left shard a w'.
Proof. unfold has_left. intros ->. done. Qed.

Lemma unstarted_same shard (w w' : World) :
  shard_flows_ w' !! shard = shard_flows_ w !! shard →
  unstarted shard w → unstarted shard w'.
Proof. unfold unstarted. intros ->. done. Qed.

(** The flows started one after the other, each on a clean stream. *)
Lemma start_from_clean fuel : ∀ sources streams shard (w : World),
  incoming <$> sources = fmap RdTx <$> streams →
  (∀ i, i < length sources → unstarted (shard + i) w) →
  ExecutionState.IsRunning (cntx_ w) = true →
  state_ w ≠ C_FATAL →
  clean (concat streams) (service_ w) = true →
  Forall (λ txs, 2 * length txs + 2 ≤ fuel) streams →
  let w' := start_from fuel shard sources w in
  service_ w' = apply_all (concat streams) (service_ w)
  ∧ state_ w' = state_ w
  ∧ cntx_ w' = cntx_ w
  ∧ bc_ w' = (bc_ w - Z.of_nat (length sources))%Z
  ∧ FLAGS_migration_finalization_timeout_ms w'
    = FLAGS_migration_finalization_timeout_ms w
  ∧ (∀ i txs, streams !! i = Some txs →
       has_left (shard + i) (last_marker txs (-1)) w'
       ∧ executed (shard + i) (trace w')
         = executed (shard + i) (trace w) ++ payload txs)
  ∧ (∀ j, j < shard ∨ shard + length sources ≤ j →
       shard_flows_ w' !! j = shard_flows_ w !! j
       ∧ executed j (trace w') = executed j (trace w)).
Proof.
  induction sources as [|source sources IH];
    intros streams shard w Hstreams Hfresh Hrun Hstate Hclean Hfuel w'.
  { destruct streams; [|done]. subst w'. simpl.
    split; [done|]. split; [done|]. split; [done|]. split; [lia|].
    split; [done|]. split; [|done]. intros i txs. by rewrite lookup_nil. }
  destruct streams as [|txs streams]; [done|].
  injection Hstreams as Hsource Hstreams.
  simpl in Hclean. rewrite clean_app in Hclean.
  apply andb_true_iff in Hclean as [Hclean1 Hclean2].
  apply Forall_cons in Hfuel as [Hfuel1 Hfuel2].
  destruct (Hfresh 0) as (f & Hf & Hfin & Hpause & Hatt); [simpl; lia|].
  rewrite Nat.add_0_r in Hf.
  destruct (Start_clean fuel shard source [] txs [] f w)
    as (w1 & Hstart & Hflow & Hleft & Hprog & Hcntx);
    [done..|by rewrite app_nil_r|done|done|done|].
  rewrite Hatt in Hleft. unfold after_reading in Hcntx. simpl in Hcntx.
  destruct Hprog as (Hexec & Hserv & Hst & Hbc & Hothers & Hquiet).
  subst w'. simpl. rewrite Hflow. simpl.
  destruct (IH streams (S shard) w1) as
    (Hserv' & Hst' & Hcntx' & Hbc' & Hflags' & Hdone' & Hrest'); try done.
  { intros i Hi.
    apply (unstarted_same _ w); [apply Hothers; lia|].
    replace (S shard + i) with (shard + S i) by lia.
    apply Hfresh. simpl. lia. }
  { by rewrite Hcntx. }
  { by rewrite Hst. }
  { by rewrite Hserv. }
  split; [by rewrite Hserv', Hserv, apply_all_app|].
  split; [by rewrite Hst', Hst|].
  split; [by rewrite Hcntx', Hcntx|].
  split; [rewrite Hbc', Hbc; simpl length; lia|].
  split.
  { rewrite Hflags'.
    pose proof (same_frame_Start fuel shard source w) as Hframe.
    rewrite Hstart in Hframe. destruct Hframe as (_ & Hflags & _).
    simpl in Hflags. by rewrite Hflags. }
  split.
  - intros [|i] txs' Hlookup; simpl in Hlookup.
    + injection Hlookup as <-. rewrite Nat.add_0_r.
      destruct (Hrest' shard) as [Hsame Hsame']; [lia|].
      split; [by apply (has_left_same _ _ w1)|].
      by rewrite Hsame', Hexec.
    + destruct (Hdone' i txs' Hlookup) as [Hl He].
      replace (shard + S i) with (S shard + i) by lia.
      split; [done|]. rewrite He, Hquiet by lia. done.
  - intros j Hj. simpl in Hj.
    destruct (Hrest' j) as [Hsame Hsame']; [lia|].
    rewrite Hsame, Hsame', Hothers, Hquiet by lia. done.
Qed.

(** A migration from [Init] to [Join].  [Init] sets up as many flows as
    there are sockets; the flows are started one after the other, each on a
    stream that is read to its end without incident, under a context that
    [Init] left running; the last LSN marker of every stream is [attempt]
    (or no stream has a marker and [attempt] is -1).  Then [Join(attempt)]
    returns true at its first wait: the latch is at zero, the state becomes
    [C_FINISHED], the service has been given the data of all streams, each
    stream in its order, and nothing else, and [GetKeyCount] answers with
    the key count of that service. *)
Theorem migration_finalizes fuel attempt sources streams env script
    (w0 : World) :
  let w := IncomingSlotMigration.Init (length sources) w0 in
  ExecutionState.IsRunning (ExecutionState.Reset (cntx_ w0)) = true →
  (0 < FLAGS_migration_finalization_timeout_ms w0)%Z →
  incoming <$> sources = fmap RdTx <$> streams →
  clean (concat streams) (service_ w0) = true →
  Forall (λ txs, last_marker txs (-1) = attempt ∧ 2 * length txs + 2 ≤ fuel)
         streams →
  let w1 := start_from fuel 0 sources w in
  ∃ w2,
    IncomingSlotMigration.Join attempt (env :: script) w1 = (Some true, w2)
    ∧ state_ w2 = C_FINISHED
    ∧ bc_ w2 = 0%Z
    ∧ service_ w2 = apply_all (concat streams) (service_ w0)
    ∧ IncomingSlotMigration.GetKeyCount w2
      = cluster.GetKeyCount (slots_ w2) (service_ w2)
    ∧ ∀ shard txs, streams !! shard = Some txs →
        executed shard (trace w2) = payload txs.
Proof.
  intros w Hrun Hflag Hstreams Hclean Hall w1.
  assert (length streams = length sources) as Hlen.
  { apply (f_equal length) in Hstreams. by rewrite !length_fmap in Hstreams. }
  destruct (start_from_clean fuel sources streams 0 w)
    as (Hserv & Hst & Hcntx & Hbc & Hflags & Hdone & Hrest); try done.
  { intros i Hi. unfold unstarted. simpl. rewrite list_lookup_fmap.
    rewrite lookup_seq_lt by done. simpl. by eexists. }
  { eapply Forall_impl; [apply Hall|]. by intros txs [_ ?]. }
  fold w1 in Hserv, Hst, Hcntx, Hbc, Hflags, Hdone, Hrest.
  simpl in Hserv, Hst, Hbc, Hflags.
  assert (Forall (λ flow, ClusterShardMigration.GetLastAttempt flow = attempt)
                 (shard_flows_ w1)) as Hattempt.
  { apply Forall_lookup. intros i f Hf.
    destruct (decide (i < length sources)) as [Hi|Hi].
    - destruct (lookup_lt_is_Some_2 streams i) as [txs Htxs]; [lia|].
      destruct (Hdone i txs Htxs) as [(f' & Hf' & _ & _ & Hatt & _) _].
      simpl in Hf'. rewrite Hf in Hf'. injection Hf' as <-.
      rewrite Forall_lookup in Hall. destruct (Hall i txs Htxs) as [<- _].
      done.
    - destruct (Hrest i) as [Hsame _]; [simpl; lia|].
      rewrite Hsame in Hf. simpl in Hf. rewrite list_lookup_fmap in Hf.
      rewrite lookup_seq_ge in Hf by lia. done. }
  eexists. split.
  { apply Join_ready; [by rewrite Hflags|by rewrite Hst|done|lia]. }
  unfold IncomingSlotMigration.GetKeyCount. simpl.
  split; [done|]. split; [lia|]. split; [done|]. split; [done|].
  intros shard txs Htxs. destruct (Hdone shard txs Htxs) as [_ Hexec].
  simpl in Hexec. unfold executed in *. rewrite omap_app. simpl.
  by rewrite app_nil_r.
Qed.

(** [Join] and the flows.  In a migration set up by [Init], whatever its
    fibers have done since: when every flow has stored [attempt] and either
    waits behind its marker or has left [Start] (or was cancelled before it
    started), the latch is at zero, and [Join(attempt)], called with a
    positive timeout outside [C_FATAL], returns true at its first wait and
    sets [C_FINISHED]. *)
Theorem Join_when_flows_done shards_num acts attempt env script
    (w0 : World) :
  let w := history acts (IncomingSlotMigration.Init shards_num w0) in
  (0 < FLAGS_migration_finalization_timeout_ms w)%Z →
  state_ w ≠ C_FATAL →
  Forall (λ f, ClusterShardMigration.GetLastAttempt f = attempt
               ∧ (pc f = PcAttempt
                  ∨ (pc f = PcIdle ∧ is_finished_ f = true)))
         (shard_flows_ w) →
  bc_ w = 0%Z
  ∧ ∃ w',
      IncomingSlotMigration.Join attempt (env :: script) w = (Some true, w')
      ∧ state_ w' = C_FINISHED
      ∧ shard_flows_ w' = shard_flows_ w.
Proof.
  intros w Hflag Hstate Hflows.
  assert (bc_ w = 0%Z) as Hbc.
  { destruct (same_ledger_history acts _
                (all_accounted_Init shards_num w0)) as [Hlen Hledger].
    fold w in Hlen, Hledger.
    destruct (latch_ledger_Init shards_num w0) as [Hn Hinit].
    destruct (latch_debt_full (shard_flows_ w)) as [_ Hfull].
    assert (latch_debt (shard_flows_ w) = Z.of_nat (length (shard_flows_ w)))
      as Hdebt.
    { apply Hfull. eapply Forall_impl; [apply Hflows|].
      intros f [_ [Hpc|[Hpc Hfin]]]; unfold owes; rewrite Hpc; [done|].
      by rewrite Hfin. }
    unfold latch_ledger in *. lia. }
  split; [done|]. eexists. split.
  { apply Join_ready; try done.
    eapply Forall_impl; [apply Hflows|]. by intros f [? _]. }
  done.
Qed.

End Finalize.

(** [migration_finalizes] on the stand-ins: two flows, each with a SET and
    the marker LSN 7, then [Join(7)]. *)
Lemma migration_finalizes_witness :
  let streams := [[cmd ["SET"; "a"; "1"]; lsn_marker 7%Z];
                  [cmd ["SET"; "b"; "2"]; lsn_marker 7%Z]] in
  let sources := (λ txs, socket_with (RdTx <$> txs)) <$> streams in
  let w0 := fresh 5 in
  let w1 := start_from 10 0 sources
              (IncomingSlotMigration.Init (length sources) w0) in
  (ExecutionState.IsRunning (ExecutionState.Reset (cntx_ w0)) = true
   ∧ (0 < FLAGS_migration_finalization_timeout_ms w0)%Z
   ∧ incoming <$> sources = fmap RdTx <$> streams
   ∧ clean (concat streams) (service_ w0) = true
   ∧ Forall (λ txs, last_marker txs (-1) = 7%Z ∧ 2 * length txs + 2 ≤ 10)
            streams)
  ∧ applied (apply_all (concat streams) (service_ w0))
    = [{| cmd_args := ["SET"; "a"; "1"] |};
       {| cmd_args := ["SET"; "b"; "2"] |}]
  ∧ ∃ w2,
      IncomingSlotMigration.Join 7%Z [quiet 0%Z] w1 = (Some true, w2)
      ∧ state_ w2 = C_FINISHED
      ∧ bc_ w2 = 0%Z
      ∧ service_ w2 = apply_all (concat streams) (service_ w0)
      ∧ IncomingSlotMigration.GetKeyCount w2
        = cluster.GetKeyCount (slots_ w2) (service_ w2)
      ∧ ∀ shard txs, streams !! shard = Some txs →
          executed shard (trace w2) = payload txs.
Proof.
  intros streams sources w0 w1.
  assert (ExecutionState.IsRunning (ExecutionState.Reset (cntx_ w0)) = true)
    as Hrun by by vm_compute.
  assert (0 < FLAGS_migration_finalization_timeout_ms w0)%Z as Hflag
    by by vm_compute.
  assert (incoming <$> sources = fmap RdTx <$> streams) as Hstreams
    by by vm_compute.
  assert (clean (concat streams) (service_ w0) = true) as Hclean
    by by vm_compute.
  assert (Forall (λ txs, last_marker txs (-1) = 7%Z
                         ∧ 2 * length txs + 2 ≤ 10) streams) as Hall.
  { repeat apply Forall_cons_2; try apply Forall_nil_2;
      (split; [by vm_compute|simpl; lia]). }
  split; [exact (conj Hrun (conj Hflag (conj Hstreams (conj Hclean Hall))))|].
  split; [by vm_compute|].
  exact (migration_finalizes 10 7%Z sources streams (quiet 0%Z) [] w0
           Hrun Hflag Hstreams Hclean Hall).
Defined.

(** [Join_when_flows_done] on the stand-ins: of two flows, shard 0 waits
    behind the marker LSN 5 and shard 1 has read the marker LSN 5 and the
    end of its stream. *)
Lemma Join_when_flows_done_witness :
  let acts :=
    [Fiber (FlowEnters 0 (socket_with [RdTx (lsn_marker 5%Z)]));
     Fiber (FlowRuns 0); Fiber (FlowRuns 0);
     Fiber (FlowEnters 1 (socket_with [RdTx (lsn_marker 5%Z)]));
     Fiber (FlowRuns 1); Fiber (FlowRuns 1); Fiber (FlowRuns 1)] in
  let w := history acts (IncomingSlotMigration.Init 2 (fresh 5)) in
  ((0 < FLAGS_migration_finalization_timeout_ms w)%Z
   ∧ state_ w ≠ C_FATAL
   ∧ Forall (λ f, ClusterShardMigration.GetLastAttempt f = 5%Z
                  ∧ (pc f = PcAttempt
                     ∨ (pc f = PcIdle ∧ is_finished_ f = true)))
            (shard_flows_ w))
  ∧ pc <$> shard_flows_ w = [PcAttempt; PcIdle]
  ∧ bc_ w = 0%Z
  ∧ ∃ w',
      IncomingSlotMigration.Join 5%Z [quiet 0%Z] w = (Some true, w')
      ∧ state_ w' = C_FINISHED
      ∧ shard_flows_ w' = shard_flows_ w.
Proof.
  intros acts w.
  assert (0 < FLAGS_migration_finalization_timeout_ms w)%Z as Hflag
    by by vm_compute.
  assert (state_ w ≠ C_FATAL) as Hstate by by vm_compute.
  assert (Forall (λ f, ClusterShardMigration.GetLastAttempt f = 5%Z
                       ∧ (pc f = PcAttempt
                          ∨ (pc f = PcIdle ∧ is_finished_ f = true)))
                 (shard_flows_ w)) as Hflows.
  { vm_compute. repeat apply Forall_cons_2; try apply Forall_nil_2.
    - split; [reflexivity|by left].
    - split; [reflexivity|by right]. }
  split; [exact (conj Hflag (conj Hstate Hflows))|].
  split; [by vm_compute|].
  exact (Join_when_flows_done 2 acts 5%Z (quiet 0%Z) [] (fresh 5)
           Hflag Hstate Hflows).
Defined.

(** ** [Join], [Stop] and [StartFlow] as whole calls *)
Section Calls.
Context `{!ExecutionState.Ops, !JournalExecutor.Ops, !cluster.Ops}.

(** *** What is kept while the fibers run *)

Lemma kept_refl (w : World) : kept_unless_fatal w w.
Proof. exists []. rewrite app_nil_r. split; [done|by left]. Qed.

Lemma kept_trans (w1 w2 w3 : World) :
  kept_unless_fatal w1 w2 → kept_unless_fatal w2 w3 →
  kept_unless_fatal w1 w3.
Proof.
  intros (evs1 & Ht1 & Hs1) (evs2 & Ht2 & Hs2).
  exists (evs1 ++ evs2). rewrite Ht2, Ht1, app_assoc. split; [done|].
  destruct Hs2 as [Hs2|[Hs2 Hin]].
  - destruct Hs1 as [Hs1|[Hs1 Hin]]; [left; congruence|].
    right. split; [congruence|]. apply elem_of_app. by left.
  - right. split; [done|]. apply elem_of_app. by right.
Qed.

Lemma kept_emit e (w w1 : World) :
  kept_unless_fatal w w1 → kept_unless_fatal w (emit e w1).
Proof.
  intros (evs & Ht & Hs). exists (evs ++ [e]). simpl.
  rewrite Ht, app_assoc. split; [done|].
  destruct Hs as [Hs|[Hs Hin]]; [by left|].
  right. split; [done|]. apply elem_of_app. by left.
Qed.

Lemma kept_upd_flow i g (w w1 : World) :
  kept_unless_fatal w w1 → kept_unless_fatal w (upd_flow i g w1).
Proof. intros (evs & Ht & Hs). by exists evs. Qed.

Lemma kept_set_bc n (w w1 : World) :
  kept_unless_fatal w w1 → kept_unless_fatal w (set_bc n w1).
Proof. intros (evs & Ht & Hs). by exists evs. Qed.

Lemma kept_set_cntx c (w w1 : World) :
  kept_unless_fatal w w1 → kept_unless_fatal w (set_cntx c w1).
Proof. intros (evs & Ht & Hs). by exists evs. Qed.

Lemma kept_set_service s (w w1 : World) :
  kept_unless_fatal w w1 → kept_unless_fatal w (set_service s w1).
Proof. intros (evs & Ht & Hs). by exists evs. Qed.

Lemma kept_set_Now t (w w1 : World) :
  kept_unless_fatal w w1 → kept_unless_fatal w (set_Now t w1).
Proof. intros (evs & Ht & Hs). by exists evs. Qed.

Lemma kept_ReportFatalError (w w1 : World) :
  kept_unless_fatal w w1 →
  kept_unless_fatal w (ReportFatalError cluster.kIncomingMigrationOOM w1).
Proof.
  intros (evs & Ht & _).
  exists (evs ++ [EvReportFatalError cluster.kIncomingMigrationOOM]).
  simpl. rewrite Ht, app_assoc. split; [done|].
  right. split; [done|]. apply elem_of_app. right.
  by apply list_elem_of_singleton.
Qed.

Create HintDb kept discriminated.

#[local] Hint Resolve kept_refl kept_emit kept_upd_flow kept_set_bc
  kept_set_cntx kept_set_service kept_set_Now kept_ReportFatalError : kept.

Lemma kept_Dec shard (w w1 : World) :
  kept_unless_fatal w w1 →
  kept_unless_fatal w (ClusterShardMigration.Dec shard w1).
Proof. unfold ClusterShardMigration.Dec. auto with kept. Qed.

Lemma kept_Add shard (w w1 : World) :
  kept_unless_fatal w w1 →
  kept_unless_fatal w (ClusterShardMigration.Add shard w1).
Proof. unfold ClusterShardMigration.Add. auto with kept. Qed.

Lemma kept_LOG sev msg (w w1 : World) :
  kept_unless_fatal w w1 → kept_unless_fatal w (LOG sev msg w1).
Proof. unfold LOG. auto with kept. Qed.

Lemma kept_ReportError err (w w1 : World) :
  kept_unless_fatal w w1 → kept_unless_fatal w (ReportError err w1).
Proof. unfold ReportError. auto with kept. Qed.

Lemma kept_cntx_ReportError err (w w1 : World) :
  kept_unless_fatal w w1 → kept_unless_fatal w (cntx_ReportError err w1).
Proof. unfold cntx_ReportError. auto with kept. Qed.

#[local] Hint Resolve kept_Dec kept_Add kept_LOG kept_ReportError
  kept_cntx_ReportError : kept.

Lemma kept_exit_loop shard (w w1 : World) :
  kept_unless_fatal w w1 →
  kept_unless_fatal w (ClusterShardMigration.exit_loop shard w1).
Proof.
  unfold ClusterShardMigration.exit_loop, ClusterShardMigration.cleanup.
  auto with kept.
Qed.

Lemma kept_NextTxData shard (w w1 : World) :
  kept_unless_fatal w w1 →
  kept_unless_fatal w (ClusterShardMigration.NextTxData shard w1).2.
Proof.
  intros Hw. unfold ClusterShardMigration.NextTxData.
  repeat case_match; simpl; auto with kept.
Qed.

Lemma kept_ExecuteTx shard tx_data (w w1 : World) :
  kept_unless_fatal w w1 →
  kept_unless_fatal w (ClusterShardMigration.ExecuteTx shard tx_data w1).2.
Proof.
  intros Hw. unfold ClusterShardMigration.ExecuteTx.
  repeat case_match; simpl; auto 7 with kept.
Qed.

Lemma kept_on_tx shard tx_data (w w1 : World) :
  kept_unless_fatal w w1 →
  kept_unless_fatal w (ClusterShardMigration.on_tx shard tx_data w1).
Proof.
  intros Hw. unfold ClusterShardMigration.on_tx.
  pose proof (kept_ExecuteTx shard tx_data w w1 Hw) as Hexec.
  destruct (ClusterShardMigration.ExecuteTx shard tx_data w1) as [err w2].
  simpl in Hexec.
  repeat case_match; auto 8 using kept_exit_loop with kept.
Qed.

Lemma kept_step shard (w : World) :
  kept_unless_fatal w (ClusterShardMigration.step shard w).
Proof.
  unfold ClusterShardMigration.step.
  pose proof (kept_NextTxData shard w w (kept_refl w)) as Hread.
  destruct (ClusterShardMigration.NextTxData shard w) as [tx_data w1].
  simpl in Hread. unfold ClusterShardMigration.cleanup.
  repeat case_match; auto 7 using kept_exit_loop, kept_on_tx with kept.
Qed.

Lemma kept_enter shard source (w : World) :
  kept_unless_fatal w (ClusterShardMigration.enter shard source w).
Proof.
  unfold ClusterShardMigration.enter. repeat case_match; auto with kept.
Qed.

Lemma kept_Pause pause (w : World) :
  kept_unless_fatal w (IncomingSlotMigration.Pause pause w).
Proof.
  rewrite Pause_closed_form. exists []. rewrite app_nil_r.
  split; [done|by left].
Qed.

Lemma kept_act a (w : World) :
  kept_unless_fatal w (IncomingSlotMigration.act a w).
Proof.
  destruct a; simpl; auto using kept_enter, kept_step, kept_Pause.
Qed.

Lemma kept_until_zero acts (w : World) :
  kept_unless_fatal w (IncomingSlotMigration.until_zero acts w).2.
Proof.
  revert w. induction acts as [|a acts IH]; intros w; simpl.
  - case_match; apply kept_refl.
  - case_match; [apply kept_refl|].
    eapply kept_trans; [apply kept_act|apply IH].
Qed.

Lemma kept_WaitFor ms env (w : World) :
  kept_unless_fatal w (IncomingSlotMigration.WaitFor ms env w).2.
Proof.
  rewrite WaitFor_spec. simpl.
  apply kept_emit, kept_set_Now, kept_until_zero.
Qed.

Lemma kept_Cancel shard (w : World) :
  kept_unless_fatal w (ClusterShardMigration.Cancel shard w).2.
Proof.
  unfold ClusterShardMigration.Cancel.
  repeat case_match; simpl; auto 7 with kept.
Qed.

Lemma kept_Stop_cancel (w : World) :
  kept_unless_fatal w (IncomingSlotMigration.Stop_cancel w).
Proof.
  unfold IncomingSlotMigration.Stop_cancel,
    IncomingSlotMigration.cancel_flows.
  set (w2 := emit EvCntxCancel _).
  assert (kept_unless_fatal w w2) as Hw2 by (subst w2; auto with kept).
  generalize (seq 0 (length (shard_flows_ w2))). intros shards.
  revert Hw2. generalize w2. clear w2.
  induction shards as [|shard shards IH]; intros w2 Hw2; simpl; [done|].
  apply IH. eapply kept_trans; [apply Hw2|apply kept_Cancel].
Qed.

Lemma kept_Stop_loop start script (w : World) :
  kept_unless_fatal w (IncomingSlotMigration.Stop_loop start script w).2.
Proof.
  revert w. induction script as [|env script IH]; intros w; simpl;
    [apply kept_refl|].
  rewrite Stop_iteration_spec. simpl.
  set (ms := ToInt64Milliseconds _).
  pose proof (kept_WaitFor ms env w) as Hwait.
  destruct (IncomingSlotMigration.WaitFor ms env w) as [res w1].
  simpl in *. destruct res; simpl; [done|].
  destruct (_ <=? _)%Z; simpl.
  - by apply kept_LOG.
  - eapply kept_trans; [apply Hwait|apply IH].
Qed.

(** A [Join] that does not accept writes no state. *)
Lemma kept_Join_iteration attempt start env (w : World) :
  (IncomingSlotMigration.Join_iteration attempt start env w).1 ≠ Some true →
  kept_unless_fatal w
    (IncomingSlotMigration.Join_iteration attempt start env w).2.
Proof.
  destruct (Z.leb_spec
              (Milliseconds (FLAGS_migration_finalization_timeout_ms w))
              (Now w - start)) as [Hle|Hlt].
  { unfold IncomingSlotMigration.Join_iteration.
    destruct (Z.leb_spec
                (Milliseconds (FLAGS_migration_finalization_timeout_ms w))
                (Now w - start)); [|lia].
    intros _. simpl. auto with kept. }
  destruct (decide (GetState w = C_FATAL)) as [Hfatal|Hstate].
  { unfold IncomingSlotMigration.Join_iteration.
    destruct (Z.leb_spec
                (Milliseconds (FLAGS_migration_finalization_timeout_ms w))
                (Now w - start)); [lia|].
    destruct (decide (GetState w = C_FATAL)); [|done].
    intros _. apply kept_refl. }
  rewrite (Join_iteration_waits attempt start env w Hlt Hstate). simpl.
  set (ms := Z.min 100 _).
  pose proof (kept_WaitFor ms env w) as Hwait.
  destruct (IncomingSlotMigration.WaitFor ms env w) as [res w1].
  simpl in *.
  destruct (forallb _ _); [|done].
  destruct res; simpl; [done|]. intros _. auto with kept.
Qed.

Lemma kept_Join_loop attempt start script (w : World) :
  (IncomingSlotMigration.Join_loop attempt start script w).1 ≠ Some true →
  kept_unless_fatal w
    (IncomingSlotMigration.Join_loop attempt start script w).2.
Proof.
  revert w. induction script as [|env script IH]; intros w; simpl;
    [intros _; apply kept_refl|].
  pose proof (kept_Join_iteration attempt start env w) as Hit.
  destruct (IncomingSlotMigration.Join_iteration attempt start env w)
    as [[res|] w1]; simpl in *; [done|].
  intros Hrest. eapply kept_trans; [by apply Hit|by apply IH].
Qed.

(** *** The loop of [Join] before its last iteration *)

(** The iterations that go round again use the script up from the front. *)
Lemma Join_loop_app attempt start before script (w w_head : World) :
  IncomingSlotMigration.Join_loop attempt start before w = (None, w_head) →
  IncomingSlotMigration.Join_loop attempt start (before ++ script) w
  = IncomingSlotMigration.Join_loop attempt start script w_head.
Proof.
  revert w. induction before as [|env before IH]; intros w; simpl.
  - by intros [= ->].
  - destruct (IncomingSlotMigration.Join_iteration attempt start env w)
      as [[res|] w1]; [discriminate|apply IH].
Qed.

(** Each of them has waited once: the clock has moved by what the waits
    took, and the flag and the source id are what they were. *)
Lemma Join_loop_None attempt start before (w w_head : World) :
  IncomingSlotMigration.Join_loop attempt start before w = (None, w_head) →
  Now w_head = (Now w + total_elapsed before)%Z
  ∧ FLAGS_migration_finalization_timeout_ms w_head
    = FLAGS_migration_finalization_timeout_ms w
  ∧ source_id_ w_head = source_id_ w.
Proof.
  revert w. induction before as [|env before IH]; intros w; simpl.
  - intros [= <-]. split; [lia|done].
  - destruct (IncomingSlotMigration.Join_iteration attempt start env w)
      as [[res|] w1] eqn:Hiter; [discriminate|].
    apply Join_iteration_None in Hiter as (ms & _ & ->).
    intros (HNow & HFLAGS & Hid)%IH.
    rewrite WaitFor_Now in HNow. rewrite WaitFor_FLAGS in HFLAGS.
    rewrite WaitFor_source_id in Hid.
    split; [lia|done].
Qed.

(** While no other fiber runs, a [Join] that does not accept leaves the
    state as it is. *)
Lemma Join_loop_quiet_state attempt start script (w : World) :
  Forall (λ env, others env = []) script →
  (IncomingSlotMigration.Join_loop attempt start script w).1 ≠ Some true →
  state_ (IncomingSlotMigration.Join_loop attempt start script w).2
  = state_ w.
Proof.
  intros Hquiet. revert w.
  induction Hquiet as [|env script Henv _ IH]; intros w; simpl; [done|].
  unfold IncomingSlotMigration.Join_iteration.
  rewrite (WaitFor_quiet _ env w Henv).
  repeat case_match; simplify_eq/=; intros Hrest;
    first [ done | by rewrite IH ].
Qed.

(** C7: when [Join(attempt)] has gone round its loop, waiting, until the
    time passed since it was entered is the finalization timeout or more,
    its next iteration ends it: it logs a warning, reports the generic
    error "Can't join migration in time" on the coordinator and returns
    false without another wait, whatever the rest of the script.  The time
    passed is the time its waits took.  The failed [Join] has written no
    state: the state it returns in is the state it was called in, unless a
    flow has made its fatal report while [Join] was waiting, and then it is
    [C_FATAL]; when no other fiber ran during the waits, the state and the
    flows are those [Join] was called with, so a migration in [C_SYNC] is
    still in [C_SYNC]. *)
Theorem Join_timeout attempt before env rest (w w_head : World) :
  IncomingSlotMigration.Join attempt before w = (None, w_head) →
  (Milliseconds (FLAGS_migration_finalization_timeout_ms w)
   ≤ Now w_head - Now w)%Z →
  ∃ w',
    IncomingSlotMigration.Join attempt (before ++ env :: rest) w
    = (Some false, w')
    ∧ trace w' = trace w_head ++
        [EvLog WARNING ("Can't join migration in time for " +:+ source_id_ w);
         EvReportError "Can't join migration in time"]
    ∧ (Now w_head - Now w = total_elapsed before)%Z
    ∧ state_ w' = state_ w_head
    ∧ (state_ w' ≠ state_ w →
       state_ w' = C_FATAL
       ∧ ∃ evs, trace w' = trace w ++ evs
           ∧ EvReportFatalError cluster.kIncomingMigrationOOM ∈ evs)
    ∧ (Forall (λ env, others env = []) before →
       state_ w' = state_ w ∧ shard_flows_ w' = shard_flows_ w).
Proof.
  unfold IncomingSlotMigration.Join. intros Hhead Hlate.
  destruct (Join_loop_None attempt (Now w) before w w_head Hhead)
    as (HNow & HFLAGS & Hid).
  rewrite <- HFLAGS in Hlate.
  destruct (Join_loop_timeout attempt (Now w) env rest w_head Hlate)
    as (w' & Hlast & Htrace & Hstate & _).
  assert (IncomingSlotMigration.Join_loop attempt (Now w)
            (before ++ env :: rest) w = (Some false, w')) as Hjoin.
  { by rewrite (Join_loop_app attempt (Now w) before (env :: rest) w w_head). }
  exists w'. split; [done|]. split; [by rewrite Htrace, Hid|].
  split; [lia|]. split; [done|]. split.
  - pose proof (kept_Join_loop attempt (Now w) (before ++ env :: rest) w)
      as Hkept.
    rewrite Hjoin in Hkept. simpl in Hkept.
    destruct Hkept as (evs & Hevs & [Hsame|[Hfatal Hin]]); [done|..].
    + intros Hne. by destruct Hne.
    + intros _. split; [done|]. by exists evs.
  - intros Hquiet.
    pose proof (Join_loop_quiet_state attempt (Now w) before w Hquiet)
      as Hsame.
    pose proof (Join_loop_quiet_flows attempt (Now w) before w Hquiet)
      as Hflows.
    rewrite Hhead in Hsame, Hflows. simpl in Hsame, Hflows.
    split; [by rewrite Hstate, Hsame; [|done]|].
    unfold IncomingSlotMigration.Join_loop in Hlast.
    simpl in Hlast.
    assert (shard_flows_ w' = shard_flows_ w_head) as ->; [|done].
    unfold IncomingSlotMigration.Join_iteration in Hlast.
    destruct (Z.leb_spec
                (Milliseconds
                   (FLAGS_migration_finalization_timeout_ms w_head))
                (Now w_head - Now w)); [|lia].
    by simplify_eq/=.
Qed.

(** C9: when [Join(attempt)] has gone round its loop to an iteration that
    waits on the latch (the timeout has not expired and the state is not
    [C_FATAL]), that finds every flow's [last_attempt] equal to [attempt]
    before the wait, and whose latch wait returns false, [Join] ends
    there: after that one wait it logs "Can't join migration because of
    data after LSN", reports "Can't join migration in time" and returns
    false, whatever time is left of the timeout and whatever the rest of
    the script would bring. *)
Theorem Join_data_after_lsn attempt before env rest (w w_head : World) :
  let timeout := Milliseconds (FLAGS_migration_finalization_timeout_ms w) in
  let passed := (Now w_head - Now w)%Z in
  let wait_time := Z.min 100 (ToInt64Milliseconds (timeout - passed)%Z) in
  let after_wait := IncomingSlotMigration.WaitFor wait_time env w_head in
  IncomingSlotMigration.Join attempt before w = (None, w_head) →
  (passed < timeout)%Z →
  GetState w_head ≠ C_FATAL →
  Forall (λ flow, ClusterShardMigration.GetLastAttempt flow = attempt)
         (shard_flows_ w_head) →
  after_wait.1 = false →
  ∃ w',
    IncomingSlotMigration.Join attempt (before ++ env :: rest) w
    = (Some false, w')
    ∧ trace w' = trace after_wait.2 ++
        [EvLog WARNING ("Can't join migration because of data after LSN for "
                        +:+ source_id_ w);
         EvReportError "Can't join migration in time"]
    ∧ waits (trace w') = waits (trace w_head) ++ [wait_time]
    ∧ Now w' = (Now w + total_elapsed before + elapsed env)%Z
    ∧ state_ w' = state_ after_wait.2.
Proof.
  intros timeout passed wait_time after_wait.
  unfold IncomingSlotMigration.Join. intros Hhead Hlt Hstate Hattempt Hwait.
  destruct (Join_loop_None attempt (Now w) before w w_head Hhead)
    as (HNow & HFLAGS & Hid).
  subst timeout passed wait_time after_wait.
  rewrite <- HFLAGS in Hlt, Hwait |- *.
  destruct (Join_loop_data_after_lsn attempt (Now w) env rest w_head
              Hlt Hstate Hattempt Hwait)
    as (w' & Hlast & Htrace & Hstate').
  exists w'.
  split; [by rewrite (Join_loop_app attempt (Now w) before (env :: rest)
                        w w_head)|].
  split; [by rewrite Htrace, Hid|].
  split; [rewrite Htrace, waits_app, WaitFor_waits; simpl;
          by rewrite app_nil_r|].
  split; [|done].
  assert (Now w' = Now (IncomingSlotMigration.WaitFor
                          (Z.min 100
                             (ToInt64Milliseconds
                                (Milliseconds
                                   (FLAGS_migration_finalization_timeout_ms
                                      w_head)
                                 - (Now w_head - Now w))%Z)) env w_head).2)
    as ->.
  { simpl in Hlast.
    rewrite (Join_iteration_waits attempt (Now w) env w_head Hlt Hstate)
      in Hlast.
    simpl in Hlast. apply is_attempt_correct_spec in Hattempt.
    rewrite Hattempt, Hwait in Hlast. by simplify_eq/=. }
  rewrite WaitFor_Now. lia.
Qed.

(** *** The loop of [Stop] *)

Lemma Stop_loop_waits start script (w : World) :
  ∃ ws,
    waits (trace (IncomingSlotMigration.Stop_loop start script w).2)
    = waits (trace w) ++ ws.
Proof.
  revert w. induction script as [|env script IH]; intros w; simpl.
  { exists []. by rewrite app_nil_r. }
  rewrite Stop_iteration_spec. simpl.
  set (ms := ToInt64Milliseconds _).
  pose proof (WaitFor_waits ms env w) as Hwait.
  destruct (IncomingSlotMigration.WaitFor ms env w) as [res w1].
  simpl in *. destruct res; simpl; [by exists [ms]|].
  destruct (_ <=? _)%Z; simpl.
  - exists [ms]. rewrite waits_app, Hwait. simpl. by rewrite app_nil_r.
  - destruct (IH w1) as (ws & ->). exists (ms :: ws).
    by rewrite Hwait, <- app_assoc.
Qed.

(** The first wait of the loop is asked for all that is left of the
    timeout. *)
Lemma Stop_loop_first_wait start env rest (w : World) :
  ∃ ws,
    waits (trace (IncomingSlotMigration.Stop_loop start (env :: rest) w).2)
    = waits (trace w) ++
        ToInt64Milliseconds
          (Milliseconds (FLAGS_migration_finalization_timeout_ms w)
           - (Now w - start))%Z :: ws.
Proof.
  simpl. rewrite Stop_iteration_spec. simpl.
  set (ms := ToInt64Milliseconds _).
  pose proof (WaitFor_waits ms env w) as Hwait.
  destruct (IncomingSlotMigration.WaitFor ms env w) as [res w1].
  simpl in *. destruct res; simpl; [by exists []|].
  destruct (_ <=? _)%Z; simpl.
  - exists []. rewrite waits_app, Hwait. simpl. by rewrite app_nil_r.
  - destruct (Stop_loop_waits start rest w1) as (ws & ->). exists ws.
    by rewrite Hwait, <- app_assoc.
Qed.

(** The two ways out of the loop: a wait that found the latch at zero, or a
    wait that failed when the time passed had reached the timeout, and then
    the error is logged. *)
Lemma Stop_loop_returned start script (w w' : World) :
  IncomingSlotMigration.Stop_loop start script w = (Some (), w') →
  (∃ ms, last (trace w') = Some (EvLatchWait ms true) ∧ bc_ w' = 0%Z)
  ∨ (∃ before env after tr ms,
       script = before ++ env :: after
       ∧ (Milliseconds (FLAGS_migration_finalization_timeout_ms w)
          ≤ Now w - start + total_elapsed before)%Z
       ∧ trace w' = tr ++
           [EvLatchWait ms false;
            EvLog ERROR "Can't stop migration in time"]).
Proof.
  revert w. induction script as [|env script IH]; intros w; simpl;
    [discriminate|].
  rewrite Stop_iteration_spec. simpl.
  set (ms := ToInt64Milliseconds _).
  pose proof (WaitFor_spec ms env w) as Hspec.
  pose proof (WaitFor_true ms env w) as Hzero.
  pose proof (WaitFor_Now ms env w) as HNow.
  pose proof (WaitFor_FLAGS ms env w) as HFLAGS.
  destruct (IncomingSlotMigration.WaitFor ms env w) as [res w1].
  simpl in *. injection Hspec as Hres Hw1.
  destruct res; simpl.
  - intros [= <-]. left. exists ms. split; [|by apply Hzero].
    rewrite Hw1, <- Hres. simpl. apply last_snoc.
  - destruct (Z.leb_spec
                (Milliseconds (FLAGS_migration_finalization_timeout_ms w))
                (Now w - start)) as [Hle|Hlt].
    + intros [= <-]. right.
      exists [], env, script,
        (trace (IncomingSlotMigration.until_zero (others env) w).2), ms.
      split; [done|]. split; [simpl; lia|].
      rewrite Hw1, <- Hres. simpl. by rewrite <- app_assoc.
    + intros [Hleft|(before & env' & after & tr & ms' & -> & Hlate & Htr)]%IH;
        [by left|].
      right. exists (env :: before), env', after, tr, ms'.
      split; [done|]. split; [|done].
      rewrite HFLAGS, HNow in Hlate. simpl. lia.
Qed.

(** C6: [Stop] cancels the execution context and calls [Cancel] on every
    flow, in every state and before any wait on the latch.  Called in
    [C_FATAL] it returns right after that: no latch wait is added to the
    trace.  Called in another state it goes on to wait on the latch: the
    first wait it makes is asked for the whole finalization timeout; when
    it returns, either its last wait found the latch at zero, or its last
    wait failed after the waits before it had lasted the timeout, and the
    last thing it did was to log "Can't stop migration in time"; and it has
    returned by the time its waits have lasted the timeout, so it does not
    block for ever. *)
Theorem Stop_waits_unless_fatal script (w : World) :
  let cancelled := IncomingSlotMigration.Stop_cancel w in
  let r := IncomingSlotMigration.Stop script w in
  (cntx_ cancelled = ExecutionState.Cancel (cntx_ w)
   ∧ (∀ shard f, shard_flows_ cancelled !! shard = Some f → flow_cancelled f)
   ∧ waits (trace cancelled) = waits (trace w)
   ∧ ∃ more, trace r.2 = trace cancelled ++ more)
  ∧ (state_ w = C_FATAL →
     r = (Some (), cancelled) ∧ waits (trace r.2) = waits (trace w))
  ∧ (state_ w ≠ C_FATAL →
     (∀ env rest,
        script = env :: rest →
        ∃ ws, waits (trace r.2)
              = waits (trace w) ++
                  FLAGS_migration_finalization_timeout_ms w :: ws)
     ∧ (∀ w',
          r = (Some (), w') →
          (∃ ms, last (trace w') = Some (EvLatchWait ms true)
                 ∧ bc_ w' = 0%Z)
          ∨ (∃ before env after tr ms,
               script = before ++ env :: after
               ∧ (Milliseconds (FLAGS_migration_finalization_timeout_ms w)
                  ≤ total_elapsed before)%Z
               ∧ trace w' = tr ++
                   [EvLatchWait ms false;
                    EvLog ERROR "Can't stop migration in time"]))
     ∧ (∀ before last rest,
          script = before ++ last :: rest →
          (Milliseconds (FLAGS_migration_finalization_timeout_ms w)
           ≤ total_elapsed before)%Z →
          ∃ w', r = (Some (), w'))).
Proof.
  intros cancelled r.
  destruct (Stop_cancel_spec w)
    as (Hcntx & Hstate & HNow & HFLAGS & Hwaits & Hflows).
  fold cancelled in Hcntx, Hstate, HNow, HFLAGS, Hwaits, Hflows.
  pose proof (Stop_unfold script w) as Hstop.
  fold cancelled r in Hstop.
  split; [|split].
  - split; [done|]. split; [done|]. split; [done|].
    destruct (decide (state_ w = C_FATAL)).
    + exists []. by rewrite Hstop, app_nil_r.
    + rewrite Hstop.
      by destruct (kept_Stop_loop (Now w) script cancelled)
        as (more & Hmore & _); exists more.
  - intros Hfatal. rewrite decide_True in Hstop by done.
    by rewrite Hstop.
  - intros Hother. rewrite decide_False in Hstop by done.
    split; [|split].
    + intros env rest ->.
      destruct (Stop_loop_first_wait (Now w) env rest cancelled)
        as (ws & Hws).
      exists ws. rewrite Hstop, Hws, Hwaits, HFLAGS, HNow.
      by rewrite Z.sub_diag, Z.sub_0_r, ToInt64Milliseconds_Milliseconds.
    + intros w' Hret. rewrite Hstop in Hret.
      apply Stop_loop_returned in Hret
        as [Hleft|(before & env & after & tr & ms & -> & Hlate & Htr)];
        [by left|].
      right. exists before, env, after, tr, ms.
      split; [done|]. split; [|done].
      rewrite HFLAGS, HNow in Hlate. lia.
    + intros before last rest -> Hlate.
      pose proof (Stop_loop_leaves (Now w) before last rest cancelled)
        as Hleaves.
      rewrite <- Hstop in Hleaves.
      destruct r as [[[]|] w']; simpl in *.
      * by exists w'.
      * rewrite HFLAGS, HNow in Hleaves.
        by discriminate Hleaves; lia.
Qed.

(** *** [StartFlow] after an out-of-memory answer *)

(** [StartFlow] is [Start] followed by the test of the state. *)
Lemma StartFlow_unfold fuel shard source script (w : World) :
  IncomingSlotMigration.StartFlow fuel shard source script w
  = match ClusterShardMigration.Start fuel shard source w with
    | (Some _, w1) => IncomingSlotMigration.StartFlow_return script w1
    | (None, w1) => (None, w1)
    end.
Proof. done. Qed.

(** Whatever the other fibers have done before, the run of a flow in which
    the executor answers [not_enough_memory] ends with that call, the
    report of the out-of-memory error on the flow's execution context, its
    fatal report on the coordinator and the decrement that follows the
    loop; the migration is then in [C_FATAL] and the flow is out of
    [Start].  A [StartFlow] that tests the state before another fiber has
    written it calls [Stop]. *)
Theorem oom_in_any_run shard script db cmd new (w : World) :
  let w' := ClusterShardMigration.step shard w in
  trace w' = trace w ++ new →
  EvExecute shard db cmd not_enough_memory ∈ new →
  (∃ before, new = before ++ oom_tail shard db cmd)
  ∧ (∃ c, cntx_ w'
          = ExecutionState.ReportError cluster.kIncomingMigrationOOM c)
  ∧ state_ w' = C_FATAL
  ∧ out_of_Start shard w'
  ∧ IncomingSlotMigration.StartFlow_return script w'
    = IncomingSlotMigration.Stop script w'.
Proof.
  intros w' Htrace Hin. subst w'.
  destruct (step_oom shard w) as (evs & Htrace' & Hevs).
  rewrite Htrace in Htrace'. apply app_inv_head in Htrace' as <-.
  destruct Hevs as [Hfree|Hoom];
    [by apply (oom_free_not_elem shard db cmd) in Hfree|].
  destruct Hoom
    as (before & db' & cmd' & c & -> & Hfree & Hstate & Hcntx & Hout).
  apply elem_of_app in Hin as [Hin|Hin].
  { by apply (oom_free_not_elem shard db cmd) in Hfree. }
  unfold oom_tail in Hin.
  apply elem_of_cons in Hin as [[= <- <-]|Hin].
  2:{ repeat (apply elem_of_cons in Hin as [?|Hin]; [discriminate|]).
      by apply elem_of_nil in Hin. }
  split; [by exists before|]. split; [by exists c|].
  split; [done|]. split; [done|].
  unfold IncomingSlotMigration.StartFlow_return, GetState.
  by rewrite Hstate, decide_True.
Qed.

End Calls.

(** C7 on the stand-ins: shard 0 is inside [Start] and reads nothing;
    [Join(2)] waits once, the wait takes the thirty seconds of the timeout,
    and its second iteration gives up. *)
Lemma Join_timeout_witness :
  let w := ClusterShardMigration.enter 0 (socket_with [])
             (IncomingSlotMigration.Init 1 (fresh 1)) in
  let before := [quiet 30000000000%Z] in
  let w_head := (IncomingSlotMigration.Join 2%Z before w).2 in
  (IncomingSlotMigration.Join 2%Z before w = (None, w_head)
   ∧ (Milliseconds (FLAGS_migration_finalization_timeout_ms w)
      ≤ Now w_head - Now w)%Z)
  ∧ ∃ w',
      IncomingSlotMigration.Join 2%Z (before ++ [quiet 0%Z]) w
      = (Some false, w')
      ∧ trace w'
        = [EvLatchWait 100 false;
           EvLog WARNING "Can't join migration in time for node-a";
           EvReportError "Can't join migration in time"]
      ∧ state_ w' = C_SYNC
      ∧ shard_flows_ w' = shard_flows_ w.
Proof.
  intros w before w_head.
  assert (IncomingSlotMigration.Join 2%Z before w = (None, w_head))
    as Hhead by by vm_compute.
  assert (Milliseconds (FLAGS_migration_finalization_timeout_ms w)
          ≤ Now w_head - Now w)%Z as Hlate by (vm_compute; discriminate).
  split; [exact (conj Hhead Hlate)|].
  destruct (Join_timeout 2%Z before (quiet 0%Z) [] w w_head Hhead Hlate)
    as (w' & Hjoin & Htrace & _ & _ & _ & Hquiet).
  destruct Hquiet as [Hstate Hflows];
    [by apply Forall_singleton|].
  exists w'. split; [exact Hjoin|]. split; [|split; [|exact Hflows]].
  - etrans; [exact Htrace|by vm_compute].
  - etrans; [exact Hstate|by vm_compute].
Defined.

(** C9 on the stand-ins.  Of two flows, shard 0 has stored attempt 5 and
    read a SET since, and shard 1 has read nothing yet.  [Join(5)] finds
    the attempts unequal and waits; during the wait shard 1 reads its
    marker.  At the second iteration both attempts are 5 and the latch is
    at one; the wait fails after a millisecond, and [Join] returns false
    with all but two milliseconds of its thirty seconds left. *)
Lemma Join_data_after_lsn_witness :
  let w := history
             [Fiber (FlowEnters 0
                       (socket_with [RdTx (lsn_marker 5%Z);
                                     RdTx (cmd ["SET"; "c"; "3"])]));
              Fiber (FlowRuns 0); Fiber (FlowRuns 0); Fiber (FlowRuns 0);
              Fiber (FlowEnters 1 (socket_with [RdTx (lsn_marker 5%Z)]));
              Fiber (FlowRuns 1)]
             (IncomingSlotMigration.Init 2 (fresh 5)) in
  let before := [{| others := [FlowRuns 1]; elapsed := 1000000%Z |}] in
  let env := quiet 1000000%Z in
  let w_head := (IncomingSlotMigration.Join 5%Z before w).2 in
  let timeout := Milliseconds (FLAGS_migration_finalization_timeout_ms w) in
  let passed := (Now w_head - Now w)%Z in
  let wait_time := Z.min 100 (ToInt64Milliseconds (timeout - passed)%Z) in
  let after_wait := IncomingSlotMigration.WaitFor wait_time env w_head in
  (IncomingSlotMigration.Join 5%Z before w = (None, w_head)
   ∧ (passed < timeout)%Z
   ∧ GetState w_head ≠ C_FATAL
   ∧ Forall (λ flow, ClusterShardMigration.GetLastAttempt flow = 5%Z)
            (shard_flows_ w_head)
   ∧ after_wait.1 = false)
  ∧ ∃ w',
      IncomingSlotMigration.Join 5%Z (before ++ [env; quiet 0%Z]) w
      = (Some false, w')
      ∧ trace w'
        = [EvLatchDec 0; EvLatchAdd 0;
           EvExecute 0 0 {| cmd_args := ["SET"; "c"; "3"] |} 0%Z;
           EvLatchDec 1; EvLatchWait 100 false; EvLatchWait 100 false;
           EvLog WARNING
             "Can't join migration because of data after LSN for node-a";
           EvReportError "Can't join migration in time"]
      ∧ Now w' = 2000000%Z.
Proof.
  intros w before env w_head timeout passed wait_time after_wait.
  assert (IncomingSlotMigration.Join 5%Z before w = (None, w_head))
    as Hhead by by vm_compute.
  assert (passed < timeout)%Z as Hlt by by vm_compute.
  assert (GetState w_head ≠ C_FATAL) as Hstate by by vm_compute.
  assert (Forall (λ flow, ClusterShardMigration.GetLastAttempt flow = 5%Z)
                 (shard_flows_ w_head)) as Hattempt.
  { vm_compute. by repeat constructor. }
  assert (after_wait.1 = false) as Hwait by by vm_compute.
  split;
    [exact (conj Hhead (conj Hlt (conj Hstate (conj Hattempt Hwait))))|].
  destruct (Join_data_after_lsn 5%Z before env [quiet 0%Z] w w_head
              Hhead Hlt Hstate Hattempt Hwait)
    as (w' & Hjoin & Htrace & _ & HNow & _).
  exists w'. split; [exact Hjoin|]. split.
  - etrans; [exact Htrace|by vm_compute].
  - etrans; [exact HNow|by vm_compute].
Defined.

(** C6 on the stand-ins.  After an out-of-memory answer the state is
    [C_FATAL], and [Stop] returns without a wait and without consulting its
    script.  In [C_SYNC], with shard 0 inside [Start] and not moving,
    [Stop] asks the latch for the 30000 ms of the timeout and has returned
    once that wait has lasted them. *)
Lemma Stop_waits_unless_fatal_witness :
  let fatal := (ClusterShardMigration.Start 10 0
                  (socket_with [RdTx (cmd ["SET"; "a"; "1"])])
                  (IncomingSlotMigration.Init 2 (fresh 0))).2 in
  let syncing := ClusterShardMigration.enter 0 (socket_with [])
                   (IncomingSlotMigration.Init 1 (fresh 1)) in
  let script := [quiet 30000000000%Z; quiet 0%Z] in
  (state_ fatal = C_FATAL
   ∧ IncomingSlotMigration.Stop [] fatal
     = (Some (), IncomingSlotMigration.Stop_cancel fatal)
   ∧ waits (trace (IncomingSlotMigration.Stop [] fatal).2)
     = waits (trace fatal))
  ∧ (state_ syncing ≠ C_FATAL
     ∧ (∃ ws, waits (trace (IncomingSlotMigration.Stop script syncing).2)
              = waits (trace syncing) ++ 30000%Z :: ws)
     ∧ (Milliseconds (FLAGS_migration_finalization_timeout_ms syncing)
        ≤ total_elapsed [quiet 30000000000%Z])%Z
     ∧ ∃ w', IncomingSlotMigration.Stop script syncing = (Some (), w')).
Proof.
  intros fatal syncing script.
  assert (state_ fatal = C_FATAL) as Hfatal by by vm_compute.
  assert (state_ syncing ≠ C_FATAL) as Hsync by by vm_compute.
  assert (Milliseconds (FLAGS_migration_finalization_timeout_ms syncing)
          ≤ total_elapsed [quiet 30000000000%Z])%Z as Hlate
    by (vm_compute; discriminate).
  split.
  - split; [exact Hfatal|].
    exact (proj1 (proj2 (Stop_waits_unless_fatal [] fatal)) Hfatal).
  - split; [exact Hsync|].
    destruct (proj2 (proj2 (Stop_waits_unless_fatal script syncing)) Hsync)
      as (Hfirst & _ & Hreturns).
    split; [exact (Hfirst (quiet 30000000000%Z) [quiet 0%Z] eq_refl)|].
    split; [exact Hlate|].
    exact (Hreturns [quiet 30000000000%Z] (quiet 0%Z) [] eq_refl Hlate).
Defined.

(** [oom_in_any_run] on the stand-ins: shard 1 meets the out-of-memory
    answer at its second SET, after shard 0 has stored an attempt. *)
Lemma oom_in_any_run_witness :
  let w := history
             [Fiber (FlowEnters 1
                       (socket_with [RdTx (cmd ["SET"; "a"; "1"]);
                                     RdTx (cmd ["SET"; "b"; "2"])]));
              Fiber (FlowRuns 1); Fiber (FlowRuns 1);
              Fiber (FlowEnters 0 (socket_with [RdTx (lsn_marker 5%Z)]));
              Fiber (FlowRuns 0); Fiber (FlowRuns 0);
              Fiber (FlowRuns 1)]
             (IncomingSlotMigration.Init 2 (fresh 1)) in
  let set_b := {| cmd_args := ["SET"; "b"; "2"] |} in
  let new := oom_tail 1 0 set_b in
  let w' := ClusterShardMigration.step 1 w in
  (trace w' = trace w ++ new
   ∧ EvExecute 1 0 set_b not_enough_memory ∈ new)
  ∧ state_ w' = C_FATAL
  ∧ out_of_Start 1 w'
  ∧ IncomingSlotMigration.StartFlow_return [] w'
    = IncomingSlotMigration.Stop [] w'.
Proof.
  intros w set_b new w'.
  assert (trace w' = trace w ++ new) as Htrace by by vm_compute.
  assert (EvExecute 1 0 set_b not_enough_memory ∈ new) as Hin.
  { apply elem_of_cons. by left. }
  split; [exact (conj Htrace Hin)|].
  destruct (oom_in_any_run 1 [] 0 set_b new w Htrace Hin)
    as (_ & _ & Hstate & Hout & Hstop).
  exact (conj Hstate (conj Hout Hstop)).
Defined.

(** C3 does not hold of the code when a [Join] is waiting on the latch.
    Of two flows, shard 1 has stored attempt 5 and read a SET since, and
    shard 0 has stored attempt 5 and waits.  [Join(5)] samples the
    attempts, finds the state [C_SYNC] and waits.  During the wait shard 1
    reads a second SET, which the executor answers with
    [not_enough_memory]: the flow makes both reports, the state is
    [C_FATAL], and the flow's decrement on its way out of [Start] brings
    the latch to zero and wakes [Join].  [Join] returns true and writes
    [C_FINISHED] over [C_FATAL].  When [StartFlow] of shard 1 then tests
    the state it is not [C_FATAL], and it returns without calling [Stop]:
    the world is left as it is, nothing is cancelled, and the migration
    counts as finished although the second SET was not applied. *)
Theorem oom_Stop_not_called :
  let w := history
             [Fiber (FlowEnters 1
                       (socket_with [RdTx (lsn_marker 5%Z);
                                     RdTx (cmd ["SET"; "a"; "1"]);
                                     RdTx (cmd ["SET"; "b"; "2"])]));
              Fiber (FlowRuns 1); Fiber (FlowRuns 1); Fiber (FlowRuns 1);
              Fiber (FlowEnters 0 (socket_with [RdTx (lsn_marker 5%Z)]));
              Fiber (FlowRuns 0); Fiber (FlowRuns 0)]
             (IncomingSlotMigration.Init 2 (fresh 1)) in
  let waiting := {| others := [FlowRuns 1; FlowRuns 1];
                    elapsed := 1000000%Z |} in
  let in_wait := history [Fiber (FlowRuns 1); Fiber (FlowRuns 1)] w in
  let r := IncomingSlotMigration.Join 5%Z [waiting] w in
  let set_b := {| cmd_args := ["SET"; "b"; "2"] |} in
  state_ w = C_SYNC
  ∧ trace in_wait = trace w ++ oom_tail 1 0 set_b
  ∧ state_ in_wait = C_FATAL
  ∧ pc <$> shard_flows_ in_wait = [PcAttempt; PcIdle]
  ∧ r.1 = Some true
  ∧ trace r.2 = trace in_wait ++ [EvLatchWait 100 true]
  ∧ state_ r.2 = C_FINISHED
  ∧ pc <$> shard_flows_ r.2 = [PcAttempt; PcIdle]
  ∧ IncomingSlotMigration.StartFlow_return [] r.2 = (Some (), r.2)
  ∧ trace (IncomingSlotMigration.Stop [] r.2).2
    = trace r.2 ++
        [EvLog INFO "Finishing incoming migration of slots [0, 99]";
         EvCntxCancel; EvShutdown 0 0%Z]
  ∧ applied (service_ r.2) = [{| cmd_args := ["SET"; "a"; "1"] |}].
Proof. by vm_compute. Qed.
